(** * Tile areas, tile iterators and clipboard buffers of OpenTTD

    A shallow embedding of [tilearea.cpp] (orthogonal and diagonal tile
    areas, the diagonal and the transformation iterator controllers) and of
    the buffer indexing of [clipboard.cpp], with the properties the
    specification states about them.

    Conventions.
    - [uint] values are integers in [0, 2^32); every [uint] operation of
      the source that can leave that range is wrapped with [to_uint].
    - [int] values are integers; the conversion of a [uint] to [int] is
      [to_int] (two's complement).  Arithmetic on [int] is written
      exactly: the source has undefined behaviour when it overflows, and
      the maps considered here ([MapWF]) keep every value far inside the
      range.
    - [assert] aborts the program; a function that asserts returns
      [option], [None] standing for the abort. *)

From Stdlib Require Import ZArith Lia List Bool.
Import ListNotations.
Local Open Scope Z_scope.

(** ** Machine integers *)

Definition to_uint (z : Z) : Z := z mod 2 ^ 32.
Definition to_uint16 (z : Z) : Z := z mod 2 ^ 16.
Definition to_int (z : Z) : Z := (z + 2 ^ 31) mod 2 ^ 32 - 2 ^ 31.

(** ** Assertions *)

Definition assert (b : bool) : option unit := if b then Some tt else None.

Notation "'assert!' b ;; k" :=
  (match assert b with Some _ => k | None => None end)
  (at level 10, b at level 200, k at level 200).

(** ** Maps and tile indices *)

(** Modelled from the spec: the map object of map_func.h, which the sources
    only use through [MapSizeX], [MapSizeY] and [MapSize].  [map_id] stands
    for the identity of the object (its address), so that two maps of the
    same size stay different maps. *)
Record Map : Set := mkMap { map_id : Z; size_x : Z; size_y : Z }.

Definition MapSizeX (m : Map) : Z := size_x m.
Definition MapSizeY (m : Map) : Z := size_y m.
Definition MapSize (m : Map) : Z := size_x m * size_y m.

Definition Map_eqb (m1 m2 : Map) : bool :=
  (map_id m1 =? map_id m2) && (size_x m1 =? size_x m2) && (size_y m1 =? size_y m2).

(** A raw tile index is a [uint]; a generic tile index carries its map. *)
Definition RawTileIndex : Set := Z.

Record GenericTileIndex : Set := mkTile { index : RawTileIndex; map : Map }.

Definition INVALID_TILE_INDEX : RawTileIndex := 2 ^ 32 - 1.

(** Modelled from the spec: the coordinate primitives of map_func.h (the
    decomposition of a linear index into x and y for a given map, the
    composition, the same-map predicate and the on-grid predicate), which
    the sources call but do not define. *)
Definition MapOf (t : GenericTileIndex) : Map := map t.
Definition IndexOf (t : GenericTileIndex) : RawTileIndex := index t.
Definition TileX (t : GenericTileIndex) : Z := index t mod MapSizeX (map t).
Definition TileY (t : GenericTileIndex) : Z := index t / MapSizeX (map t).
Definition TileXY (x y : Z) (m : Map) : GenericTileIndex :=
  mkTile (to_uint (y * MapSizeX m + x)) m.
Definition IsSameMap (t1 t2 : GenericTileIndex) : bool := Map_eqb (map t1) (map t2).
Definition IsValidTileIndex (t : GenericTileIndex) : bool := index t <? MapSize (map t).

(** Modelled from the spec: [IsInsideBS] of core/math_func.hpp, the
    base-and-size interval test done with one unsigned comparison. *)
Definition IsInsideBS (x base size : Z) : bool := to_uint (x - base) <? size.

(** The maps considered: both sides positive and at most 2^14, so that a
    tile index is a [uint] different from [INVALID_TILE_INDEX], a width or
    height fits the 16 bits it is stored in, and the rotated coordinates
    [x + y] and [y - x] and their differences stay inside 16 signed bits. *)
Definition MapWF (m : Map) : Prop :=
  0 < size_x m <= 2 ^ 14 /\ 0 < size_y m <= 2 ^ 14.

(** A tile index as the type [uint] allows it. *)
Definition TileWF (t : GenericTileIndex) : Prop := 0 <= index t < 2 ^ 32.

(** ** Orthogonal tile areas *)

Module OrthogonalTileAreaT.

(** Modelled from the spec: the fields of the area (tilearea_type.h is not
    among the sources): the base tile, and the width and height, stored in
    16 bits as the [uint16 src_w, uint16 src_h] that
    [TransformationTileIteratorController::Init] takes them in. *)
Record t : Set := mk { tile : GenericTileIndex; w : Z; h : Z }.

(** The values the fields' types allow. *)
Definition WF (ta : t) : Prop :=
  TileWF (tile ta) /\ 0 <= w ta < 2 ^ 16 /\ 0 <= h ta < 2 ^ 16.

(** [OrthogonalTileAreaT(start, end)] *)
Definition Construct (start end_ : GenericTileIndex) : option t :=
  assert! IsSameMap start end_ ;;
  assert! IsValidTileIndex start ;;
  assert! IsValidTileIndex end_ ;;
  let sx := TileX start in
  let sy := TileY start in
  let ex := TileX end_ in
  let ey := TileY end_ in
  let '(sx, ex) := if sx >? ex then (ex, sx) else (sx, ex) in
  let '(sy, ey) := if sy >? ey then (ey, sy) else (sy, ey) in
  Some (mk (TileXY sx sy (MapOf start))
           (to_uint16 (to_uint (ex - sx + 1)))
           (to_uint16 (to_uint (ey - sy + 1)))).

(** [Add(to_add)] *)
Definition Add (to_add : GenericTileIndex) (this : t) : t :=
  if negb (IsValidTileIndex (tile this)) then mk to_add 1 1
  else
    let sx := TileX (tile this) in
    let sy := TileY (tile this) in
    let ex := to_uint (sx + w this - 1) in
    let ey := to_uint (sy + h this - 1) in
    let ax := TileX to_add in
    let ay := TileY to_add in
    let sx := Z.min ax sx in
    let sy := Z.min ay sy in
    let ex := Z.max ax ex in
    let ey := Z.max ay ey in
    mk (TileXY sx sy (MapOf to_add))
       (to_uint16 (to_uint (ex - sx + 1)))
       (to_uint16 (to_uint (ey - sy + 1))).

(** [Intersects(ta)] *)
Definition Intersects (this ta : t) : option bool :=
  if (w ta =? 0) || (w this =? 0) then Some false
  else
    assert! negb (w ta =? 0) && negb (h ta =? 0) &&
            negb (w this =? 0) && negb (h this =? 0) ;;
    assert! IsSameMap (tile this) (tile ta) ;;
    let left1 := TileX (tile this) in
    let top1 := TileY (tile this) in
    let right1 := to_uint (left1 + w this - 1) in
    let bottom1 := to_uint (top1 + h this - 1) in
    let left2 := TileX (tile ta) in
    let top2 := TileY (tile ta) in
    let right2 := to_uint (left2 + w ta - 1) in
    let bottom2 := to_uint (top2 + h ta - 1) in
    Some (negb ((left2 >? right1) || (right2 <? left1) ||
                (top2 >? bottom1) || (bottom2 <? top1))).

(** [Contains(ta)], the test against another area *)
Definition ContainsArea (this ta : t) : option bool :=
  if (w ta =? 0) || (w this =? 0) then Some false
  else
    assert! negb (w ta =? 0) && negb (h ta =? 0) &&
            negb (w this =? 0) && negb (h this =? 0) ;;
    assert! IsSameMap (tile this) (tile ta) ;;
    let left1 := TileX (tile this) in
    let top1 := TileY (tile this) in
    let right1 := to_uint (left1 + w this - 1) in
    let bottom1 := to_uint (top1 + h this - 1) in
    let left2 := TileX (tile ta) in
    let top2 := TileY (tile ta) in
    let right2 := to_uint (left2 + w ta - 1) in
    let bottom2 := to_uint (top2 + h ta - 1) in
    Some ((left2 >=? left1) && (right2 <=? right1) &&
          (top2 >=? top1) && (bottom2 <=? bottom1)).

(** [Contains(tile)], the test against a tile *)
Definition Contains (this : t) (tl : GenericTileIndex) : option bool :=
  if w this =? 0 then Some false
  else
    assert! negb (w this =? 0) && negb (h this =? 0) ;;
    assert! IsSameMap (tile this) tl ;;
    let left := TileX (tile this) in
    let top := TileY (tile this) in
    let tile_x := TileX tl in
    let tile_y := TileY tl in
    Some (IsInsideBS tile_x left (w this) && IsInsideBS tile_y top (h this)).

(** [ClampToMap()].  The two arguments of [min] have different types, so
    the overload on [int] is taken; the result goes back into the 16 bits
    of the field. *)
Definition ClampToMap (this : t) : option t :=
  assert! IsValidTileIndex (tile this) ;;
  Some (mk (tile this)
           (to_uint16 (Z.min (w this)
                             (to_int (to_uint (MapSizeX (MapOf (tile this)) - TileX (tile this))))))
           (to_uint16 (Z.min (h this)
                             (to_int (to_uint (MapSizeY (MapOf (tile this)) - TileY (tile this))))))).

(** The area that [Add] takes for empty: its origin is no tile of map [m]. *)
Definition empty (m : Map) : t := mk (mkTile INVALID_TILE_INDEX m) 0 0.

(** An area with a valid origin on a well-formed map and a width and height
    that are not zero. *)
Definition Anchored (ta : t) : Prop :=
  MapWF (MapOf (tile ta)) /\ WF ta /\ IsValidTileIndex (tile ta) = true /\
  w ta <> 0 /\ h ta <> 0.

(** An anchored area that does not reach past the east or south edge. *)
Definition OnMap (ta : t) : Prop :=
  Anchored ta /\
  TileX (tile ta) + w ta <= MapSizeX (MapOf (tile ta)) /\
  TileY (tile ta) + h ta <= MapSizeY (MapOf (tile ta)).

(** A tile of map [m]. *)
Definition TileOf (m : Map) (tl : GenericTileIndex) : Prop :=
  TileWF tl /\ map tl = m /\ IsValidTileIndex tl = true.

End OrthogonalTileAreaT.

Module OTA := OrthogonalTileAreaT.

(** ** Diagonal tile areas *)

Module DiagonalTileAreaT.

(** Modelled from the spec: the fields of the area (tilearea_type.h is not
    among the sources): the base tile and the two signed extents along the
    rotated axes. *)
Record t : Set := mk { tile : GenericTileIndex; a : Z; b : Z }.

(** The rotated coordinates of a tile, as both the constructor and
    [Contains] compute them: sums and differences of [uint]s, read as
    [int]. *)
Definition rot_a (tl : GenericTileIndex) : Z := to_int (to_uint (TileY tl + TileX tl)).
Definition rot_b (tl : GenericTileIndex) : Z := to_int (to_uint (TileY tl - TileX tl)).

(** [DiagonalTileAreaT(start, end)] *)
Definition Construct (start end_ : GenericTileIndex) : option t :=
  assert! IsSameMap start end_ ;;
  assert! IsValidTileIndex start ;;
  assert! IsValidTileIndex end_ ;;
  let a := to_int (to_uint (TileY end_ + TileX end_ - TileY start - TileX start)) in
  let b := to_int (to_uint (TileY end_ - TileX end_ - TileY start + TileX start)) in
  let a := if a >? 0 then a + 1 else a - 1 in
  let b := if b >? 0 then b + 1 else b - 1 in
  Some (mk start a b).

(** The swap of [Contains], which keeps the end exclusive. *)
Definition swap_range (start_ end_ : Z) : Z * Z :=
  if start_ >? end_ then (end_ + 1, start_ + 1) else (start_, end_).

(** [Contains(tile)] *)
Definition Contains (this : t) (tl : GenericTileIndex) : option bool :=
  assert! IsSameMap (tile this) tl ;;
  let a := rot_a tl in
  let b := rot_b tl in
  let start_a := rot_a (tile this) in
  let start_b := rot_b (tile this) in
  let end_a := start_a + DiagonalTileAreaT.a this in
  let end_b := start_b + DiagonalTileAreaT.b this in
  let '(start_a, end_a) := swap_range start_a end_a in
  let '(start_b, end_b) := swap_range start_b end_b in
  Some ((a >=? start_a) && (a <? end_a) && (b >=? start_b) && (b <? end_b)).

(** An area as the constructor builds them: the origin is a valid tile and
    the extents are not zero; the extents are also kept inside 31 signed
    bits, so that the iterator's arithmetic on them stays inside [int]. *)
Definition WF (ta : t) : Prop :=
  TileWF (tile ta) /\ IsValidTileIndex (tile ta) = true /\
  a ta <> 0 /\ b ta <> 0 /\
  - 2 ^ 30 < a ta < 2 ^ 30 /\ - 2 ^ 30 < b ta < 2 ^ 30.

(** The specification's wording of [Contains], for comparison with the
    code: the half-open range of an axis, from the origin's rotated
    coordinate and the stored extent, and membership in both ranges. *)
Definition spec_range (origin extent : Z) : Z * Z :=
  if extent <? 0 then (origin + extent + 1, origin + 1) else (origin, origin + extent).

Definition in_range (v : Z) (r : Z * Z) : Prop := fst r <= v < snd r.

End DiagonalTileAreaT.

(** ** The diagonal iterator *)

Module DiagonalTileIteratorController.

(** Modelled from the spec: the fields of the controller (tilearea_type.h is
    not among the sources): the base tile in normal coordinates, the current
    and the terminal rotated coordinates. *)
Record t : Set := mk {
  base_x : Z; base_y : Z;
  a_cur : Z; b_cur : Z;
  a_max : Z; b_max : Z }.

(** Modelled from the spec: the initialisation of the controller over an
    area (tilearea_type.h is not among the sources): the index starts on the
    area's origin, the base is the origin in normal coordinates, the
    current rotated coordinates are 0 and the terminal ones are the area's
    extents. *)
Definition Init (ta : DiagonalTileAreaT.t) : t * RawTileIndex :=
  (mk (TileX (DiagonalTileAreaT.tile ta)) (TileY (DiagonalTileAreaT.tile ta))
      0 0 (DiagonalTileAreaT.a ta) (DiagonalTileAreaT.b ta),
   IndexOf (DiagonalTileAreaT.tile ta)).

(** One pass through the body of the [do ... while] of [Advance]: the move
    in rotated coordinates, then the conversion back with the clipping at
    the map's borders. *)
Definition move (c : t) : t :=
  if (a_max c =? 1) || (a_max c =? -1) then
    mk (base_x c) (base_y c) 0
       (if b_max c >? 0 then Z.min (b_cur c + 2) (b_max c)
        else Z.max (b_cur c - 2) (b_max c))
       (a_max c) (b_max c)
  else
    let a1 := if a_max c >? 0 then a_cur c + 2 else a_cur c - 2 in
    let new_line := if a_max c >? 0 then a1 >=? a_max c else a1 <=? a_max c in
    if new_line then
      mk (base_x c) (base_y c)
         (if negb (Z.rem (Z.abs a1) 2 =? 0) then 0
          else if a_max c >? 0 then 1 else -1)
         (if b_max c >? 0 then b_cur c + 1 else b_cur c - 1)
         (a_max c) (b_max c)
    else
      mk (base_x c) (base_y c) a1 (b_cur c) (a_max c) (b_max c).

Definition convert (c : t) (my_map : Map) : RawTileIndex :=
  let x := to_uint (base_x c + Z.quot (a_cur c - b_cur c) 2) in
  let y := to_uint (base_y c + Z.quot (b_cur c + a_cur c) 2) in
  if (x >=? MapSizeX my_map) || (y >=? MapSizeY my_map) then INVALID_TILE_INDEX
  else index (TileXY x y my_map).

(** The [do ... while] loop.  The source loops for as long as its condition
    holds; [fuel] bounds the number of passes and [None] says that it ran
    out. *)
Fixpoint Advance_loop (fuel : nat) (c : t) (my_map : Map) : option (t * RawTileIndex) :=
  match fuel with
  | O => None
  | S fuel' =>
      let c' := move c in
      let my_index := convert c' my_map in
      if negb (IsValidTileIndex (mkTile my_index my_map)) && negb (b_max c' =? b_cur c')
      then Advance_loop fuel' c' my_map
      else Some (c', my_index)
  end.

(** [Advance(my_index, my_map)] *)
Definition Advance (fuel : nat) (my_index : RawTileIndex) (my_map : Map) (c : t)
  : option (t * RawTileIndex) :=
  assert! negb (my_index =? INVALID_TILE_INDEX) ;;
  match Advance_loop fuel c my_map with
  | None => None
  | Some (c', my_index') =>
      Some (c', if b_max c' =? b_cur c' then INVALID_TILE_INDEX else my_index')
  end.

(** The states of an iteration over [ta] on its map: the initial one, and
    every one that a call of [Advance] returns from a state whose index is
    not the done sentinel. *)
Inductive Reachable (ta : DiagonalTileAreaT.t) : t -> RawTileIndex -> Prop :=
| reach_init : forall c i, Init ta = (c, i) -> Reachable ta c i
| reach_step : forall c i fuel c' i',
    Reachable ta c i ->
    Advance fuel i (MapOf (DiagonalTileAreaT.tile ta)) c = Some (c', i') ->
    Reachable ta c' i'.

(** [n] calls of [Advance], stopping at the done sentinel; the result is the
    list of the indices produced on the way, the last state and index. *)
Fixpoint run (n fuel : nat) (my_map : Map) (c : t) (my_index : RawTileIndex)
  : option (list RawTileIndex * t * RawTileIndex) :=
  match n with
  | O => Some ([], c, my_index)
  | S n' =>
      if my_index =? INVALID_TILE_INDEX then Some ([], c, my_index)
      else
        match Advance fuel my_index my_map c with
        | None => None
        | Some (c', i') =>
            match run n' fuel my_map c' i' with
            | None => None
            | Some (l, c'', i'') => Some (my_index :: l, c'', i'')
            end
        end
  end.

(** A bound on the passes through the loop body that are left before
    [b_cur] reaches [b_max]. *)
Definition passes_left (c : t) : Z :=
  (Z.abs (b_max c) - Z.abs (b_cur c)) * (Z.abs (a_max c) + 1)
  + (Z.abs (a_max c) - Z.abs (a_cur c)).

(** What holds of the controller all through an iteration over [ta]: the
    base and the terminal coordinates are the area's, [a_cur] lies between
    0 and [a_max] (exclusive), [b_cur] between 0 and [b_max] (inclusive),
    and until [b_cur] reaches [b_max] the two have the same parity. *)
Definition Inv (ta : DiagonalTileAreaT.t) (c : t) : Prop :=
  base_x c = TileX (DiagonalTileAreaT.tile ta) /\
  base_y c = TileY (DiagonalTileAreaT.tile ta) /\
  a_max c = DiagonalTileAreaT.a ta /\
  b_max c = DiagonalTileAreaT.b ta /\
  (0 <= a_cur c < a_max c \/ a_max c < a_cur c <= 0) /\
  (0 <= b_cur c <= b_max c \/ b_max c <= b_cur c <= 0) /\
  (b_cur c <> b_max c -> Z.rem (a_cur c - b_cur c) 2 = 0).

(** What holds of the index next to the controller: it is the done
    sentinel exactly when [b_cur] has reached [b_max], and otherwise it is
    the valid tile that the current rotated coordinates convert to. *)
Definition Inv_index (my_map : Map) (c : t) (my_index : RawTileIndex) : Prop :=
  (my_index = INVALID_TILE_INDEX <-> b_cur c = b_max c) /\
  (my_index <> INVALID_TILE_INDEX ->
   my_index = convert c my_map /\ IsValidTileIndex (mkTile my_index my_map) = true).

(** The order in which the iterator visits rotated coordinates: rows by
    growing distance of [b_cur] from 0, and within a row by growing
    distance of [a_cur] from 0. *)
Definition before (c c' : t) : Prop :=
  Z.abs (b_cur c) < Z.abs (b_cur c') \/
  (b_cur c = b_cur c' /\ Z.abs (a_cur c) < Z.abs (a_cur c')).

(** The controller standing on tile [tl] of an iteration over [ta]. *)
Definition standing_on (ta : DiagonalTileAreaT.t) (tl : GenericTileIndex) : t :=
  let o := DiagonalTileAreaT.tile ta in
  mk (TileX o) (TileY o)
     ((TileY tl + TileX tl) - (TileY o + TileX o))
     ((TileY tl - TileX tl) - (TileY o - TileX o))
     (DiagonalTileAreaT.a ta) (DiagonalTileAreaT.b ta).

End DiagonalTileIteratorController.

(** ** The transformation iterator *)

Module TransformationTileIteratorController.

Inductive DiagDirection : Set := DIAGDIR_NE | DIAGDIR_SE | DIAGDIR_SW | DIAGDIR_NW.

(** A tile offset in coordinates. *)
Record TileIndexDiffC : Set := mkDiffC { diff_x : Z; diff_y : Z }.

(** Modelled from the spec: the directional-offset primitives of map_func.h
    that turn a coordinate offset into a linear-index delta for a map; the
    sources call them but do not define them. *)
Definition ToTileIndexDiff (tidc : TileIndexDiffC) (m : Map) : Z :=
  diff_y tidc * MapSizeX m + diff_x tidc.
Definition TileDiffXY (x y : Z) (m : Map) : Z := y * MapSizeX m + x.

Section Controller.

(** The symmetry transforms, their action on the four diagonal directions
    and the coordinate offset of a direction are declared outside the
    sources; the controller is parametric in them. *)
Variable DirTransformation : Type.
Variable TransformDiagDir : DiagDirection -> DirTransformation -> DiagDirection.
Variable TileIndexDiffCByDiagDir : DiagDirection -> TileIndexDiffC.

(** Modelled from the spec: the fields of the controller (tilearea_type.h is
    not among the sources): the width of the iterated area, the columns
    left in the row, the rows left, and the transform. *)
Record t : Type := mk { w : Z; x : Z; y : Z; transformation : DirTransformation }.

(** The linear delta on [dst_map] of direction [d] passed through the
    controller's transform. *)
Definition delta (c : t) (d : DiagDirection) (dst_map : Map) : Z :=
  ToTileIndexDiff (TileIndexDiffCByDiagDir (TransformDiagDir d (transformation c))) dst_map.

(** [Advance(src_index, src_map, dst_index, dst_map)] *)
Definition Advance (src_index : RawTileIndex) (src_map : Map)
    (dst_index : RawTileIndex) (dst_map : Map) (c : t)
  : option (t * RawTileIndex * RawTileIndex) :=
  assert! negb (src_index =? INVALID_TILE_INDEX) ;;
  let x1 := x c - 1 in
  if x1 >? 0 then
    Some (mk (w c) x1 (y c) (transformation c),
          to_uint (src_index + 1),
          to_uint (dst_index + delta c DIAGDIR_SW dst_map))
  else
    let y1 := y c - 1 in
    if y1 >? 0 then
      Some (mk (w c) (w c) y1 (transformation c),
            to_uint (src_index + (TileDiffXY 1 1 src_map - w c)),
            to_uint (to_uint (dst_index - delta c DIAGDIR_SW dst_map * (w c - 1))
                     + delta c DIAGDIR_SE dst_map))
    else
      Some (mk (w c) x1 y1 (transformation c), INVALID_TILE_INDEX, INVALID_TILE_INDEX).

(** [n] calls of [Advance], one after the other, on a controller and its
    two indices. *)
Fixpoint iterate (n : nat) (src_map dst_map : Map)
    (start : t * RawTileIndex * RawTileIndex) : option (t * RawTileIndex * RawTileIndex) :=
  match n with
  | O => Some start
  | S n' =>
      match iterate n' src_map dst_map start with
      | Some (c, src_index, dst_index) => Advance src_index src_map dst_index dst_map c
      | None => None
      end
  end.

End Controller.

Arguments iterate {DirTransformation} _ _ _ _ _ _.
Arguments mk {DirTransformation} _ _ _ _.
Arguments w {DirTransformation} _.
Arguments x {DirTransformation} _.
Arguments y {DirTransformation} _.
Arguments transformation {DirTransformation} _.
Arguments delta {DirTransformation} _ _ _ _ _.
Arguments Advance {DirTransformation} _ _ _ _ _ _ _.

End TransformationTileIteratorController.

Module TTIC := TransformationTileIteratorController.

(** ** Clipboard buffers *)

Module Clipboard.

Definition NUM_CLIPBOARD_BUFFERS : Z := 5.

(** A [size_t] is taken to have 64 bits. *)
Definition to_size_t (z : Z) : Z := z mod 2 ^ 64.

Section Buffers.

(** A pointer to a map is its address.  The array [_clipboard_buffers]
    lies at some address and its elements have some size. *)
Variable clipboard_buffers : Z.
Variable sizeof_Map : Z.

(** The difference of two pointers to maps, in elements. *)
Definition ptr_diff (p q : Z) : Z := Z.quot (p - q) sizeof_Map.

(** The address of an element of the array. *)
Definition element (i : Z) : Z := clipboard_buffers + i * sizeof_Map.

(** [IsClipboardBuffer(map)] *)
Definition IsClipboardBuffer (map : Z) : bool :=
  to_size_t (ptr_diff map clipboard_buffers) <? NUM_CLIPBOARD_BUFFERS.

(** [GetClipboardBuffer(index)] *)
Definition GetClipboardBuffer (index : Z) : option Z :=
  assert! index <? NUM_CLIPBOARD_BUFFERS ;;
  Some (element index).

(** [GetClipboardBufferIndex(buffer)] *)
Definition GetClipboardBufferIndex (buffer : Z) : option Z :=
  assert! IsClipboardBuffer buffer ;;
  Some (to_uint (ptr_diff buffer clipboard_buffers)).

(** The array lies inside the lower half of the address space. *)
Definition ArrayWF : Prop :=
  0 < sizeof_Map /\ 0 <= clipboard_buffers /\
  clipboard_buffers + NUM_CLIPBOARD_BUFFERS * sizeof_Map <= 2 ^ 63.

(** The address of a map object: an element of the array, or an object of
    the same size that lies apart from the array. *)
Definition MapPointer (p : Z) : Prop :=
  0 <= p /\ p + sizeof_Map <= 2 ^ 63 /\
  ((exists i, 0 <= i < NUM_CLIPBOARD_BUFFERS /\ p = element i) \/
   p + sizeof_Map <= clipboard_buffers \/
   clipboard_buffers + NUM_CLIPBOARD_BUFFERS * sizeof_Map <= p).

End Buffers.

End Clipboard.

(** ** Clipboard stations *)

Module ClipboardStations.

(** Modelled from the spec: the records of clipboard_type.h, which is not
    among the sources, with the fields that clipboard.cpp reads and writes.
    The [next] pointers of the stations are the order of a list: a
    [ClipboardStationList] is the list of the stations from its head, and
    [NULL] is the empty list. *)
Record StationSpecItem : Set := mkSpec { stat_class : Z; stat_type : Z }.

Record AirportPart : Set := mkAirport {
  airport_tile : RawTileIndex; airport_w : Z; airport_h : Z;
  airport_type : Z; airport_layout : Z }.

Record ClipboardStation : Set := mkStation {
  id : Z; airport : AirportPart; num_specs : Z; speclist : list StationSpecItem }.

Definition ClipboardStationList : Set := list ClipboardStation.

(** A station record whose spec count is the size of its spec array. *)
Definition specs_in_step (st : ClipboardStation) : Prop :=
  num_specs st = Z.of_nat (length (speclist st)).

Definition spec_eqb (s1 s2 : StationSpecItem) : bool :=
  (stat_class s1 =? stat_class s2) && (stat_type s1 =? stat_type s2).

(** A [byte]. *)
Definition to_byte (z : Z) : Z := z mod 2 ^ 8.

(** The write [array[i] = v] inside the bounds of the array. *)
Fixpoint write {A : Type} (l : list A) (i : nat) (v : A) : list A :=
  match l, i with
  | [], _ => []
  | _ :: r, O => v :: r
  | x :: r, S i' => x :: write r i' v
  end.

Section Stations.

(** Constants and tables that are declared outside the sources. *)
Variable INVALID_STATION : Z.
Variable AT_INVALID : Z.
Variable STAT_CLASS_DFLT : Z.
Variable STAT_CLASS_WAYP : Z.
Variable DIR_E : Z.
Variable DIR_W : Z.

(** What [AirportSpec::Get(type)] gives: the rotation of each layout and
    the two sizes. *)
Record AirportSpec : Type := mkAirportSpec {
  rotation : Z -> Z; spec_size_x : Z; spec_size_y : Z }.
Variable AirportSpec_Get : Z -> AirportSpec.

(** The content of an array cell that [ReallocT] added and nobody wrote. *)
Variable uninitialised : StationSpecItem.

(** The array [_clipboard_buffers], as in [Clipboard]. *)
Variable clipboard_buffers : Z.
Variable sizeof_Map : Z.

(** [ClipboardStation::ClipboardStation()] *)
Definition new_ClipboardStation : ClipboardStation :=
  mkStation INVALID_STATION (mkAirport INVALID_TILE_INDEX 0 0 AT_INVALID 0) 0 [].

(** [ClipboardStationsBuilder::FindStation(sid)].  The link that the source
    returns is the position in the list: that of the first station with
    this id, or the length of the list, where the link holds [NULL]. *)
Fixpoint FindStation (stations : ClipboardStationList) (sid : Z) : nat :=
  match stations with
  | [] => O
  | st :: rest => if id st =? sid then O else S (FindStation rest sid)
  end.

(** [ClipboardStationsBuilder::AddStation(sid)]: the list afterwards and the
    position of the station that the source returns. *)
Definition AddStation (stations : ClipboardStationList) (sid : Z)
  : ClipboardStationList * nat :=
  let st_link := FindStation stations sid in
  match nth_error stations st_link with
  | Some _ => (stations, st_link)
  | None =>
      let st := mkStation sid (airport new_ClipboardStation)
                          (num_specs new_ClipboardStation) (speclist new_ClipboardStation) in
      (firstn st_link stations ++ [st], st_link)
  end.

(** [ClipboardStationsBuilder::AddPart(sid)] *)
Definition AddPart (stations : ClipboardStationList) (sid : Z) : ClipboardStationList :=
  fst (AddStation stations sid).

(** [ReallocT(array, n)]: the first [n] cells are kept and new cells are
    not initialised. *)
Definition ReallocT (l : list StationSpecItem) (n : nat) : list StationSpecItem :=
  firstn n l ++ repeat uninitialised (n - length l).

(** The loop that writes the placeholders into the cells [i], ...,
    [i + count - 1]. *)
Fixpoint fill_placeholders (l : list StationSpecItem) (i count : nat)
  : list StationSpecItem :=
  match count with
  | O => l
  | S count' => fill_placeholders (write l i (mkSpec STAT_CLASS_DFLT 0)) (S i) count'
  end.

(** [ClipboardStationsBuilder::AddSpecToStation(st, station_class,
    station_type, specindex)].  [num_specs] is taken to be a byte, like
    [specindex]. *)
Definition AddSpecToStation (st : ClipboardStation) (station_class station_type specindex : Z)
  : option ClipboardStation :=
  assert! negb (specindex =? 0) ||
          ((station_type =? 0) &&
           ((station_class =? STAT_CLASS_DFLT) || (station_class =? STAT_CLASS_WAYP))) ;;
  if specindex >=? num_specs st then
    let l := ReallocT (speclist st) (Z.to_nat (specindex + 1)) in
    let l := fill_placeholders l (Z.to_nat (num_specs st))
                               (Z.to_nat (specindex - num_specs st)) in
    Some (mkStation (id st) (airport st) (to_byte (specindex + 1))
                    (write l (Z.to_nat specindex) (mkSpec station_class station_type)))
  else
    match nth_error (speclist st) (Z.to_nat specindex) with
    | None => None
    | Some cur =>
        assert! spec_eqb cur (mkSpec station_class station_type) ||
                spec_eqb cur (mkSpec STAT_CLASS_DFLT 0) ;;
        Some (mkStation (id st) (airport st) (num_specs st)
                        (write (speclist st) (Z.to_nat specindex)
                               (mkSpec station_class station_type)))
    end.

(** [ClipboardStationsBuilder::AddRailPart(sid, station_class,
    station_type, specindex)] *)
Definition AddRailPart (stations : ClipboardStationList)
    (sid station_class station_type specindex : Z) : option ClipboardStationList :=
  let '(stations', pos) := AddStation stations sid in
  match nth_error stations' pos with
  | None => None
  | Some st =>
      match AddSpecToStation st station_class station_type specindex with
      | None => None
      | Some st' => Some (write stations' pos st')
      end
  end.

(** [ClipboardStationsBuilder::AddAirportPart(sid, tile, type, layout)] *)
Definition AddAirportPart (stations : ClipboardStationList)
    (sid : Z) (tile : RawTileIndex) (type layout : Z) : option ClipboardStationList :=
  let '(stations', pos) := AddStation stations sid in
  match nth_error stations' pos with
  | None => None
  | Some st =>
      assert! airport_type (airport st) =? AT_INVALID ;;
      let spec := AirportSpec_Get type in
      let '(w, h) :=
        if negb (rotation spec layout =? DIR_E) && negb (rotation spec layout =? DIR_W)
        then (spec_size_x spec, spec_size_y spec)
        else (spec_size_y spec, spec_size_x spec) in
      Some (write stations' pos
              (mkStation (id st) (mkAirport tile w h type layout)
                         (num_specs st) (speclist st)))
  end.

(** The array [_clipboard_stations]: one list for each buffer index. *)
Definition StationLists : Set := Z -> ClipboardStationList.

(** [GetClipboardStationList(buffer)] *)
Definition GetClipboardStationList (lists : StationLists) (buffer : Z)
  : option ClipboardStationList :=
  match Clipboard.GetClipboardBufferIndex clipboard_buffers sizeof_Map buffer with
  | None => None
  | Some index =>
      assert! index <? Clipboard.NUM_CLIPBOARD_BUFFERS ;;
      Some (lists index)
  end.

(** [SetClipboardStationList(list, buffer)]: the list that was there is
    freed and the new one takes its place. *)
Definition SetClipboardStationList (lists : StationLists)
    (list : ClipboardStationList) (buffer : Z) : option StationLists :=
  match Clipboard.GetClipboardBufferIndex clipboard_buffers sizeof_Map buffer with
  | None => None
  | Some index =>
      assert! index <? Clipboard.NUM_CLIPBOARD_BUFFERS ;;
      Some (fun i => if i =? index then list else lists i)
  end.

(** [ClipboardStation::Get(id, buffer)]: the first station of the buffer's
    list with this id, or [NULL]. *)
Definition Get (lists : StationLists) (sid : Z) (buffer : Z)
  : option (option ClipboardStation) :=
  match GetClipboardStationList lists buffer with
  | None => None
  | Some stations => Some (find (fun st => id st =? sid) stations)
  end.

(** [ClipboardStationsBuilder::BuildDone(buffer)]: the lists afterwards and
    the builder's own list afterwards. *)
Definition BuildDone (lists : StationLists) (stations : ClipboardStationList) (buffer : Z)
  : option (StationLists * ClipboardStationList) :=
  match SetClipboardStationList lists stations buffer with
  | None => None
  | Some lists' => Some (lists', [])
  end.

End Stations.

End ClipboardStations.

Module CS := ClipboardStations.

(** ** Tile storage (tile_map.h) *)

Module TileMap.

(** Modelled from the spec: the bit-field helpers [GB] and [SB] of
    core/bitmath_func.hpp, which tile_map.h calls but does not define, on a
    byte: [GB x s n] reads the [n] bits of [x] from bit [s] on; [SB x s n d]
    clears these bits and ors [d], shifted by [s] and cut to a byte, in. *)
Definition GB (x s n : Z) : Z := Z.land (Z.shiftr x s) (2 ^ n - 1).

Definition SB (x s n d : Z) : Z :=
  Z.lor (Z.land x (ClipboardStations.to_byte (Z.lnot (Z.shiftl (2 ^ n - 1) s))))
        (ClipboardStations.to_byte (Z.shiftl d s)).

(** Modelled from the spec: the tile record of map_type.h, with the fields
    that tile_map.h reads and writes; all three are bytes. *)
Record Tile : Set := mkTileData { type : Z; height : Z; m1 : Z }.

(** The tile arrays of the maps: [GetTile(tile)] is the cell of the tile's
    map at the tile's index. *)
Definition TileMem : Set := Map -> Z -> Tile.

Definition GetTile (mem : TileMem) (tile : GenericTileIndex) : Tile :=
  mem (MapOf tile) (IndexOf tile).

(** A write through the pointer that [GetTile] returns. *)
Definition store (mem : TileMem) (tile : GenericTileIndex) (v : Tile) : TileMem :=
  fun m i => if Map_eqb m (MapOf tile) && (i =? IndexOf tile) then v else mem m i.

(** The cells hold bytes. *)
Definition bytes (v : Tile) : Prop :=
  0 <= type v < 256 /\ 0 <= height v < 256 /\ 0 <= m1 v < 256.

(** [TileHash(x, y)], on [uint]s *)
Definition TileHash (x y : Z) : Z :=
  let hash := Z.shiftr x 4 in
  let hash := Z.lxor hash (Z.shiftr x 6) in
  let hash := Z.lxor hash (Z.shiftr y 4) in
  to_uint (hash - Z.shiftr y 6).

(** [TileHash2Bit(x, y)] *)
Definition TileHash2Bit (x y : Z) : Z := GB (TileHash x y) 0 2.

(** The check of a property of bytes on all values below [n]. *)
Fixpoint all_below (n : nat) (p : Z -> bool) : bool :=
  match n with
  | O => true
  | S n' => p (Z.of_nat n') && all_below n' p
  end.

Section Accessors.

(** Constants, settings and predicates that are declared outside the
    sources. *)
Variable MP_VOID : Z.
Variable MP_HOUSE : Z.
Variable MP_INDUSTRY : Z.
Variable TROPICZONE_NORMAL : Z.
Variable MAX_TILE_HEIGHT : Z.
Variable TILE_HEIGHT : Z.
Variable freeform_edges : bool.
Variable IsMainMapTile : GenericTileIndex -> bool.
Variable main_map : Map.

(** Modelled from the spec: [MapMaxX] and [MapMaxY] of map_func.h, the
    largest coordinates of a map. *)
Definition MapMaxX (m : Map) : Z := MapSizeX m - 1.
Definition MapMaxY (m : Map) : Z := MapSizeY m - 1.

(** [TileHeight(tile)] *)
Definition TileHeight (mem : TileMem) (tile : GenericTileIndex) : option Z :=
  assert! IsValidTileIndex tile ;;
  Some (height (GetTile mem tile)).

(** [SetTileHeight(tile, height)] *)
Definition SetTileHeight (mem : TileMem) (tile : GenericTileIndex) (h : Z) : option TileMem :=
  assert! IsValidTileIndex tile ;;
  assert! h <=? MAX_TILE_HEIGHT ;;
  let v := GetTile mem tile in
  Some (store mem tile (mkTileData (type v) (ClipboardStations.to_byte h) (m1 v))).

(** [TilePixelHeight(tile)] *)
Definition TilePixelHeight (mem : TileMem) (tile : GenericTileIndex) : option Z :=
  match TileHeight mem tile with
  | None => None
  | Some h => Some (to_uint (h * TILE_HEIGHT))
  end.

(** [GetTileType(tile)] *)
Definition GetTileType (mem : TileMem) (tile : GenericTileIndex) : option Z :=
  assert! IsValidTileIndex tile ;;
  Some (GB (type (GetTile mem tile)) 4 4).

(** [IsInnerTile(tile)] *)
Definition IsInnerTile (tile : GenericTileIndex) : option bool :=
  assert! IsValidTileIndex tile ;;
  let x := TileX tile in
  let y := TileY tile in
  Some ((x <? MapMaxX (MapOf tile)) && (y <? MapMaxY (MapOf tile)) &&
        (((x >? 0) && (y >? 0)) || negb (IsMainMapTile tile) || negb freeform_edges)).

(** [SetTileType(tile, type)] *)
Definition SetTileType (mem : TileMem) (tile : GenericTileIndex) (ty : Z) : option TileMem :=
  assert! IsValidTileIndex tile ;;
  match IsInnerTile tile with
  | None => None
  | Some inner =>
      assert! Bool.eqb inner (negb (ty =? MP_VOID)) ;;
      let v := GetTile mem tile in
      Some (store mem tile (mkTileData (SB (type v) 4 4 ty) (height v) (m1 v)))
  end.

(** [IsTileType(tile, type)] *)
Definition IsTileType (mem : TileMem) (tile : GenericTileIndex) (ty : Z) : option bool :=
  match GetTileType mem tile with
  | None => None
  | Some t => Some (t =? ty)
  end.

(** [IsValidTile(tile)]: the second test is made only when the first
    holds. *)
Definition IsValidTile (mem : TileMem) (tile : GenericTileIndex) : option bool :=
  if IsValidTileIndex tile then
    match IsTileType mem tile MP_VOID with
    | None => None
    | Some void => Some (negb void)
    end
  else Some false.

(** The three assertions of [GetTileOwner] and [SetTileOwner]. *)
Definition owner_asserts (mem : TileMem) (tile : GenericTileIndex) : option unit :=
  match IsValidTile mem tile with
  | None => None
  | Some valid =>
      assert! valid ;;
      match IsTileType mem tile MP_HOUSE with
      | None => None
      | Some house =>
          assert! negb house ;;
          match IsTileType mem tile MP_INDUSTRY with
          | None => None
          | Some industry => assert (negb industry)
          end
      end
  end.

(** [GetTileOwner(tile)] *)
Definition GetTileOwner (mem : TileMem) (tile : GenericTileIndex) : option Z :=
  match owner_asserts mem tile with
  | None => None
  | Some _ => Some (GB (m1 (GetTile mem tile)) 0 5)
  end.

(** [SetTileOwner(tile, owner)] *)
Definition SetTileOwner (mem : TileMem) (tile : GenericTileIndex) (owner : Z)
  : option TileMem :=
  match owner_asserts mem tile with
  | None => None
  | Some _ =>
      let v := GetTile mem tile in
      Some (store mem tile (mkTileData (type v) (height v) (SB (m1 v) 0 5 owner)))
  end.

(** [IsTileOwner(tile, owner)] *)
Definition IsTileOwner (mem : TileMem) (tile : GenericTileIndex) (owner : Z) : option bool :=
  match GetTileOwner mem tile with
  | None => None
  | Some o => Some (o =? owner)
  end.

(** [SetTropicZone(tile, type)], on a tile index of the main map *)
Definition SetTropicZone (mem : TileMem) (tile : RawTileIndex) (zone : Z) : option TileMem :=
  assert! tile <? MapSize main_map ;;
  match IsTileType mem (mkTile tile main_map) MP_VOID with
  | None => None
  | Some void =>
      assert! negb void || (zone =? TROPICZONE_NORMAL) ;;
      let v := GetTile mem (mkTile tile main_map) in
      Some (store mem (mkTile tile main_map)
                  (mkTileData (SB (type v) 0 2 zone) (height v) (m1 v)))
  end.

(** [GetTropicZone(tile)], on a tile index of the main map *)
Definition GetTropicZone (mem : TileMem) (tile : RawTileIndex) : option Z :=
  assert! tile <? MapSize main_map ;;
  Some (GB (type (GetTile mem (mkTile tile main_map))) 0 2).

End Accessors.

End TileMap.

Module TM := TileMap.

(** ** Sample inputs *)

(** A map of 8 by 8 tiles, and a second one of 16 by 16. *)
Definition map8 : Map := mkMap 0 8 8.
Definition map16 : Map := mkMap 1 16 16.

(** A diagonal area on [map8] between the corners (1,5) and (4,3), and a
    one-wide strip between the corners (1,1) and (0,2). *)
Definition diag_area : DiagonalTileAreaT.t :=
  DiagonalTileAreaT.mk (TileXY 1 5 map8) 2 (-6).
Definition diag_strip : DiagonalTileAreaT.t :=
  DiagonalTileAreaT.mk (TileXY 1 1 map8) (-1) 3.

(** A transform type with the identity as its only element, and the
    coordinate offsets of the four diagonal directions with south-west
    along x and south-east along y. *)
Definition identity_TransformDiagDir
    (d : TransformationTileIteratorController.DiagDirection) (_ : unit)
  : TransformationTileIteratorController.DiagDirection := d.

Definition sample_TileIndexDiffCByDiagDir
    (d : TransformationTileIteratorController.DiagDirection)
  : TransformationTileIteratorController.TileIndexDiffC :=
  match d with
  | TransformationTileIteratorController.DIAGDIR_NE =>
      TransformationTileIteratorController.mkDiffC (-1) 0
  | TransformationTileIteratorController.DIAGDIR_SE =>
      TransformationTileIteratorController.mkDiffC 0 1
  | TransformationTileIteratorController.DIAGDIR_SW =>
      TransformationTileIteratorController.mkDiffC 1 0
  | TransformationTileIteratorController.DIAGDIR_NW =>
      TransformationTileIteratorController.mkDiffC 0 (-1)
  end.

(** Two orthogonal areas on [map8], the second inside the first, and a
    third that reaches past the east and south edges. *)
Definition area_outer : OrthogonalTileAreaT.t := OrthogonalTileAreaT.mk (TileXY 1 1 map8) 4 4.
Definition area_inner : OrthogonalTileAreaT.t := OrthogonalTileAreaT.mk (TileXY 2 2 map8) 2 3.
Definition area_over : OrthogonalTileAreaT.t := OrthogonalTileAreaT.mk (TileXY 5 6 map8) 9 7.

(** An airport table in which the rotation of a layout is the layout's
    number and the sizes depend on the type, and a station that has an
    airport and one default spec. *)
Definition sample_AirportSpec_Get (type : Z) : ClipboardStations.AirportSpec :=
  ClipboardStations.mkAirportSpec (fun layout => layout) (type + 2) 1.

Definition sample_station : ClipboardStations.ClipboardStation :=
  ClipboardStations.mkStation 7 (ClipboardStations.mkAirport 3 2 2 1 0) 1
    [ClipboardStations.mkSpec 0 0].

(** A tile storage in which every cell holds a tile of type 1 in zone 2,
    of height 3, owned by 5 with two of the upper bits of [m1] set. *)
Definition sample_mem : TileMap.TileMem := fun _ _ => TileMap.mkTileData 18 3 69.

(** * Properties *)

(** ** Machine integers and coordinates *)

Lemma to_uint_small (z : Z) : 0 <= z < 2 ^ 32 -> to_uint z = z.
Proof. intros H. unfold to_uint. now apply Z.mod_small. Qed.

Lemma to_uint16_small (z : Z) : 0 <= z < 2 ^ 16 -> to_uint16 z = z.
Proof. intros H. unfold to_uint16. now apply Z.mod_small. Qed.

Lemma to_int_to_uint (z : Z) : - 2 ^ 31 <= z < 2 ^ 31 -> to_int (to_uint z) = z.
Proof.
  intros H. unfold to_int, to_uint.
  rewrite Zplus_mod_idemp_l.
  rewrite Z.mod_small; lia.
Qed.

Lemma to_uint_neg (z : Z) : - 2 ^ 31 <= z < 0 -> to_uint z = z + 2 ^ 32.
Proof.
  intros H. unfold to_uint.
  replace z with (z + 2 ^ 32 + (-1) * 2 ^ 32) at 1 by ring.
  rewrite Z.mod_add by lia. apply Z.mod_small. lia.
Qed.

Lemma Map_eqb_eq (m1 m2 : Map) : Map_eqb m1 m2 = true <-> m1 = m2.
Proof.
  unfold Map_eqb. destruct m1, m2; cbn.
  rewrite !andb_true_iff, !Z.eqb_eq. split.
  - intros [[-> ->] ->]. reflexivity.
  - intros H. injection H as -> -> ->. auto.
Qed.

Lemma Map_eqb_refl (m : Map) : Map_eqb m m = true.
Proof. now apply Map_eqb_eq. Qed.

Lemma Map_eqb_sym (m1 m2 : Map) : Map_eqb m1 m2 = Map_eqb m2 m1.
Proof.
  unfold Map_eqb.
  now rewrite (Z.eqb_sym (map_id m1)), (Z.eqb_sym (size_x m1)), (Z.eqb_sym (size_y m1)).
Qed.

Lemma IsSameMap_eq (t1 t2 : GenericTileIndex) :
  IsSameMap t1 t2 = true -> map t1 = map t2.
Proof. unfold IsSameMap. apply Map_eqb_eq. Qed.

Lemma MapSize_bound (m : Map) : MapWF m -> 0 < MapSize m <= 2 ^ 28.
Proof.
  unfold MapWF, MapSize. intros [Hx Hy].
  change (2 ^ 28) with (2 ^ 14 * 2 ^ 14). nia.
Qed.

(** A valid index decomposes into coordinates on the map. *)
Lemma valid_coords (tl : GenericTileIndex) :
  MapWF (map tl) -> TileWF tl -> IsValidTileIndex tl = true ->
  0 <= TileX tl < size_x (map tl) /\ 0 <= TileY tl < size_y (map tl).
Proof.
  unfold MapWF, TileWF, IsValidTileIndex, MapSize, TileX, TileY, MapSizeX.
  intros [Hx Hy] Hi Hv. apply Z.ltb_lt in Hv. split.
  - apply Z.mod_pos_bound. lia.
  - split.
    + apply Z.div_pos; lia.
    + apply Z.div_lt_upper_bound; lia.
Qed.

(** Coordinates on the map compose into a valid index, and decompose
    again. *)
Lemma TileXY_index (x y : Z) (m : Map) :
  MapWF m -> 0 <= x < size_x m -> 0 <= y < size_y m ->
  index (TileXY x y m) = y * size_x m + x /\ 0 <= y * size_x m + x < MapSize m.
Proof.
  intros Hm Hx Hy. pose proof (MapSize_bound m Hm) as Hs.
  assert (0 <= y * size_x m + x < MapSize m) as Hr by (unfold MapSize in *; nia).
  split; [|exact Hr].
  unfold TileXY, MapSizeX; cbn. apply to_uint_small. lia.
Qed.

Lemma TileXY_valid (x y : Z) (m : Map) :
  MapWF m -> 0 <= x < size_x m -> 0 <= y < size_y m ->
  IsValidTileIndex (TileXY x y m) = true /\ TileWF (TileXY x y m).
Proof.
  intros Hm Hx Hy. destruct (TileXY_index x y m Hm Hx Hy) as [Hi Hr].
  pose proof (MapSize_bound m Hm).
  unfold IsValidTileIndex, TileWF. rewrite Hi. cbn. split; [apply Z.ltb_lt|]; lia.
Qed.

Lemma TileX_TileXY (x y : Z) (m : Map) :
  MapWF m -> 0 <= x < size_x m -> 0 <= y < size_y m -> TileX (TileXY x y m) = x.
Proof.
  intros Hm Hx Hy. destruct (TileXY_index x y m Hm Hx Hy) as [Hi _].
  unfold TileX. rewrite Hi. cbn. unfold MapSizeX.
  rewrite Z.add_comm, Z.mod_add by lia. apply Z.mod_small. lia.
Qed.

Lemma TileY_TileXY (x y : Z) (m : Map) :
  MapWF m -> 0 <= x < size_x m -> 0 <= y < size_y m -> TileY (TileXY x y m) = y.
Proof.
  intros Hm Hx Hy. destruct (TileXY_index x y m Hm Hx Hy) as [Hi _].
  unfold TileY. rewrite Hi. cbn. unfold MapSizeX.
  rewrite Z.add_comm, Z.div_add by lia. rewrite Z.div_small; lia.
Qed.

Lemma INVALID_not_valid (m : Map) :
  MapWF m -> IsValidTileIndex (mkTile INVALID_TILE_INDEX m) = false.
Proof.
  intros Hm. pose proof (MapSize_bound m Hm).
  unfold IsValidTileIndex, INVALID_TILE_INDEX. cbn. apply Z.ltb_ge. lia.
Qed.

Lemma IsInsideBS_spec (x base size : Z) :
  0 <= base < 2 ^ 31 -> 0 <= x < 2 ^ 31 -> 0 <= size < 2 ^ 31 ->
  IsInsideBS x base size = true <-> base <= x < base + size.
Proof.
  intros Hb Hx Hs. unfold IsInsideBS. rewrite Z.ltb_lt.
  destruct (Z_lt_le_dec x base) as [Hlt | Hge].
  - rewrite to_uint_neg by lia. lia.
  - rewrite to_uint_small by lia. lia.
Qed.

(** ** Orthogonal areas *)

Lemma dim_small (d : Z) : 0 <= d < 2 ^ 14 -> to_uint16 (to_uint (d + 1)) = d + 1.
Proof.
  intros H. rewrite to_uint_small by lia. apply to_uint16_small. lia.
Qed.

(** The constructor in closed form. *)
Lemma Orthogonal_Construct_eq (s e : GenericTileIndex) :
  MapWF (MapOf s) -> TileWF s -> TileWF e ->
  IsSameMap s e = true -> IsValidTileIndex s = true -> IsValidTileIndex e = true ->
  OrthogonalTileAreaT.Construct s e =
  Some (OrthogonalTileAreaT.mk
          (TileXY (Z.min (TileX s) (TileX e)) (Z.min (TileY s) (TileY e)) (MapOf s))
          (Z.abs (TileX s - TileX e) + 1) (Z.abs (TileY s - TileY e) + 1)).
Proof.
  intros Hm Hws Hwe Hsame Hvs Hve. unfold MapOf in *.
  pose proof (IsSameMap_eq _ _ Hsame) as Hmap.
  pose proof (valid_coords s Hm Hws Hvs) as [Hsx Hsy].
  assert (MapWF (map e)) as Hme by (rewrite <- Hmap; exact Hm).
  pose proof (valid_coords e Hme Hwe Hve) as [Hex Hey]. rewrite <- Hmap in Hex, Hey.
  destruct Hm as [Hmx Hmy].
  unfold OrthogonalTileAreaT.Construct. rewrite Hsame, Hvs, Hve. cbn [assert].
  destruct (Z.gtb_spec (TileX s) (TileX e)) as [Hx | Hx];
    destruct (Z.gtb_spec (TileY s) (TileY e)) as [Hy | Hy];
    unfold MapOf; f_equal; f_equal;
    try (f_equal; lia);
    match goal with
    | |- to_uint16 (to_uint (?d + 1)) = _ => rewrite (dim_small d) by lia; lia
    end.
Qed.

(** The tile test in closed form, for an area that lies on its map. *)
Lemma Orthogonal_Contains_eq (x0 y0 w h : Z) (m : Map) (tl : GenericTileIndex) :
  MapWF m -> 0 <= x0 < size_x m -> 0 <= y0 < size_y m ->
  1 <= w < 2 ^ 15 -> 1 <= h < 2 ^ 15 ->
  TileWF tl -> map tl = m -> IsValidTileIndex tl = true ->
  OrthogonalTileAreaT.Contains (OrthogonalTileAreaT.mk (TileXY x0 y0 m) w h) tl =
  Some ((x0 <=? TileX tl) && (TileX tl <? x0 + w) &&
        ((y0 <=? TileY tl) && (TileY tl <? y0 + h))).
Proof.
  intros Hm Hx0 Hy0 Hw Hh Hwt Hmap Hv. subst m.
  pose proof (valid_coords tl Hm Hwt Hv) as [Htx Hty].
  unfold OrthogonalTileAreaT.Contains.
  cbn [OrthogonalTileAreaT.w OrthogonalTileAreaT.h OrthogonalTileAreaT.tile].
  destruct (Z.eqb_spec w 0) as [? | _]; [lia|].
  destruct (Z.eqb_spec h 0) as [? | _]; [lia|].
  cbn [negb andb assert].
  unfold IsSameMap. cbn [map TileXY]. rewrite Map_eqb_refl. cbn [assert].
  rewrite TileX_TileXY, TileY_TileXY by assumption.
  destruct Hm as [Hmx Hmy].
  f_equal. apply eq_true_iff_eq.
  rewrite !andb_true_iff, !Z.leb_le, !Z.ltb_lt.
  rewrite !IsInsideBS_spec by lia. lia.
Qed.

(** C5.  For valid corner tiles [s] and [e] on one map, the constructor
    returns an area that contains [s] and [e], whose width and height are
    [|s.x - e.x| + 1] and [|s.y - e.y| + 1], whose origin is the
    minimum-x, minimum-y corner, and which is the same when the corners
    are given in the other order. *)
Theorem Orthogonal_Construct_corners (s e : GenericTileIndex) :
  MapWF (MapOf s) -> TileWF s -> TileWF e ->
  IsSameMap s e = true -> IsValidTileIndex s = true -> IsValidTileIndex e = true ->
  exists A,
    OrthogonalTileAreaT.Construct s e = Some A /\
    OrthogonalTileAreaT.Contains A s = Some true /\
    OrthogonalTileAreaT.Contains A e = Some true /\
    OrthogonalTileAreaT.w A = Z.abs (TileX s - TileX e) + 1 /\
    OrthogonalTileAreaT.h A = Z.abs (TileY s - TileY e) + 1 /\
    OrthogonalTileAreaT.tile A =
      TileXY (Z.min (TileX s) (TileX e)) (Z.min (TileY s) (TileY e)) (MapOf s) /\
    OrthogonalTileAreaT.Construct e s = Some A.
Proof.
  intros Hm Hws Hwe Hsame Hvs Hve.
  pose proof (IsSameMap_eq _ _ Hsame) as Hmap.
  pose proof (valid_coords s Hm Hws Hvs) as [Hsx Hsy].
  assert (MapWF (MapOf e)) as Hme by (unfold MapOf in *; rewrite <- Hmap; exact Hm).
  pose proof (valid_coords e Hme Hwe Hve) as [Hex Hey].
  unfold MapOf in *. rewrite <- Hmap in Hex, Hey.
  assert (IsSameMap e s = true) as Hsame'
    by (unfold IsSameMap in *; now rewrite Map_eqb_sym).
  eexists. split; [apply Orthogonal_Construct_eq; assumption|].
  pose proof Hm as [Hmx Hmy].
  repeat split;
    cbn [OrthogonalTileAreaT.w OrthogonalTileAreaT.h OrthogonalTileAreaT.tile];
    unfold MapOf.
  - rewrite Orthogonal_Contains_eq; try assumption; try lia; try reflexivity.
    f_equal. rewrite !andb_true_iff, !Z.leb_le, !Z.ltb_lt. lia.
  - rewrite Orthogonal_Contains_eq; try assumption; try lia; try (symmetry; assumption).
    f_equal. rewrite !andb_true_iff, !Z.leb_le, !Z.ltb_lt. lia.
  - rewrite (Orthogonal_Construct_eq e s); try assumption.
    unfold MapOf. rewrite <- Hmap.
    rewrite (Z.min_comm (TileX e)), (Z.min_comm (TileY e)).
    replace (Z.abs (TileX e - TileX s)) with (Z.abs (TileX s - TileX e)) by lia.
    replace (Z.abs (TileY e - TileY s)) with (Z.abs (TileY s - TileY e)) by lia.
    reflexivity.
Qed.

Lemma Orthogonal_Construct_corners_witness :
  exists A,
    OrthogonalTileAreaT.Construct (TileXY 5 3 map8) (TileXY 2 3 map8) = Some A /\
    OrthogonalTileAreaT.Contains A (TileXY 5 3 map8) = Some true /\
    OrthogonalTileAreaT.Contains A (TileXY 2 3 map8) = Some true /\
    OrthogonalTileAreaT.w A = 4 /\
    OrthogonalTileAreaT.h A = 1 /\
    OrthogonalTileAreaT.tile A = TileXY 2 3 map8 /\
    OrthogonalTileAreaT.Construct (TileXY 2 3 map8) (TileXY 5 3 map8) = Some A.
Proof.
  apply (Orthogonal_Construct_corners (TileXY 5 3 map8) (TileXY 2 3 map8));
    vm_compute; try reflexivity; repeat split; discriminate.
Defined.

(** C4, as stated, fails: [Add] does not look at the width to decide that
    the area is empty.  On the area with origin (0,0), width 0 and height
    0, whose origin is a valid tile, adding (4,4) leaves the area as it
    was instead of making it the 1x1 area at (4,4). *)
Lemma Add_on_zero_width_area_counterexample :
  OrthogonalTileAreaT.Add (TileXY 4 4 map8)
    (OrthogonalTileAreaT.mk (TileXY 0 0 map8) 0 0)
  = OrthogonalTileAreaT.mk (TileXY 0 0 map8) 0 0 /\
  OrthogonalTileAreaT.Add (TileXY 4 4 map8)
    (OrthogonalTileAreaT.mk (TileXY 0 0 map8) 0 0)
  <> OrthogonalTileAreaT.mk (TileXY 4 4 map8) 1 1.
Proof.
  split.
  - vm_compute. reflexivity.
  - vm_compute. discriminate.
Qed.

(** C4, amended.  [Add] on an area whose origin is not a valid tile index
    (the empty area's origin is [INVALID_TILE_INDEX]) makes it the 1x1
    area at the added tile; starting from the area with origin
    [INVALID_TILE_INDEX], width 0 and height 0, adding (4,4) gives origin
    (4,4), width 1 and height 1, and then adding (2,6) gives origin (2,4),
    width 3 and height 3. *)
Theorem Add_on_invalid_origin :
  (forall (ta : OrthogonalTileAreaT.t) (tl : GenericTileIndex),
      IsValidTileIndex (OrthogonalTileAreaT.tile ta) = false ->
      OrthogonalTileAreaT.Add tl ta = OrthogonalTileAreaT.mk tl 1 1) /\
  (forall m : Map,
      MapWF m -> 6 < size_x m -> 6 < size_y m ->
      OrthogonalTileAreaT.Add (TileXY 4 4 m)
        (OrthogonalTileAreaT.mk (mkTile INVALID_TILE_INDEX m) 0 0)
      = OrthogonalTileAreaT.mk (TileXY 4 4 m) 1 1 /\
      OrthogonalTileAreaT.Add (TileXY 2 6 m) (OrthogonalTileAreaT.mk (TileXY 4 4 m) 1 1)
      = OrthogonalTileAreaT.mk (TileXY 2 4 m) 3 3).
Proof.
  split.
  - intros ta tl Hinv. unfold OrthogonalTileAreaT.Add. now rewrite Hinv.
  - intros m Hm Hx Hy. split.
    + unfold OrthogonalTileAreaT.Add. cbn [OrthogonalTileAreaT.tile].
      now rewrite INVALID_not_valid.
    + unfold OrthogonalTileAreaT.Add.
      cbn [OrthogonalTileAreaT.tile OrthogonalTileAreaT.w OrthogonalTileAreaT.h].
      destruct (TileXY_valid 4 4 m Hm) as [Hv _]; [lia | lia |]. rewrite Hv. cbn [negb].
      rewrite !TileX_TileXY, !TileY_TileXY by (assumption || lia).
      unfold MapOf. cbn [map TileXY].
      rewrite (to_uint_small (4 + 1 - 1)) by lia.
      replace (Z.min 2 4) with 2 by reflexivity.
      replace (Z.min 6 4) with 4 by reflexivity.
      replace (Z.max 2 (4 + 1 - 1)) with 4 by reflexivity.
      replace (Z.max 6 (4 + 1 - 1)) with 6 by reflexivity.
      reflexivity.
Qed.

Lemma Add_on_invalid_origin_witness :
  OrthogonalTileAreaT.Add (TileXY 1 2 map8)
    (OrthogonalTileAreaT.mk (mkTile 64 map8) 3 2)
  = OrthogonalTileAreaT.mk (TileXY 1 2 map8) 1 1 /\
  (OrthogonalTileAreaT.Add (TileXY 4 4 map8)
     (OrthogonalTileAreaT.mk (mkTile INVALID_TILE_INDEX map8) 0 0)
   = OrthogonalTileAreaT.mk (TileXY 4 4 map8) 1 1 /\
   OrthogonalTileAreaT.Add (TileXY 2 6 map8) (OrthogonalTileAreaT.mk (TileXY 4 4 map8) 1 1)
   = OrthogonalTileAreaT.mk (TileXY 2 4 map8) 3 3).
Proof.
  split.
  - apply (proj1 Add_on_invalid_origin). vm_compute. reflexivity.
  - apply (proj2 Add_on_invalid_origin map8);
      vm_compute; repeat split; try reflexivity; discriminate.
Defined.

(** The bounds of an area whose origin is a valid tile: the right and
    bottom edges do not wrap around. *)
Lemma Orthogonal_edges (B : OrthogonalTileAreaT.t) :
  MapWF (MapOf (OrthogonalTileAreaT.tile B)) -> OrthogonalTileAreaT.WF B ->
  IsValidTileIndex (OrthogonalTileAreaT.tile B) = true ->
  OrthogonalTileAreaT.w B <> 0 -> OrthogonalTileAreaT.h B <> 0 ->
  TileX (OrthogonalTileAreaT.tile B)
    <= to_uint (TileX (OrthogonalTileAreaT.tile B) + OrthogonalTileAreaT.w B - 1) /\
  TileY (OrthogonalTileAreaT.tile B)
    <= to_uint (TileY (OrthogonalTileAreaT.tile B) + OrthogonalTileAreaT.h B - 1).
Proof.
  intros Hm (Hwt & Hw & Hh) Hv Hw0 Hh0. unfold MapOf in Hm.
  pose proof (valid_coords _ Hm Hwt Hv) as [Hx Hy].
  destruct Hm as [Hmx Hmy].
  rewrite !to_uint_small by lia. lia.
Qed.

(** C7.  [Intersects] is symmetric; an area that contains another
    non-empty area intersects it; and when either area has width 0,
    neither [Intersects] nor [Contains] holds, in either direction, and an
    area of width 0 contains no tile. *)
Theorem Orthogonal_Intersects_Contains_laws (A B : OrthogonalTileAreaT.t) :
  OrthogonalTileAreaT.Intersects A B = OrthogonalTileAreaT.Intersects B A /\
  (MapWF (MapOf (OrthogonalTileAreaT.tile B)) -> OrthogonalTileAreaT.WF B ->
   IsValidTileIndex (OrthogonalTileAreaT.tile B) = true ->
   OrthogonalTileAreaT.w A <> 0 -> OrthogonalTileAreaT.w B <> 0 ->
   OrthogonalTileAreaT.ContainsArea A B = Some true ->
   OrthogonalTileAreaT.Intersects A B = Some true) /\
  (OrthogonalTileAreaT.w A = 0 \/ OrthogonalTileAreaT.w B = 0 ->
   OrthogonalTileAreaT.Intersects A B = Some false /\
   OrthogonalTileAreaT.Intersects B A = Some false /\
   OrthogonalTileAreaT.ContainsArea A B = Some false /\
   OrthogonalTileAreaT.ContainsArea B A = Some false) /\
  (OrthogonalTileAreaT.w A = 0 ->
   forall tl, OrthogonalTileAreaT.Contains A tl = Some false).
Proof.
  repeat split.
  - unfold OrthogonalTileAreaT.Intersects.
    rewrite (orb_comm (OrthogonalTileAreaT.w B =? 0)).
    destruct ((OrthogonalTileAreaT.w A =? 0) || (OrthogonalTileAreaT.w B =? 0)); [reflexivity|].
    replace (negb (OrthogonalTileAreaT.w A =? 0) && negb (OrthogonalTileAreaT.h A =? 0) &&
             negb (OrthogonalTileAreaT.w B =? 0) && negb (OrthogonalTileAreaT.h B =? 0))
      with (negb (OrthogonalTileAreaT.w B =? 0) && negb (OrthogonalTileAreaT.h B =? 0) &&
            negb (OrthogonalTileAreaT.w A =? 0) && negb (OrthogonalTileAreaT.h A =? 0))
      by (destruct (OrthogonalTileAreaT.w A =? 0), (OrthogonalTileAreaT.h A =? 0),
                   (OrthogonalTileAreaT.w B =? 0), (OrthogonalTileAreaT.h B =? 0); reflexivity).
    destruct (assert _); [|reflexivity].
    unfold IsSameMap. rewrite (Map_eqb_sym (map (OrthogonalTileAreaT.tile B))).
    destruct (assert _); [|reflexivity].
    f_equal. apply eq_true_iff_eq.
    rewrite !negb_true_iff, !orb_false_iff, !Z.gtb_ltb, !Z.ltb_ge. lia.
  - intros Hm HwfB Hv HwA HwB.
    unfold OrthogonalTileAreaT.ContainsArea, OrthogonalTileAreaT.Intersects.
    destruct ((OrthogonalTileAreaT.w B =? 0) || (OrthogonalTileAreaT.w A =? 0));
      [discriminate|].
    destruct (negb (OrthogonalTileAreaT.w B =? 0) && negb (OrthogonalTileAreaT.h B =? 0) &&
              negb (OrthogonalTileAreaT.w A =? 0) && negb (OrthogonalTileAreaT.h A =? 0)) eqn:Hne;
      cbn [assert]; [|discriminate].
    destruct (IsSameMap _ _); cbn [assert]; [|discriminate].
    rewrite !andb_true_iff, !negb_true_iff, !Z.eqb_neq in Hne.
    destruct Hne as [[[_ HhB] _] _].
    pose proof (Orthogonal_edges B Hm HwfB Hv HwB HhB) as [Hl Ht].
    intros Hc. injection Hc as Hc.
    rewrite !andb_true_iff, !Z.geb_le, !Z.leb_le in Hc.
    f_equal. rewrite negb_true_iff, !orb_false_iff, !Z.gtb_ltb, !Z.ltb_ge. lia.
  - unfold OrthogonalTileAreaT.Intersects.
    destruct H as [-> | ->]; cbn; now rewrite ?orb_true_r.
  - unfold OrthogonalTileAreaT.Intersects.
    destruct H as [-> | ->]; cbn; now rewrite ?orb_true_r.
  - unfold OrthogonalTileAreaT.ContainsArea.
    destruct H as [-> | ->]; cbn; now rewrite ?orb_true_r.
  - unfold OrthogonalTileAreaT.ContainsArea.
    destruct H as [-> | ->]; cbn; now rewrite ?orb_true_r.
  - intros HwA tl. unfold OrthogonalTileAreaT.Contains. now rewrite HwA.
Qed.

Lemma Orthogonal_Intersects_Contains_laws_witness :
  OrthogonalTileAreaT.Intersects
    (OrthogonalTileAreaT.mk (TileXY 1 1 map8) 4 4)
    (OrthogonalTileAreaT.mk (TileXY 2 2 map8) 2 3) = Some true /\
  (OrthogonalTileAreaT.Intersects
     (OrthogonalTileAreaT.mk (TileXY 1 1 map8) 0 4)
     (OrthogonalTileAreaT.mk (TileXY 2 2 map8) 2 3) = Some false /\
   OrthogonalTileAreaT.Intersects
     (OrthogonalTileAreaT.mk (TileXY 2 2 map8) 2 3)
     (OrthogonalTileAreaT.mk (TileXY 1 1 map8) 0 4) = Some false /\
   OrthogonalTileAreaT.ContainsArea
     (OrthogonalTileAreaT.mk (TileXY 1 1 map8) 0 4)
     (OrthogonalTileAreaT.mk (TileXY 2 2 map8) 2 3) = Some false /\
   OrthogonalTileAreaT.ContainsArea
     (OrthogonalTileAreaT.mk (TileXY 2 2 map8) 2 3)
     (OrthogonalTileAreaT.mk (TileXY 1 1 map8) 0 4) = Some false) /\
  OrthogonalTileAreaT.Contains
    (OrthogonalTileAreaT.mk (TileXY 1 1 map8) 0 4) (TileXY 1 1 map8) = Some false.
Proof.
  split; [|split].
  - apply (proj1 (proj2 (Orthogonal_Intersects_Contains_laws
                           (OrthogonalTileAreaT.mk (TileXY 1 1 map8) 4 4)
                           (OrthogonalTileAreaT.mk (TileXY 2 2 map8) 2 3))));
      vm_compute; repeat split; try reflexivity; discriminate.
  - apply (proj1 (proj2 (proj2 (Orthogonal_Intersects_Contains_laws
                                  (OrthogonalTileAreaT.mk (TileXY 1 1 map8) 0 4)
                                  (OrthogonalTileAreaT.mk (TileXY 2 2 map8) 2 3))))).
    left. reflexivity.
  - apply (proj2 (proj2 (proj2 (Orthogonal_Intersects_Contains_laws
                                  (OrthogonalTileAreaT.mk (TileXY 1 1 map8) 0 4)
                                  (OrthogonalTileAreaT.mk (TileXY 2 2 map8) 2 3))))).
    reflexivity.
Defined.

(** ** Diagonal areas *)

(** On a valid tile the rotated coordinates are the plain sum and
    difference of the coordinates. *)
Lemma rot_valid (tl : GenericTileIndex) :
  MapWF (map tl) -> TileWF tl -> IsValidTileIndex tl = true ->
  DiagonalTileAreaT.rot_a tl = TileY tl + TileX tl /\
  DiagonalTileAreaT.rot_b tl = TileY tl - TileX tl.
Proof.
  intros Hm Hw Hv. pose proof (valid_coords tl Hm Hw Hv) as [Hx Hy].
  destruct Hm as [Hmx Hmy].
  unfold DiagonalTileAreaT.rot_a, DiagonalTileAreaT.rot_b.
  rewrite !to_int_to_uint by lia. split; reflexivity.
Qed.

Lemma swap_range_spec (origin extent : Z) :
  DiagonalTileAreaT.swap_range origin (origin + extent) =
  DiagonalTileAreaT.spec_range origin extent.
Proof.
  unfold DiagonalTileAreaT.swap_range, DiagonalTileAreaT.spec_range.
  destruct (Z.gtb_spec origin (origin + extent)), (Z.ltb_spec extent 0);
    try lia; reflexivity.
Qed.

Lemma in_spec_range (v origin extent : Z) :
  DiagonalTileAreaT.in_range v (DiagonalTileAreaT.spec_range origin extent) <->
  (0 <= v - origin < extent \/ extent < v - origin <= 0).
Proof.
  unfold DiagonalTileAreaT.in_range, DiagonalTileAreaT.spec_range.
  destruct (Z.ltb_spec extent 0); cbn [fst snd]; lia.
Qed.

(** The constructor in closed form. *)
Lemma Diagonal_Construct_eq (s e : GenericTileIndex) :
  MapWF (MapOf s) -> TileWF s -> TileWF e ->
  IsSameMap s e = true -> IsValidTileIndex s = true -> IsValidTileIndex e = true ->
  let da := (TileY e + TileX e) - (TileY s + TileX s) in
  let db := (TileY e - TileX e) - (TileY s - TileX s) in
  DiagonalTileAreaT.Construct s e =
  Some (DiagonalTileAreaT.mk s (if da >? 0 then da + 1 else da - 1)
                               (if db >? 0 then db + 1 else db - 1)) /\
  - 2 ^ 15 < da < 2 ^ 15 /\ - 2 ^ 15 < db < 2 ^ 15.
Proof.
  intros Hm Hws Hwe Hsame Hvs Hve da db. unfold MapOf in *.
  pose proof (IsSameMap_eq _ _ Hsame) as Hmap.
  pose proof (valid_coords s Hm Hws Hvs) as [Hsx Hsy].
  assert (MapWF (map e)) as Hme by (rewrite <- Hmap; exact Hm).
  pose proof (valid_coords e Hme Hwe Hve) as [Hex Hey]. rewrite <- Hmap in Hex, Hey.
  destruct Hm as [Hmx Hmy].
  assert (- 2 ^ 15 < da < 2 ^ 15 /\ - 2 ^ 15 < db < 2 ^ 15) as Hr by (subst da db; lia).
  split; [|exact Hr].
  unfold DiagonalTileAreaT.Construct. rewrite Hsame, Hvs, Hve. cbn [assert].
  replace (TileY e + TileX e - TileY s - TileX s) with da by (subst da; ring).
  replace (TileY e - TileX e - TileY s + TileX s) with db by (subst db; ring).
  rewrite !to_int_to_uint by lia. reflexivity.
Qed.

(** The tile test against the specification's ranges. *)
Lemma Diagonal_Contains_iff (ta : DiagonalTileAreaT.t) (tl : GenericTileIndex) :
  MapWF (MapOf (DiagonalTileAreaT.tile ta)) ->
  TileWF (DiagonalTileAreaT.tile ta) -> TileWF tl ->
  IsValidTileIndex (DiagonalTileAreaT.tile ta) = true -> IsValidTileIndex tl = true ->
  IsSameMap (DiagonalTileAreaT.tile ta) tl = true ->
  exists r, DiagonalTileAreaT.Contains ta tl = Some r /\
    (r = true <->
     DiagonalTileAreaT.in_range (TileY tl + TileX tl)
       (DiagonalTileAreaT.spec_range
          (TileY (DiagonalTileAreaT.tile ta) + TileX (DiagonalTileAreaT.tile ta))
          (DiagonalTileAreaT.a ta)) /\
     DiagonalTileAreaT.in_range (TileY tl - TileX tl)
       (DiagonalTileAreaT.spec_range
          (TileY (DiagonalTileAreaT.tile ta) - TileX (DiagonalTileAreaT.tile ta))
          (DiagonalTileAreaT.b ta))).
Proof.
  intros Hm Hwo Hwt Hvo Hvt Hsame. unfold MapOf in Hm.
  pose proof (IsSameMap_eq _ _ Hsame) as Hmap.
  assert (MapWF (map tl)) as Hmt by (rewrite <- Hmap; exact Hm).
  destruct (rot_valid _ Hm Hwo Hvo) as [Hoa Hob].
  destruct (rot_valid _ Hmt Hwt Hvt) as [Hta Htb].
  unfold DiagonalTileAreaT.Contains. rewrite Hsame. cbn [assert].
  rewrite Hoa, Hob, Hta, Htb, !swap_range_spec.
  unfold DiagonalTileAreaT.in_range.
  destruct (DiagonalTileAreaT.spec_range _ (DiagonalTileAreaT.a ta)) as [sa ea].
  destruct (DiagonalTileAreaT.spec_range _ (DiagonalTileAreaT.b ta)) as [sb eb].
  eexists. split; [reflexivity|]. cbn [fst snd].
  rewrite !andb_true_iff, !Z.geb_le, !Z.ltb_lt. lia.
Qed.

(** C2.  For valid corner tiles on one map the constructor keeps [start]
    as the origin and stores, for each rotated axis, the difference of the
    corners' rotated coordinates moved by one away from zero according to
    its own sign: plus one when strictly positive, minus one otherwise. *)
Theorem Diagonal_Construct_extents (s e : GenericTileIndex) :
  MapWF (MapOf s) -> TileWF s -> TileWF e ->
  IsSameMap s e = true -> IsValidTileIndex s = true -> IsValidTileIndex e = true ->
  let da := (TileY e + TileX e) - (TileY s + TileX s) in
  let db := (TileY e - TileX e) - (TileY s - TileX s) in
  exists ta,
    DiagonalTileAreaT.Construct s e = Some ta /\
    DiagonalTileAreaT.tile ta = s /\
    DiagonalTileAreaT.a ta = (if 0 <? da then da + 1 else da - 1) /\
    DiagonalTileAreaT.b ta = (if 0 <? db then db + 1 else db - 1) /\
    Z.abs (DiagonalTileAreaT.a ta) = Z.abs da + 1 /\
    Z.abs (DiagonalTileAreaT.b ta) = Z.abs db + 1.
Proof.
  intros Hm Hws Hwe Hsame Hvs Hve da db.
  destruct (Diagonal_Construct_eq s e Hm Hws Hwe Hsame Hvs Hve) as [Hc _].
  cbv zeta in Hc. fold da db in Hc.
  eexists. split; [exact Hc|].
  cbn [DiagonalTileAreaT.tile DiagonalTileAreaT.a DiagonalTileAreaT.b].
  rewrite !Z.gtb_ltb.
  destruct (Z.ltb_spec 0 da), (Z.ltb_spec 0 db); repeat split; lia.
Qed.

Lemma Diagonal_Construct_extents_witness :
  exists ta,
    DiagonalTileAreaT.Construct (TileXY 1 5 map8) (TileXY 4 3 map8) = Some ta /\
    DiagonalTileAreaT.tile ta = TileXY 1 5 map8 /\
    DiagonalTileAreaT.a ta = 2 /\
    DiagonalTileAreaT.b ta = -6 /\
    Z.abs (DiagonalTileAreaT.a ta) = 2 /\
    Z.abs (DiagonalTileAreaT.b ta) = 6.
Proof.
  apply (Diagonal_Construct_extents (TileXY 1 5 map8) (TileXY 4 3 map8));
    vm_compute; repeat split; try reflexivity; discriminate.
Defined.

(** C3.  For an area and a tile on the same map, [Contains] returns, and
    returns true exactly when the tile's rotated sum [y + x] lies in the
    half-open range of the first axis and its rotated difference [y - x] in
    that of the second; the range of an axis goes from the origin's rotated
    coordinate to that plus the extent, and is swapped with one added on
    both sides when the start is greater than the end. *)
Theorem Diagonal_Contains_ranges (ta : DiagonalTileAreaT.t) (tl : GenericTileIndex) :
  MapWF (MapOf (DiagonalTileAreaT.tile ta)) ->
  TileWF (DiagonalTileAreaT.tile ta) -> TileWF tl ->
  IsValidTileIndex (DiagonalTileAreaT.tile ta) = true -> IsValidTileIndex tl = true ->
  IsSameMap (DiagonalTileAreaT.tile ta) tl = true ->
  let oa := TileY (DiagonalTileAreaT.tile ta) + TileX (DiagonalTileAreaT.tile ta) in
  let ob := TileY (DiagonalTileAreaT.tile ta) - TileX (DiagonalTileAreaT.tile ta) in
  let range_a :=
    if oa >? oa + DiagonalTileAreaT.a ta
    then (oa + DiagonalTileAreaT.a ta + 1, oa + 1) else (oa, oa + DiagonalTileAreaT.a ta) in
  let range_b :=
    if ob >? ob + DiagonalTileAreaT.b ta
    then (ob + DiagonalTileAreaT.b ta + 1, ob + 1) else (ob, ob + DiagonalTileAreaT.b ta) in
  exists r, DiagonalTileAreaT.Contains ta tl = Some r /\
    (r = true <->
     (fst range_a <= TileY tl + TileX tl < snd range_a /\
      fst range_b <= TileY tl - TileX tl < snd range_b)).
Proof.
  intros Hm Hwo Hwt Hvo Hvt Hsame oa ob range_a range_b.
  destruct (Diagonal_Contains_iff ta tl Hm Hwo Hwt Hvo Hvt Hsame) as (r & Hr & Hiff).
  exists r. split; [exact Hr|]. rewrite Hiff.
  fold oa ob.
  rewrite <- !swap_range_spec. unfold DiagonalTileAreaT.in_range, DiagonalTileAreaT.swap_range.
  subst range_a range_b. reflexivity.
Qed.

Lemma Diagonal_Contains_ranges_witness :
  exists r,
    DiagonalTileAreaT.Contains (DiagonalTileAreaT.mk (TileXY 1 5 map8) 2 (-6))
                               (TileXY 3 4 map8) = Some r /\
    (r = true <-> (6 <= 7 < 8 /\ -1 <= 1 < 5)).
Proof.
  apply (Diagonal_Contains_ranges (DiagonalTileAreaT.mk (TileXY 1 5 map8) 2 (-6))
                                  (TileXY 3 4 map8));
    vm_compute; repeat split; try reflexivity; discriminate.
Defined.

(** C9.  For valid corner tiles on one map, the constructed diagonal area
    contains both corners, and neither extent is zero: a rotated
    difference of 0 is stored as -1. *)
Theorem Diagonal_Construct_contains_corners (s e : GenericTileIndex) :
  MapWF (MapOf s) -> TileWF s -> TileWF e ->
  IsSameMap s e = true -> IsValidTileIndex s = true -> IsValidTileIndex e = true ->
  exists ta,
    DiagonalTileAreaT.Construct s e = Some ta /\
    DiagonalTileAreaT.Contains ta s = Some true /\
    DiagonalTileAreaT.Contains ta e = Some true /\
    DiagonalTileAreaT.a ta <> 0 /\ DiagonalTileAreaT.b ta <> 0 /\
    (TileY e + TileX e = TileY s + TileX s -> DiagonalTileAreaT.a ta = -1) /\
    (TileY e - TileX e = TileY s - TileX s -> DiagonalTileAreaT.b ta = -1).
Proof.
  intros Hm Hws Hwe Hsame Hvs Hve.
  destruct (Diagonal_Construct_eq s e Hm Hws Hwe Hsame Hvs Hve) as [Hc _].
  cbv zeta in Hc.
  set (da := (TileY e + TileX e) - (TileY s + TileX s)) in *.
  set (db := (TileY e - TileX e) - (TileY s - TileX s)) in *.
  set (ta := DiagonalTileAreaT.mk s (if da >? 0 then da + 1 else da - 1)
                                    (if db >? 0 then db + 1 else db - 1)) in *.
  exists ta. split; [exact Hc|].
  assert (IsSameMap s s = true) as Hss by (unfold IsSameMap; apply Map_eqb_refl).
  split; [|split].
  - destruct (Diagonal_Contains_iff ta s) as (r & Hr & Hiff);
      [exact Hm | exact Hws | exact Hws | exact Hvs | exact Hvs | exact Hss |].
    rewrite Hr. f_equal. apply Hiff.
    subst ta. cbn [DiagonalTileAreaT.tile DiagonalTileAreaT.a DiagonalTileAreaT.b].
    rewrite !in_spec_range.
    destruct (Z.gtb_spec da 0), (Z.gtb_spec db 0); lia.
  - destruct (Diagonal_Contains_iff ta e) as (r & Hr & Hiff);
      [exact Hm | exact Hws | exact Hwe | exact Hvs | exact Hve | exact Hsame |].
    rewrite Hr. f_equal. apply Hiff.
    subst ta. cbn [DiagonalTileAreaT.tile DiagonalTileAreaT.a DiagonalTileAreaT.b].
    rewrite !in_spec_range.
    destruct (Z.gtb_spec da 0), (Z.gtb_spec db 0); lia.
  - subst ta. cbn [DiagonalTileAreaT.a DiagonalTileAreaT.b].
    destruct (Z.gtb_spec da 0), (Z.gtb_spec db 0); repeat split; lia.
Qed.

Lemma Diagonal_Construct_contains_corners_witness :
  exists ta,
    DiagonalTileAreaT.Construct (TileXY 3 3 map8) (TileXY 3 3 map8) = Some ta /\
    DiagonalTileAreaT.Contains ta (TileXY 3 3 map8) = Some true /\
    DiagonalTileAreaT.Contains ta (TileXY 3 3 map8) = Some true /\
    DiagonalTileAreaT.a ta <> 0 /\ DiagonalTileAreaT.b ta <> 0 /\
    (TileY (TileXY 3 3 map8) + TileX (TileXY 3 3 map8)
     = TileY (TileXY 3 3 map8) + TileX (TileXY 3 3 map8) -> DiagonalTileAreaT.a ta = -1) /\
    (TileY (TileXY 3 3 map8) - TileX (TileXY 3 3 map8)
     = TileY (TileXY 3 3 map8) - TileX (TileXY 3 3 map8) -> DiagonalTileAreaT.b ta = -1).
Proof.
  apply (Diagonal_Construct_contains_corners (TileXY 3 3 map8) (TileXY 3 3 map8));
    vm_compute; repeat split; try reflexivity; discriminate.
Defined.

(** ** The diagonal iterator *)

Import DiagonalTileIteratorController.

Lemma Diagonal_Construct_WF (s e : GenericTileIndex) (ta : DiagonalTileAreaT.t) :
  MapWF (MapOf s) -> TileWF s -> TileWF e ->
  DiagonalTileAreaT.Construct s e = Some ta ->
  DiagonalTileAreaT.WF ta /\ DiagonalTileAreaT.tile ta = s.
Proof.
  intros Hm Hws Hwe Hc.
  assert (IsSameMap s e = true /\ IsValidTileIndex s = true /\ IsValidTileIndex e = true)
    as (Hsame & Hvs & Hve).
  { unfold DiagonalTileAreaT.Construct in Hc.
    destruct (IsSameMap s e); [|discriminate].
    destruct (IsValidTileIndex s); [|discriminate].
    destruct (IsValidTileIndex e); [|discriminate]. auto. }
  destruct (Diagonal_Construct_eq s e Hm Hws Hwe Hsame Hvs Hve) as (Heq & Ha & Hb).
  cbv zeta in Heq. rewrite Heq in Hc. injection Hc as <-.
  unfold DiagonalTileAreaT.WF.
  cbn [DiagonalTileAreaT.tile DiagonalTileAreaT.a DiagonalTileAreaT.b].
  repeat split; try assumption; try apply Hws;
    repeat match goal with |- context [?x >? 0] => destruct (Z.gtb_spec x 0) end; lia.
Qed.

(** One pass through the loop body keeps the invariant and uses up the
    bound. *)
Lemma move_Inv (ta : DiagonalTileAreaT.t) (c : t) :
  Inv ta c -> b_cur c <> b_max c ->
  Inv ta (move c) /\ 0 <= passes_left (move c) < passes_left c.
Proof.
  unfold Inv. intros (Hbx & Hby & Ham & Hbm & Ha & Hb & Hp) Hne.
  specialize (Hp Hne). rewrite <- Ham, <- Hbm.
  unfold move, passes_left.
  destruct (Z.eqb_spec (a_max c) 1) as [H1 | H1];
    [|destruct (Z.eqb_spec (a_max c) (-1)) as [H2 | H2]]; cbn [orb].
  - cbn [base_x base_y a_cur b_cur a_max b_max].
    destruct (Z.gtb_spec (b_max c) 0); repeat split; try assumption; intros;
      try (Z.to_euclidean_division_equations; nia).
  - cbn [base_x base_y a_cur b_cur a_max b_max].
    destruct (Z.gtb_spec (b_max c) 0); repeat split; try assumption; intros;
      try (Z.to_euclidean_division_equations; nia).
  - destruct (Z.gtb_spec (a_max c) 0) as [Hpos | Hneg].
    + destruct (Z.geb_spec (a_cur c + 2) (a_max c)) as [Hnl | Hnl];
        cbn [base_x base_y a_cur b_cur a_max b_max].
      * destruct (Z.eqb_spec (Z.rem (Z.abs (a_cur c + 2)) 2) 0) as [He | He];
          destruct (Z.gtb_spec (b_max c) 0); cbn [negb];
          repeat split; try assumption; intros;
          try (Z.to_euclidean_division_equations; nia).
      * repeat split; try assumption; intros;
          try (Z.to_euclidean_division_equations; nia).
    + destruct (Z.leb_spec (a_cur c - 2) (a_max c)) as [Hnl | Hnl];
        cbn [base_x base_y a_cur b_cur a_max b_max].
      * destruct (Z.eqb_spec (Z.rem (Z.abs (a_cur c - 2)) 2) 0) as [He | He];
          destruct (Z.gtb_spec (b_max c) 0); cbn [negb];
          repeat split; try assumption; intros;
          try (Z.to_euclidean_division_equations; nia).
      * repeat split; try assumption; intros;
          try (Z.to_euclidean_division_equations; nia).
Qed.

Lemma passes_left_pos (ta : DiagonalTileAreaT.t) (c : t) :
  Inv ta c -> b_cur c <> b_max c -> 2 <= passes_left c.
Proof.
  unfold Inv, passes_left. intros (_ & _ & _ & _ & Ha & Hb & _) Hne. nia.
Qed.

(** What the loop returns: the invariant still holds, the index is the
    conversion of the returned coordinates, and it is valid unless [b_cur]
    has reached [b_max]. *)
Lemma Advance_loop_Inv (ta : DiagonalTileAreaT.t) (my_map : Map) (fuel : nat) :
  forall c c' i',
    Inv ta c -> b_cur c <> b_max c ->
    Advance_loop fuel c my_map = Some (c', i') ->
    Inv ta c' /\ i' = convert c' my_map /\
    (IsValidTileIndex (mkTile i' my_map) = true \/ b_max c' = b_cur c') /\
    0 <= passes_left c' < passes_left c.
Proof.
  induction fuel as [|fuel IH]; intros c c' i' HI Hne Hrun; [discriminate|].
  cbn [Advance_loop] in Hrun.
  destruct (move_Inv ta c HI Hne) as [HI' Hlt].
  destruct (IsValidTileIndex (mkTile (convert (move c) my_map) my_map)) eqn:Hv;
    cbn [negb andb] in Hrun.
  - injection Hrun as <- <-. auto.
  - destruct (Z.eqb_spec (b_max (move c)) (b_cur (move c))) as [He | He];
      cbn [negb] in Hrun.
    + injection Hrun as <- <-. auto.
    + destruct (IH (move c) c' i' HI' (not_eq_sym He) Hrun) as (H1 & H2 & H3 & H4).
      split; [exact H1|]. split; [exact H2|]. split; [exact H3|]. lia.
Qed.

(** The loop exits: [passes_left] passes are enough. *)
Lemma Advance_loop_terminates (ta : DiagonalTileAreaT.t) (my_map : Map) (fuel : nat) :
  forall c,
    Inv ta c -> b_cur c <> b_max c -> passes_left c <= Z.of_nat fuel ->
    exists r, Advance_loop fuel c my_map = Some r.
Proof.
  induction fuel as [|fuel IH]; intros c HI Hne Hfuel.
  - pose proof (passes_left_pos ta c HI Hne). lia.
  - cbn [Advance_loop].
    destruct (move_Inv ta c HI Hne) as [HI' Hlt].
    destruct (IsValidTileIndex (mkTile (convert (move c) my_map) my_map));
      cbn [negb andb]; [eauto|].
    destruct (Z.eqb_spec (b_max (move c)) (b_cur (move c))) as [He | He];
      cbn [negb]; [eauto|].
    apply IH; [exact HI' | auto | lia].
Qed.

(** A valid converted index is the tile at the converted coordinates, and
    these are on the map without any wrap-around. *)
Lemma convert_valid (ta : DiagonalTileAreaT.t) (c : t) :
  let my_map := MapOf (DiagonalTileAreaT.tile ta) in
  MapWF my_map -> DiagonalTileAreaT.WF ta -> Inv ta c ->
  b_cur c <> b_max c ->
  IsValidTileIndex (mkTile (convert c my_map) my_map) = true ->
  let x := base_x c + Z.quot (a_cur c - b_cur c) 2 in
  let y := base_y c + Z.quot (b_cur c + a_cur c) 2 in
  0 <= x < size_x my_map /\ 0 <= y < size_y my_map /\
  mkTile (convert c my_map) my_map = TileXY x y my_map.
Proof.
  intros my_map Hm (Hwt & Hvt & Ha0 & Hb0 & Har & Hbr) HI Hne Hv x y.
  destruct HI as (Hbx & Hby & Ham & Hbm & Ha & Hb & Hp).
  pose proof (valid_coords _ Hm Hwt Hvt) as [Hox Hoy].
  pose proof Hm as [Hmx Hmy]. change (map (DiagonalTileAreaT.tile ta)) with my_map in Hox, Hoy.
  unfold convert in *. fold x y in Hv |- *. unfold MapSizeX, MapSizeY in *.
  assert (- 2 ^ 31 <= x < 2 ^ 31 /\ - 2 ^ 31 <= y < 2 ^ 31) as [Hxr Hyr]
    by (subst x y; Z.to_euclidean_division_equations; lia).
  destruct (Z.geb_spec (to_uint x) (size_x my_map)) as [Hx | Hx]; cbn [orb] in *.
  { rewrite INVALID_not_valid in Hv by exact Hm. discriminate. }
  destruct (Z.geb_spec (to_uint y) (size_y my_map)) as [Hy | Hy]; cbn [orb] in *.
  { rewrite INVALID_not_valid in Hv by exact Hm. discriminate. }
  assert (0 <= x) as Hx0.
  { destruct (Z_lt_le_dec x 0) as [Hneg|]; [|assumption].
    rewrite to_uint_neg in Hx by lia. lia. }
  assert (0 <= y) as Hy0.
  { destruct (Z_lt_le_dec y 0) as [Hneg|]; [|assumption].
    rewrite to_uint_neg in Hy by lia. lia. }
  rewrite (to_uint_small x) in * by lia. rewrite (to_uint_small y) in * by lia.
  split; [lia|]. split; [lia|]. reflexivity.
Qed.

(** The tile that the iterator stands on lies in the area. *)
Lemma convert_Contains (ta : DiagonalTileAreaT.t) (c : t) :
  let my_map := MapOf (DiagonalTileAreaT.tile ta) in
  MapWF my_map -> DiagonalTileAreaT.WF ta -> Inv ta c ->
  b_cur c <> b_max c ->
  IsValidTileIndex (mkTile (convert c my_map) my_map) = true ->
  DiagonalTileAreaT.Contains ta (mkTile (convert c my_map) my_map) = Some true.
Proof.
  intros my_map Hm Hwf HI Hne Hv.
  destruct (convert_valid ta c Hm Hwf HI Hne Hv) as (Hx & Hy & Heq).
  fold my_map in Heq. rewrite Heq.
  destruct Hwf as (Hwt & Hvt & Ha0 & Hb0 & Har & Hbr).
  destruct HI as (Hbx & Hby & Ham & Hbm & Ha & Hb & Hp). specialize (Hp Hne).
  destruct (TileXY_valid _ _ my_map Hm Hx Hy) as [Hvxy Hwxy].
  destruct (Diagonal_Contains_iff ta (TileXY _ _ my_map) Hm Hwt Hwxy Hvt Hvxy)
    as (r & Hr & Hiff).
  { unfold IsSameMap, TileXY; cbn [map]. apply Map_eqb_refl. }
  rewrite Hr. f_equal. apply Hiff.
  rewrite TileX_TileXY, TileY_TileXY by assumption.
  rewrite !in_spec_range, <- Hbx, <- Hby, <- Ham, <- Hbm.
  split; Z.to_euclidean_division_equations; lia.
Qed.

Lemma passes_left_nonneg (ta : DiagonalTileAreaT.t) (c : t) :
  Inv ta c -> 1 <= passes_left c.
Proof.
  unfold Inv, passes_left. intros (_ & _ & _ & _ & Ha & Hb & _). nia.
Qed.

(** A call of [Advance] keeps both invariants and uses up the bound. *)
Lemma Advance_Inv (ta : DiagonalTileAreaT.t) (fuel : nat) (c c' : t) (i i' : RawTileIndex) :
  let my_map := MapOf (DiagonalTileAreaT.tile ta) in
  MapWF my_map -> Inv ta c -> Inv_index my_map c i ->
  Advance fuel i my_map c = Some (c', i') ->
  Inv ta c' /\ Inv_index my_map c' i' /\ 0 <= passes_left c' < passes_left c.
Proof.
  intros my_map Hm HI [Hdone Hidx] Hadv. unfold Advance in Hadv.
  destruct (Z.eqb_spec i INVALID_TILE_INDEX) as [Hi | Hi]; cbn [negb assert] in Hadv;
    [discriminate|].
  assert (b_cur c <> b_max c) as Hne by (intros Hb; apply Hi, Hdone, Hb).
  destruct (Advance_loop fuel c my_map) as [[c1 i1]|] eqn:Hloop; [|discriminate].
  injection Hadv as <- <-.
  destruct (Advance_loop_Inv ta my_map fuel c c1 i1 HI Hne Hloop) as (HI1 & Hc1 & Hv1 & Hlt).
  split; [exact HI1|]. split; [|exact Hlt].
  destruct (Z.eqb_spec (b_max c1) (b_cur c1)) as [He | He].
  - split; [split; auto | intros Hfalse; now elim Hfalse].
  - destruct Hv1 as [Hv1 | Hv1]; [|contradiction].
    assert (i1 <> INVALID_TILE_INDEX) as Hi1.
    { intros ->. rewrite INVALID_not_valid in Hv1 by exact Hm. discriminate. }
    split; [split; intros H; [contradiction | now elim He] | auto].
Qed.

(** The initial state satisfies both invariants. *)
Lemma Init_Inv (ta : DiagonalTileAreaT.t) (c : t) (i : RawTileIndex) :
  let my_map := MapOf (DiagonalTileAreaT.tile ta) in
  MapWF my_map -> DiagonalTileAreaT.WF ta -> Init ta = (c, i) ->
  Inv ta c /\ Inv_index my_map c i.
Proof.
  intros my_map Hm (Hwt & Hvt & Ha0 & Hb0 & Har & Hbr) Hinit.
  unfold Init in Hinit. injection Hinit as <- <-.
  pose proof (valid_coords _ Hm Hwt Hvt) as [Hox Hoy].
  pose proof (MapSize_bound _ Hm) as Hsz.
  pose proof Hm as [Hmx Hmy].
  assert (IndexOf (DiagonalTileAreaT.tile ta) <> INVALID_TILE_INDEX) as Hi.
  { unfold IsValidTileIndex in Hvt. apply Z.ltb_lt in Hvt.
    unfold IndexOf, INVALID_TILE_INDEX. unfold my_map, MapOf in Hsz. lia. }
  split.
  - unfold Inv. cbn [base_x base_y a_cur b_cur a_max b_max].
    repeat split; try reflexivity; try lia.
  - unfold Inv_index. cbn [b_cur b_max]. split; [split; intros H; [contradiction | lia]|].
    intros _.
    assert (convert (mk (TileX (DiagonalTileAreaT.tile ta)) (TileY (DiagonalTileAreaT.tile ta))
                        0 0 (DiagonalTileAreaT.a ta) (DiagonalTileAreaT.b ta)) my_map
            = IndexOf (DiagonalTileAreaT.tile ta)) as Hconv.
    { unfold convert. cbn [base_x base_y a_cur b_cur].
      change (Z.quot (0 - 0) 2) with 0. change (Z.quot (0 + 0) 2) with 0.
      rewrite !Z.add_0_r, !to_uint_small by (unfold my_map, MapOf in *; lia).
      unfold MapSizeX, MapSizeY.
      destruct (Z.geb_spec (TileX (DiagonalTileAreaT.tile ta)) (size_x my_map));
        [unfold my_map, MapOf in *; lia|].
      destruct (Z.geb_spec (TileY (DiagonalTileAreaT.tile ta)) (size_y my_map));
        [unfold my_map, MapOf in *; lia|].
      cbn [orb].
      destruct (TileXY_index _ _ my_map Hm Hox Hoy) as [Hidx _]. rewrite Hidx.
      unfold TileX, TileY, IndexOf, MapSizeX, my_map, MapOf.
      rewrite Z.mul_comm. symmetry. apply Z.div_mod.
      unfold my_map, MapOf in Hmx. lia. }
    split; [symmetry; exact Hconv|].
    unfold IndexOf, my_map, MapOf. destruct (DiagonalTileAreaT.tile ta). exact Hvt.
Qed.

(** Every reachable state satisfies both invariants. *)
Lemma Reachable_Inv (ta : DiagonalTileAreaT.t) (c : t) (i : RawTileIndex) :
  let my_map := MapOf (DiagonalTileAreaT.tile ta) in
  MapWF my_map -> DiagonalTileAreaT.WF ta -> Reachable ta c i ->
  Inv ta c /\ Inv_index my_map c i.
Proof.
  intros my_map Hm Hwf Hreach.
  induction Hreach as [c i Hinit | c i fuel c' i' _ [HI Hidx] Hadv].
  - exact (Init_Inv ta c i Hm Hwf Hinit).
  - destruct (Advance_Inv ta fuel c c' i i' Hm HI Hidx Hadv) as (H1 & H2 & _). auto.
Qed.

(** The tile of a state that satisfies the invariants lies in the area. *)
Lemma Inv_Contains (ta : DiagonalTileAreaT.t) (c : t) (i : RawTileIndex) :
  let my_map := MapOf (DiagonalTileAreaT.tile ta) in
  MapWF my_map -> DiagonalTileAreaT.WF ta ->
  Inv ta c -> Inv_index my_map c i -> i <> INVALID_TILE_INDEX ->
  DiagonalTileAreaT.Contains ta (mkTile i my_map) = Some true.
Proof.
  intros my_map Hm Hwf HI [Hdone Hidx] Hi.
  destruct (Hidx Hi) as [Hconv Hv].
  assert (b_cur c <> b_max c) as Hne by (intros Hb; apply Hi, Hdone, Hb).
  rewrite Hconv in Hv |- *.
  exact (convert_Contains ta c Hm Hwf HI Hne Hv).
Qed.

(** From a state that satisfies the invariants, [passes_left] calls of
    [Advance], each with [passes_left] passes of fuel, reach the done
    sentinel, and every index produced on the way lies in the area. *)
Lemma run_done (ta : DiagonalTileAreaT.t) (fuel n : nat) :
  let my_map := MapOf (DiagonalTileAreaT.tile ta) in
  MapWF my_map -> DiagonalTileAreaT.WF ta ->
  forall c i,
    Inv ta c -> Inv_index my_map c i ->
    passes_left c <= Z.of_nat n -> passes_left c <= Z.of_nat fuel ->
    exists l c',
      run n fuel my_map c i = Some (l, c', INVALID_TILE_INDEX) /\
      b_cur c' = b_max c' /\
      Forall (fun j => DiagonalTileAreaT.Contains ta (mkTile j my_map) = Some true) l.
Proof.
  intros my_map Hm Hwf.
  induction n as [|n IH]; intros c i HI Hidx Hn Hfuel.
  - pose proof (passes_left_nonneg ta c HI). lia.
  - cbn [run].
    destruct (Z.eqb_spec i INVALID_TILE_INDEX) as [Hi | Hi].
    + exists [], c. subst i. split; [reflexivity|]. split; [|constructor].
      now apply (proj1 Hidx).
    + assert (b_cur c <> b_max c) as Hne by (intros Hb; apply Hi, (proj1 Hidx), Hb).
      destruct (Advance_loop_terminates ta my_map fuel c HI Hne Hfuel) as [[c1 i1] Hloop].
      assert (exists i1', Advance fuel i my_map c = Some (c1, i1')) as [i1' Hadv].
      { unfold Advance. destruct (Z.eqb_spec i INVALID_TILE_INDEX); [contradiction|].
        cbn [negb assert]. rewrite Hloop. eauto. }
      rewrite Hadv.
      destruct (Advance_Inv ta fuel c c1 i i1' Hm HI Hidx Hadv) as (HI1 & Hidx1 & Hlt).
      destruct (IH c1 i1' HI1 Hidx1) as (l & c' & Hrun & Hb & Hall); [lia | lia |].
      rewrite Hrun. exists (i :: l), c'. split; [reflexivity|]. split; [exact Hb|].
      constructor; [|exact Hall].
      exact (Inv_Contains ta c i Hm Hwf HI Hidx Hi).
Qed.

(** Whatever [run] returns, the indices it produced lie in the area. *)
Lemma run_Contains (ta : DiagonalTileAreaT.t) (fuel n : nat) :
  let my_map := MapOf (DiagonalTileAreaT.tile ta) in
  MapWF my_map -> DiagonalTileAreaT.WF ta ->
  forall c i l c' i',
    Inv ta c -> Inv_index my_map c i ->
    run n fuel my_map c i = Some (l, c', i') ->
    Forall (fun j => DiagonalTileAreaT.Contains ta (mkTile j my_map) = Some true) l.
Proof.
  intros my_map Hm Hwf.
  induction n as [|n IH]; intros c i l c' i' HI Hidx Hrun; cbn [run] in Hrun.
  - injection Hrun as <- _ _. constructor.
  - destruct (Z.eqb_spec i INVALID_TILE_INDEX) as [Hi | Hi].
    + injection Hrun as <- _ _. constructor.
    + destruct (Advance fuel i my_map c) as [[c1 i1]|] eqn:Hadv; [|discriminate].
      destruct (run n fuel my_map c1 i1) as [[[l1 c2] i2]|] eqn:Hrun1; [|discriminate].
      injection Hrun as <- _ _.
      destruct (Advance_Inv ta fuel c c1 i i1 Hm HI Hidx Hadv) as (HI1 & Hidx1 & _).
      constructor.
      * exact (Inv_Contains ta c i Hm Hwf HI Hidx Hi).
      * exact (IH c1 i1 l1 c2 i2 HI1 Hidx1 Hrun1).
Qed.

(** C1.  Over a diagonal area as the constructor builds them, every index
    that the iterator stands on before the done sentinel, after any
    sequence of [Advance] steps from the initial state, is a tile that
    [Contains] accepts; so is every index in the list that [run] collects.
    No tile outside the area is produced. *)
Theorem Diagonal_iterator_tiles_in_area (ta : DiagonalTileAreaT.t) :
  let my_map := MapOf (DiagonalTileAreaT.tile ta) in
  MapWF my_map -> DiagonalTileAreaT.WF ta ->
  (forall c i,
      Reachable ta c i -> i <> INVALID_TILE_INDEX ->
      DiagonalTileAreaT.Contains ta (mkTile i my_map) = Some true) /\
  (forall n fuel l c' i',
      run n fuel my_map (fst (Init ta)) (snd (Init ta)) = Some (l, c', i') ->
      Forall (fun j => DiagonalTileAreaT.Contains ta (mkTile j my_map) = Some true) l).
Proof.
  intros my_map Hm Hwf. split.
  - intros c i Hreach Hi.
    destruct (Reachable_Inv ta c i Hm Hwf Hreach) as [HI Hidx].
    exact (Inv_Contains ta c i Hm Hwf HI Hidx Hi).
  - intros n fuel l c' i' Hrun.
    destruct (Init_Inv ta (fst (Init ta)) (snd (Init ta)) Hm Hwf) as [HI Hidx];
      [now destruct (Init ta)|].
    exact (run_Contains ta fuel n Hm Hwf _ _ l c' i' HI Hidx Hrun).
Qed.

Lemma map8_WF : MapWF map8.
Proof. vm_compute. repeat split; try reflexivity; discriminate. Defined.

Lemma diag_area_WF : DiagonalTileAreaT.WF diag_area.
Proof. vm_compute. repeat split; try reflexivity; discriminate. Defined.

Lemma diag_strip_WF : DiagonalTileAreaT.WF diag_strip.
Proof. vm_compute. repeat split; try reflexivity; discriminate. Defined.

Lemma Diagonal_iterator_tiles_in_area_witness :
  DiagonalTileAreaT.Contains diag_area (TileXY 2 5 map8) = Some true /\
  Forall (fun j => DiagonalTileAreaT.Contains diag_area (mkTile j map8) = Some true)
         [41; 42; 34; 35; 27; 28].
Proof.
  split.
  - apply (proj1 (Diagonal_iterator_tiles_in_area diag_area map8_WF diag_area_WF)
             (mk 1 5 1 (-1) 2 (-6)) 42).
    + apply (reach_step diag_area (mk 1 5 0 0 2 (-6)) 41 3%nat).
      * apply reach_init. reflexivity.
      * vm_compute. reflexivity.
    + discriminate.
  - apply (proj2 (Diagonal_iterator_tiles_in_area diag_area map8_WF diag_area_WF)
             10%nat 10%nat _ (mk 1 5 0 (-6) 2 (-6)) INVALID_TILE_INDEX).
    vm_compute. reflexivity.
Defined.

(** C8.  From every state reachable from the initialisation over a
    diagonal area, a call of [Advance] returns (its loop exits within
    [passes_left] passes), and repeated calls reach the done sentinel,
    with [b_cur = b_max], within [passes_left] calls; the area's [a] may
    be 1 or -1. *)
Theorem Diagonal_iteration_finite (ta : DiagonalTileAreaT.t) (c : t) (i : RawTileIndex) :
  let my_map := MapOf (DiagonalTileAreaT.tile ta) in
  MapWF my_map -> DiagonalTileAreaT.WF ta -> Reachable ta c i ->
  (forall fuel,
      i <> INVALID_TILE_INDEX -> passes_left c <= Z.of_nat fuel ->
      exists c' i', Advance fuel i my_map c = Some (c', i')) /\
  (forall n fuel,
      passes_left c <= Z.of_nat n -> passes_left c <= Z.of_nat fuel ->
      exists l c',
        run n fuel my_map c i = Some (l, c', INVALID_TILE_INDEX) /\
        b_cur c' = b_max c').
Proof.
  intros my_map Hm Hwf Hreach.
  destruct (Reachable_Inv ta c i Hm Hwf Hreach) as [HI Hidx].
  split.
  - intros fuel Hi Hfuel.
    assert (b_cur c <> b_max c) as Hne by (intros Hb; apply Hi, (proj1 Hidx), Hb).
    destruct (Advance_loop_terminates ta my_map fuel c HI Hne Hfuel) as [[c1 i1] Hloop].
    unfold Advance. destruct (Z.eqb_spec i INVALID_TILE_INDEX); [contradiction|].
    cbn [negb assert]. rewrite Hloop. eauto.
  - intros n fuel Hn Hfuel.
    destruct (run_done ta fuel n Hm Hwf c i HI Hidx Hn Hfuel) as (l & c' & Hrun & Hb & _).
    eauto.
Qed.

Lemma Diagonal_iteration_finite_witness :
  (exists c' i', Advance 7 9 map8 (mk 1 1 0 0 (-1) 3) = Some (c', i')) /\
  (exists l c',
      run 7 7 map8 (mk 1 1 0 0 (-1) 3) 9 = Some (l, c', INVALID_TILE_INDEX) /\
      b_cur c' = b_max c').
Proof.
  assert (Reachable diag_strip (mk 1 1 0 0 (-1) 3) 9) as Hreach
    by (apply reach_init; reflexivity).
  split.
  - apply (proj1 (Diagonal_iteration_finite diag_strip _ _ map8_WF diag_strip_WF Hreach)).
    + discriminate.
    + vm_compute. discriminate.
  - apply (proj2 (Diagonal_iteration_finite diag_strip _ _ map8_WF diag_strip_WF Hreach)).
    + vm_compute. discriminate.
    + vm_compute. discriminate.
Defined.

(** ** The transformation iterator *)

Lemma to_uint_add_l (u v : Z) : to_uint (to_uint u + v) = to_uint (u + v).
Proof. unfold to_uint. apply Zplus_mod_idemp_l. Qed.

(** C6.  A call of [Advance] on a source index that is not the done
    sentinel does one of three things.  With columns left in the row it
    moves the source index by +1 and the destination index by the linear
    delta of the transformed south-west direction.  With the row complete
    and rows left, it resets the column counter to [w], moves the source
    index to the start of the next row, and moves the destination index
    back by [w - 1] transformed south-west deltas and on by one transformed
    south-east delta.  With no rows left it sets both indices to the done
    sentinel in the same step.  On a map, +1 is the next tile of the row,
    and the row jump leads from the last tile of a row of width [w] to the
    first tile of the next row. *)
Theorem Transformation_Advance_steps
    (DirTransformation : Type)
    (TransformDiagDir : TTIC.DiagDirection -> DirTransformation -> TTIC.DiagDirection)
    (TileIndexDiffCByDiagDir : TTIC.DiagDirection -> TTIC.TileIndexDiffC)
    (c : TTIC.t DirTransformation)
    (src_index dst_index : RawTileIndex) (src_map dst_map : Map) :
  src_index <> INVALID_TILE_INDEX ->
  let step := TTIC.Advance TransformDiagDir TileIndexDiffCByDiagDir
                src_index src_map dst_index dst_map c in
  let T := TTIC.transformation c in
  let dSW := TTIC.ToTileIndexDiff
               (TileIndexDiffCByDiagDir (TransformDiagDir TTIC.DIAGDIR_SW T)) dst_map in
  let dSE := TTIC.ToTileIndexDiff
               (TileIndexDiffCByDiagDir (TransformDiagDir TTIC.DIAGDIR_SE T)) dst_map in
  (1 < TTIC.x c ->
   step = Some (TTIC.mk (TTIC.w c) (TTIC.x c - 1) (TTIC.y c) T,
                to_uint (src_index + 1), to_uint (dst_index + dSW))) /\
  (TTIC.x c <= 1 -> 1 < TTIC.y c ->
   step = Some (TTIC.mk (TTIC.w c) (TTIC.w c) (TTIC.y c - 1) T,
                to_uint (src_index + MapSizeX src_map - (TTIC.w c - 1)),
                to_uint (dst_index - (TTIC.w c - 1) * dSW + dSE))) /\
  (TTIC.x c <= 1 -> TTIC.y c <= 1 ->
   exists c', step = Some (c', INVALID_TILE_INDEX, INVALID_TILE_INDEX)) /\
  (forall x0 y0,
      MapWF src_map -> 0 <= x0 -> x0 + 1 < size_x src_map -> 0 <= y0 < size_y src_map ->
      to_uint (index (TileXY x0 y0 src_map) + 1) = index (TileXY (x0 + 1) y0 src_map)) /\
  (forall x0 y0,
      MapWF src_map -> 0 <= x0 -> 1 <= TTIC.w c -> x0 + TTIC.w c <= size_x src_map ->
      0 <= y0 -> y0 + 1 < size_y src_map ->
      to_uint (index (TileXY (x0 + TTIC.w c - 1) y0 src_map)
               + MapSizeX src_map - (TTIC.w c - 1))
      = index (TileXY x0 (y0 + 1) src_map)).
Proof.
  intros Hsrc step T dSW dSE.
  assert ((src_index =? INVALID_TILE_INDEX) = false) as Hne by now apply Z.eqb_neq.
  subst step. unfold TTIC.Advance. rewrite Hne. cbn [negb assert].
  fold T. unfold TTIC.delta. fold T dSW dSE.
  split; [|split; [|split; [|split]]].
  - intros Hx. destruct (Z.gtb_spec (TTIC.x c - 1) 0); [reflexivity | lia].
  - intros Hx Hy.
    destruct (Z.gtb_spec (TTIC.x c - 1) 0); [lia|].
    destruct (Z.gtb_spec (TTIC.y c - 1) 0); [|lia].
    rewrite to_uint_add_l. unfold TTIC.TileDiffXY.
    do 2 f_equal; [f_equal|]; f_equal; ring.
  - intros Hx Hy.
    destruct (Z.gtb_spec (TTIC.x c - 1) 0); [lia|].
    destruct (Z.gtb_spec (TTIC.y c - 1) 0); [lia|]. eauto.
  - intros x0 y0 Hm Hx0 Hx1 Hy0. pose proof (MapSize_bound _ Hm).
    destruct (TileXY_index x0 y0 src_map Hm) as [-> ?]; [lia | lia |].
    destruct (TileXY_index (x0 + 1) y0 src_map Hm) as [-> ?]; [lia | lia |].
    rewrite to_uint_small by lia. ring.
  - intros x0 y0 Hm Hx0 Hw Hx1 Hy0 Hy1. pose proof (MapSize_bound _ Hm).
    destruct (TileXY_index (x0 + TTIC.w c - 1) y0 src_map Hm) as [-> ?]; [lia | lia |].
    destruct (TileXY_index x0 (y0 + 1) src_map Hm) as [-> ?]; [lia | lia |].
    unfold MapSizeX. rewrite to_uint_small by lia. ring.
Qed.

Lemma Transformation_Advance_steps_witness :
  TTIC.Advance identity_TransformDiagDir sample_TileIndexDiffCByDiagDir
    9 map8 34 map16 (TTIC.mk 3 3 2 tt)
  = Some (TTIC.mk 3 2 2 tt, 10, 35) /\
  TTIC.Advance identity_TransformDiagDir sample_TileIndexDiffCByDiagDir
    11 map8 36 map16 (TTIC.mk 3 1 2 tt)
  = Some (TTIC.mk 3 3 1 tt, 17, 50) /\
  (exists c',
      TTIC.Advance identity_TransformDiagDir sample_TileIndexDiffCByDiagDir
        19 map8 52 map16 (TTIC.mk 3 1 1 tt)
      = Some (c', INVALID_TILE_INDEX, INVALID_TILE_INDEX)) /\
  to_uint (index (TileXY 1 1 map8) + 1) = index (TileXY 2 1 map8) /\
  to_uint (index (TileXY 3 1 map8) + MapSizeX map8 - 2) = index (TileXY 1 2 map8).
Proof.
  split; [|split; [|split; [|split]]].
  - apply (proj1 (Transformation_Advance_steps unit identity_TransformDiagDir
                    sample_TileIndexDiffCByDiagDir (TTIC.mk 3 3 2 tt) 9 34 map8 map16
                    ltac:(discriminate))).
    reflexivity.
  - apply (proj1 (proj2 (Transformation_Advance_steps unit identity_TransformDiagDir
                    sample_TileIndexDiffCByDiagDir (TTIC.mk 3 1 2 tt) 11 36 map8 map16
                    ltac:(discriminate)))).
    + discriminate.
    + reflexivity.
  - apply (proj1 (proj2 (proj2 (Transformation_Advance_steps unit identity_TransformDiagDir
                    sample_TileIndexDiffCByDiagDir (TTIC.mk 3 1 1 tt) 19 52 map8 map16
                    ltac:(discriminate))))).
    + discriminate.
    + discriminate.
  - apply (proj1 (proj2 (proj2 (proj2 (Transformation_Advance_steps unit
                    identity_TransformDiagDir sample_TileIndexDiffCByDiagDir
                    (TTIC.mk 3 3 2 tt) 9 34 map8 map16 ltac:(discriminate)))))
             1 1 map8_WF).
    + discriminate.
    + reflexivity.
    + vm_compute. split; [discriminate | reflexivity].
  - apply (proj2 (proj2 (proj2 (proj2 (Transformation_Advance_steps unit
                    identity_TransformDiagDir sample_TileIndexDiffCByDiagDir
                    (TTIC.mk 3 3 2 tt) 9 34 map8 map16 ltac:(discriminate)))))
             1 1 map8_WF).
    + discriminate.
    + discriminate.
    + discriminate.
    + discriminate.
    + reflexivity.
Defined.

(** ** Clipboard buffers *)

Lemma ptr_diff_element (clipboard_buffers sizeof_Map i : Z) :
  0 < sizeof_Map ->
  Clipboard.ptr_diff sizeof_Map (Clipboard.element clipboard_buffers sizeof_Map i)
                     clipboard_buffers = i.
Proof.
  intros Hs. unfold Clipboard.ptr_diff, Clipboard.element.
  replace (clipboard_buffers + i * sizeof_Map - clipboard_buffers)
    with (i * sizeof_Map) by ring.
  apply Z.quot_mul. lia.
Qed.

(** The element at an index below the number of buffers is recognised as
    a buffer, with that index. *)
Lemma element_is_buffer (clipboard_buffers sizeof_Map i : Z) :
  0 < sizeof_Map -> 0 <= i < Clipboard.NUM_CLIPBOARD_BUFFERS ->
  Clipboard.IsClipboardBuffer clipboard_buffers sizeof_Map
    (Clipboard.element clipboard_buffers sizeof_Map i) = true /\
  Clipboard.GetClipboardBufferIndex clipboard_buffers sizeof_Map
    (Clipboard.element clipboard_buffers sizeof_Map i) = Some i /\
  Clipboard.GetClipboardBuffer clipboard_buffers sizeof_Map i
  = Some (Clipboard.element clipboard_buffers sizeof_Map i).
Proof.
  intros Hs Hi. unfold Clipboard.NUM_CLIPBOARD_BUFFERS in Hi.
  assert (Clipboard.IsClipboardBuffer clipboard_buffers sizeof_Map
            (Clipboard.element clipboard_buffers sizeof_Map i) = true) as Hb.
  { unfold Clipboard.IsClipboardBuffer. rewrite ptr_diff_element by exact Hs.
    unfold Clipboard.to_size_t, Clipboard.NUM_CLIPBOARD_BUFFERS.
    rewrite Z.mod_small by lia. apply Z.ltb_lt. lia. }
  split; [exact Hb|]. split.
  - unfold Clipboard.GetClipboardBufferIndex. rewrite Hb. cbn [assert].
    rewrite ptr_diff_element by exact Hs. rewrite to_uint_small; [reflexivity | lia].
  - unfold Clipboard.GetClipboardBuffer, Clipboard.NUM_CLIPBOARD_BUFFERS.
    destruct (Z.ltb_spec i 5); [reflexivity | lia].
Qed.

(** A map object that lies apart from the array is not recognised as a
    buffer. *)
Lemma apart_is_no_buffer (clipboard_buffers sizeof_Map p : Z) :
  Clipboard.ArrayWF clipboard_buffers sizeof_Map ->
  0 <= p -> p + sizeof_Map <= 2 ^ 63 ->
  p + sizeof_Map <= clipboard_buffers \/
  clipboard_buffers + Clipboard.NUM_CLIPBOARD_BUFFERS * sizeof_Map <= p ->
  Clipboard.IsClipboardBuffer clipboard_buffers sizeof_Map p = false.
Proof.
  unfold Clipboard.ArrayWF, Clipboard.NUM_CLIPBOARD_BUFFERS.
  intros (Hs & Hb0 & Hb1) Hp0 Hp1 Hapart.
  unfold Clipboard.IsClipboardBuffer, Clipboard.ptr_diff, Clipboard.to_size_t,
    Clipboard.NUM_CLIPBOARD_BUFFERS.
  apply Z.ltb_ge.
  pose proof (Z.quot_rem' (p - clipboard_buffers) sizeof_Map) as Hqr.
  set (q := Z.quot (p - clipboard_buffers) sizeof_Map) in *.
  set (r := Z.rem (p - clipboard_buffers) sizeof_Map) in *.
  destruct Hapart as [Hlow | Hhigh].
  - assert (- sizeof_Map < r <= 0) as Hr
      by (subst r; apply Z.rem_bound_pos_neg; lia).
    assert (- 2 ^ 63 <= q <= -1) as Hq by nia.
    replace q with (q + 2 ^ 64 + (-1) * 2 ^ 64) by ring.
    rewrite Z.mod_add by lia. rewrite Z.mod_small; lia.
  - assert (0 <= r < sizeof_Map) as Hr
      by (subst r; apply Z.rem_bound_pos_pos; lia).
    assert (5 <= q < 2 ^ 63) as Hq by nia.
    rewrite Z.mod_small; lia.
Qed.

(** C10.  For every index below [NUM_CLIPBOARD_BUFFERS], the buffer that
    [GetClipboardBuffer] returns is recognised by [IsClipboardBuffer] and
    [GetClipboardBufferIndex] gives the index back; and for every pointer
    to a map that [IsClipboardBuffer] recognises,
    [GetClipboardBufferIndex] returns an index whose buffer is that
    pointer. *)
Theorem ClipboardBuffer_roundtrip (clipboard_buffers sizeof_Map : Z) :
  Clipboard.ArrayWF clipboard_buffers sizeof_Map ->
  (forall i, 0 <= i < Clipboard.NUM_CLIPBOARD_BUFFERS ->
     exists b,
       Clipboard.GetClipboardBuffer clipboard_buffers sizeof_Map i = Some b /\
       Clipboard.IsClipboardBuffer clipboard_buffers sizeof_Map b = true /\
       Clipboard.GetClipboardBufferIndex clipboard_buffers sizeof_Map b = Some i) /\
  (forall b,
     Clipboard.MapPointer clipboard_buffers sizeof_Map b ->
     Clipboard.IsClipboardBuffer clipboard_buffers sizeof_Map b = true ->
     exists i,
       Clipboard.GetClipboardBufferIndex clipboard_buffers sizeof_Map b = Some i /\
       Clipboard.GetClipboardBuffer clipboard_buffers sizeof_Map i = Some b).
Proof.
  intros Hwf. pose proof Hwf as (Hs & _). split.
  - intros i Hi.
    destruct (element_is_buffer clipboard_buffers sizeof_Map i Hs Hi) as (H1 & H2 & H3).
    eauto.
  - intros b (Hb0 & Hb1 & [(i & Hi & ->) | Hapart]) Hb.
    + destruct (element_is_buffer clipboard_buffers sizeof_Map i Hs Hi) as (H1 & H2 & H3).
      eauto.
    + rewrite (apart_is_no_buffer _ _ b Hwf Hb0 Hb1 Hapart) in Hb. discriminate.
Qed.

Lemma ClipboardBuffer_roundtrip_witness :
  (exists b,
      Clipboard.GetClipboardBuffer 4096 40 3 = Some b /\
      Clipboard.IsClipboardBuffer 4096 40 b = true /\
      Clipboard.GetClipboardBufferIndex 4096 40 b = Some 3) /\
  (exists i,
      Clipboard.GetClipboardBufferIndex 4096 40 4176 = Some i /\
      Clipboard.GetClipboardBuffer 4096 40 i = Some 4176).
Proof.
  assert (Clipboard.ArrayWF 4096 40) as Hwf
    by (vm_compute; repeat split; try reflexivity; discriminate).
  split.
  - apply (proj1 (ClipboardBuffer_roundtrip 4096 40 Hwf)).
    vm_compute. split; [discriminate | reflexivity].
  - apply (proj2 (ClipboardBuffer_roundtrip 4096 40 Hwf)).
    + unfold Clipboard.MapPointer. split; [discriminate|]. split; [discriminate|].
      left. exists 2. split; [vm_compute; split; [discriminate | reflexivity] | reflexivity].
    + reflexivity.
Defined.

(** * Further properties *)

(** ** Orthogonal areas: the tile test *)

Lemma TileOf_coords (m : Map) (tl : GenericTileIndex) :
  MapWF m -> OTA.TileOf m tl ->
  0 <= TileX tl < size_x m /\ 0 <= TileY tl < size_y m.
Proof.
  intros Hm (Hw & Hmap & Hv). subst m. exact (valid_coords tl Hm Hw Hv).
Qed.

Lemma TileOf_same (m : Map) (t1 t2 : GenericTileIndex) :
  map t1 = m -> OTA.TileOf m t2 -> IsSameMap t1 t2 = true.
Proof.
  intros H1 (_ & H2 & _). unfold IsSameMap. rewrite H1, H2. apply Map_eqb_refl.
Qed.

(** A valid tile is the tile at its own coordinates. *)
Lemma TileXY_of_coords (tl : GenericTileIndex) :
  MapWF (map tl) -> TileWF tl -> IsValidTileIndex tl = true ->
  TileXY (TileX tl) (TileY tl) (map tl) = tl.
Proof.
  intros Hm Hw Hv. pose proof (valid_coords tl Hm Hw Hv) as [Hx Hy].
  destruct (TileXY_index _ _ (map tl) Hm Hx Hy) as [Hidx _].
  destruct tl as [i m]. unfold TileXY in *. cbn [index map] in *. f_equal.
  rewrite Hidx. unfold TileX, TileY, MapSizeX. cbn [index map].
  rewrite Z.mul_comm. symmetry. apply Z.div_mod. destruct Hm. lia.
Qed.

(** The edges of an anchored area, without wrap-around. *)
Lemma Anchored_bounds (A : OTA.t) :
  OTA.Anchored A ->
  let m := MapOf (OTA.tile A) in
  0 <= TileX (OTA.tile A) < size_x m /\ 0 <= TileY (OTA.tile A) < size_y m /\
  1 <= OTA.w A < 2 ^ 16 /\ 1 <= OTA.h A < 2 ^ 16 /\
  0 < size_x m <= 2 ^ 14 /\ 0 < size_y m <= 2 ^ 14 /\
  to_uint (TileX (OTA.tile A) + OTA.w A - 1) = TileX (OTA.tile A) + OTA.w A - 1 /\
  to_uint (TileY (OTA.tile A) + OTA.h A - 1) = TileY (OTA.tile A) + OTA.h A - 1.
Proof.
  intros (Hm & (Hwt & Hw & Hh) & Hv & Hw0 & Hh0) m. unfold MapOf in *.
  pose proof (valid_coords _ Hm Hwt Hv) as [Hx Hy]. destruct Hm as [Hmx Hmy].
  subst m. rewrite !to_uint_small by lia. lia.
Qed.

(** The tile test of an anchored area in closed form. *)
Lemma Contains_anchored (A : OTA.t) (tl : GenericTileIndex) :
  OTA.Anchored A -> OTA.TileOf (MapOf (OTA.tile A)) tl ->
  OTA.Contains A tl =
  Some ((TileX (OTA.tile A) <=? TileX tl) && (TileX tl <? TileX (OTA.tile A) + OTA.w A) &&
        ((TileY (OTA.tile A) <=? TileY tl) && (TileY tl <? TileY (OTA.tile A) + OTA.h A))).
Proof.
  intros HA Ht. pose proof (Anchored_bounds A HA) as Hb. cbv zeta in Hb.
  destruct HA as (Hm & _). destruct (TileOf_coords _ tl Hm Ht) as [Htx Hty].
  pose proof (TileOf_same _ (OTA.tile A) tl eq_refl Ht) as Hsame.
  unfold OTA.Contains.
  destruct (Z.eqb_spec (OTA.w A) 0) as [? | _]; [lia|].
  destruct (Z.eqb_spec (OTA.h A) 0) as [? | _]; [lia|].
  cbn [negb andb assert]. rewrite Hsame. cbn [assert].
  f_equal. apply eq_true_iff_eq.
  rewrite !andb_true_iff, !Z.leb_le, !Z.ltb_lt.
  rewrite !IsInsideBS_spec by lia. lia.
Qed.

(** X1.  For an area with a valid origin and a tile of its map, the tile
    test returns true exactly when the tile's coordinates lie in
    [left, left + w) and [top, top + h); the unsigned comparison of
    [IsInsideBS] rejects every tile to the west or north of the origin. *)
Theorem Orthogonal_Contains_rectangle (A : OTA.t) (tl : GenericTileIndex) :
  OTA.Anchored A -> OTA.TileOf (MapOf (OTA.tile A)) tl ->
  exists r, OTA.Contains A tl = Some r /\
    (r = true <->
     TileX (OTA.tile A) <= TileX tl < TileX (OTA.tile A) + OTA.w A /\
     TileY (OTA.tile A) <= TileY tl < TileY (OTA.tile A) + OTA.h A).
Proof.
  intros HA Ht. rewrite (Contains_anchored A tl HA Ht).
  eexists. split; [reflexivity|].
  rewrite !andb_true_iff, !Z.leb_le, !Z.ltb_lt. lia.
Qed.

Ltac on_sample := vm_compute; repeat split; try reflexivity; try discriminate.

Lemma area_outer_OnMap : OTA.OnMap area_outer.
Proof. on_sample. Defined.

Lemma area_inner_OnMap : OTA.OnMap area_inner.
Proof. on_sample. Defined.

Lemma area_over_Anchored : OTA.Anchored area_over.
Proof. on_sample. Defined.

Lemma tile_on_map8 (x y : Z) :
  (0 <=? x) && (x <? 8) && (0 <=? y) && (y <? 8) = true -> OTA.TileOf map8 (TileXY x y map8).
Proof.
  rewrite !andb_true_iff, !Z.leb_le, !Z.ltb_lt. intros [[[Hx0 Hx1] Hy0] Hy1].
  destruct (TileXY_valid x y map8 map8_WF) as [Hv Hw]; cbn; try lia.
  repeat split; try apply Hw; try exact Hv.
Defined.

Lemma Orthogonal_Contains_rectangle_witness :
  exists r, OTA.Contains area_outer (TileXY 4 1 map8) = Some r /\
    (r = true <-> 1 <= 4 < 1 + 4 /\ 1 <= 1 < 1 + 4).
Proof.
  apply (Orthogonal_Contains_rectangle area_outer (TileXY 4 1 map8)
           (proj1 area_outer_OnMap) (tile_on_map8 4 1 eq_refl)).
Defined.

(** The area tests of anchored areas in closed form. *)
Lemma ContainsArea_anchored (A B : OTA.t) :
  OTA.Anchored A -> OTA.Anchored B -> MapOf (OTA.tile A) = MapOf (OTA.tile B) ->
  OTA.ContainsArea A B =
  Some ((TileX (OTA.tile B) >=? TileX (OTA.tile A)) &&
        (TileX (OTA.tile B) + OTA.w B - 1 <=? TileX (OTA.tile A) + OTA.w A - 1) &&
        (TileY (OTA.tile B) >=? TileY (OTA.tile A)) &&
        (TileY (OTA.tile B) + OTA.h B - 1 <=? TileY (OTA.tile A) + OTA.h A - 1)).
Proof.
  intros HA HB Hmap.
  pose proof (Anchored_bounds A HA) as (_ & _ & HwA & HhA & _ & _ & HrA & HbA).
  pose proof (Anchored_bounds B HB) as (_ & _ & HwB & HhB & _ & _ & HrB & HbB).
  unfold OTA.ContainsArea.
  destruct (Z.eqb_spec (OTA.w A) 0) as [? | _]; [lia|].
  destruct (Z.eqb_spec (OTA.h A) 0) as [? | _]; [lia|].
  destruct (Z.eqb_spec (OTA.w B) 0) as [? | _]; [lia|].
  destruct (Z.eqb_spec (OTA.h B) 0) as [? | _]; [lia|].
  cbn [negb andb orb assert].
  unfold IsSameMap, MapOf in *. rewrite Hmap, Map_eqb_refl. cbn [assert].
  rewrite HrA, HbA, HrB, HbB. reflexivity.
Qed.

Lemma Intersects_anchored (A B : OTA.t) :
  OTA.Anchored A -> OTA.Anchored B -> MapOf (OTA.tile A) = MapOf (OTA.tile B) ->
  OTA.Intersects A B =
  Some (negb ((TileX (OTA.tile B) >? TileX (OTA.tile A) + OTA.w A - 1) ||
              (TileX (OTA.tile B) + OTA.w B - 1 <? TileX (OTA.tile A)) ||
              (TileY (OTA.tile B) >? TileY (OTA.tile A) + OTA.h A - 1) ||
              (TileY (OTA.tile B) + OTA.h B - 1 <? TileY (OTA.tile A)))).
Proof.
  intros HA HB Hmap.
  pose proof (Anchored_bounds A HA) as (_ & _ & HwA & HhA & _ & _ & HrA & HbA).
  pose proof (Anchored_bounds B HB) as (_ & _ & HwB & HhB & _ & _ & HrB & HbB).
  unfold OTA.Intersects.
  destruct (Z.eqb_spec (OTA.w A) 0) as [? | _]; [lia|].
  destruct (Z.eqb_spec (OTA.h A) 0) as [? | _]; [lia|].
  destruct (Z.eqb_spec (OTA.w B) 0) as [? | _]; [lia|].
  destruct (Z.eqb_spec (OTA.h B) 0) as [? | _]; [lia|].
  cbn [negb andb orb assert].
  unfold IsSameMap, MapOf in *. rewrite Hmap, Map_eqb_refl. cbn [assert].
  rewrite HrA, HbA, HrB, HbB. reflexivity.
Qed.

(** X2.  For an area [A] with a valid origin and an area [B] that lies on
    the same map, [A.Contains(B)] returns true exactly when every tile of
    the map that [B] contains is contained in [A]. *)
Theorem Orthogonal_ContainsArea_pointwise (A B : OTA.t) :
  OTA.Anchored A -> OTA.OnMap B -> MapOf (OTA.tile A) = MapOf (OTA.tile B) ->
  (OTA.ContainsArea A B = Some true <->
   forall tl, OTA.TileOf (MapOf (OTA.tile B)) tl ->
              OTA.Contains B tl = Some true -> OTA.Contains A tl = Some true).
Proof.
  intros HA (HB & HxB & HyB) Hmap.
  rewrite (ContainsArea_anchored A B HA HB Hmap).
  pose proof (Anchored_bounds A HA) as (HxA0 & HyA0 & HwA & HhA & _).
  pose proof (Anchored_bounds B HB) as (HxB0 & HyB0 & HwB & HhB & Hsx & Hsy & _).
  cbv zeta in *. unfold MapSizeX, MapSizeY in *.
  split.
  - intros Hc tl Ht. injection Hc as Hc.
    rewrite (Contains_anchored B tl HB Ht).
    rewrite (Contains_anchored A tl HA) by (rewrite Hmap; exact Ht).
    intros Hin. injection Hin as Hin. f_equal.
    rewrite !andb_true_iff, ?Z.geb_le, ?Z.leb_le, ?Z.ltb_lt in *. lia.
  - intros Hall.
    pose proof (HB) as (HmB & _).
    set (m := MapOf (OTA.tile B)) in *.
    assert (forall x y, 0 <= x < size_x m -> 0 <= y < size_y m ->
                        OTA.TileOf m (TileXY x y m)) as Htile.
    { intros x y Hx Hy. destruct (TileXY_valid x y m HmB Hx Hy) as [Hv Hw].
      repeat split; try apply Hw; exact Hv. }
    pose proof (Htile (TileX (OTA.tile B)) (TileY (OTA.tile B)) HxB0 HyB0) as Hnw.
    assert (OTA.TileOf m (TileXY (TileX (OTA.tile B) + OTA.w B - 1)
                                 (TileY (OTA.tile B) + OTA.h B - 1) m)) as Hse
      by (apply Htile; lia).
    pose proof (Hall _ Hnw) as H1. pose proof (Hall _ Hse) as H2.
    rewrite (Contains_anchored B _ HB Hnw) in H1.
    rewrite (Contains_anchored B _ HB Hse) in H2.
    rewrite (Contains_anchored A _ HA) in H1 by (rewrite Hmap; exact Hnw).
    rewrite (Contains_anchored A _ HA) in H2 by (rewrite Hmap; exact Hse).
    rewrite !TileX_TileXY, !TileY_TileXY in H1, H2 by (assumption || lia).
    assert (forall b1 b2 : bool, (Some b1 = Some true -> Some b2 = Some true) ->
                                 b1 = true -> b2 = true) as Hsome
      by (intros b1 b2 H Hb; subst b1; specialize (H eq_refl); now injection H).
    apply Hsome in H1; [|rewrite !andb_true_iff, !Z.leb_le, !Z.ltb_lt; lia].
    apply Hsome in H2; [|rewrite !andb_true_iff, !Z.leb_le, !Z.ltb_lt; lia].
    f_equal. rewrite !andb_true_iff, ?Z.geb_le, ?Z.leb_le, ?Z.ltb_lt in *. lia.
Qed.

Lemma Orthogonal_ContainsArea_pointwise_witness :
  OTA.ContainsArea area_outer area_inner = Some true <->
  forall tl, OTA.TileOf map8 tl ->
             OTA.Contains area_inner tl = Some true -> OTA.Contains area_outer tl = Some true.
Proof.
  apply (Orthogonal_ContainsArea_pointwise area_outer area_inner
           (proj1 area_outer_OnMap) area_inner_OnMap eq_refl).
Defined.

(** X3.  Two areas with valid origins on one map intersect exactly when
    some tile of the map is contained in both. *)
Theorem Orthogonal_Intersects_common_tile (A B : OTA.t) :
  OTA.Anchored A -> OTA.Anchored B -> MapOf (OTA.tile A) = MapOf (OTA.tile B) ->
  (OTA.Intersects A B = Some true <->
   exists tl, OTA.TileOf (MapOf (OTA.tile A)) tl /\
              OTA.Contains A tl = Some true /\ OTA.Contains B tl = Some true).
Proof.
  intros HA HB Hmap.
  rewrite (Intersects_anchored A B HA HB Hmap).
  pose proof (Anchored_bounds A HA) as (HxA0 & HyA0 & HwA & HhA & _).
  pose proof (Anchored_bounds B HB) as (HxB0 & HyB0 & HwB & HhB & _).
  cbv zeta in *. pose proof HA as (HmA & _).
  set (m := MapOf (OTA.tile A)) in *. rewrite <- Hmap in HxB0, HyB0.
  split.
  - intros Hi. injection Hi as Hi.
    rewrite negb_true_iff, !orb_false_iff, !Z.gtb_ltb, !Z.ltb_ge in Hi.
    set (x := Z.max (TileX (OTA.tile A)) (TileX (OTA.tile B))).
    set (y := Z.max (TileY (OTA.tile A)) (TileY (OTA.tile B))).
    assert (0 <= x < size_x m /\ 0 <= y < size_y m) as [Hx Hy] by (subst x y; lia).
    destruct (TileXY_valid x y m HmA Hx Hy) as [Hv Hw].
    assert (OTA.TileOf m (TileXY x y m)) as Ht by (repeat split; try apply Hw; exact Hv).
    exists (TileXY x y m). split; [exact Ht|].
    rewrite (Contains_anchored A _ HA Ht).
    rewrite (Contains_anchored B _ HB) by (rewrite <- Hmap; exact Ht).
    rewrite TileX_TileXY, TileY_TileXY by assumption.
    split; f_equal; rewrite !andb_true_iff, !Z.leb_le, !Z.ltb_lt; subst x y; lia.
  - intros (tl & Ht & HinA & HinB).
    rewrite (Contains_anchored A _ HA Ht) in HinA.
    rewrite (Contains_anchored B _ HB) in HinB by (rewrite <- Hmap; exact Ht).
    injection HinA as HinA. injection HinB as HinB.
    rewrite !andb_true_iff, !Z.leb_le, !Z.ltb_lt in HinA, HinB.
    f_equal. rewrite negb_true_iff, !orb_false_iff, !Z.gtb_ltb, !Z.ltb_ge. lia.
Qed.

Lemma Orthogonal_Intersects_common_tile_witness :
  OTA.Intersects area_outer area_over = Some true <->
  exists tl, OTA.TileOf map8 tl /\
             OTA.Contains area_outer tl = Some true /\ OTA.Contains area_over tl = Some true.
Proof.
  apply (Orthogonal_Intersects_common_tile area_outer area_over
           (proj1 area_outer_OnMap) area_over_Anchored eq_refl).
Defined.

(** ** Orthogonal areas: [Add] *)

(** [Add] on an area that lies on the map, in closed form. *)
Lemma Add_OnMap_eq (A : OTA.t) (tl : GenericTileIndex) :
  OTA.OnMap A -> OTA.TileOf (MapOf (OTA.tile A)) tl ->
  let sx := Z.min (TileX tl) (TileX (OTA.tile A)) in
  let sy := Z.min (TileY tl) (TileY (OTA.tile A)) in
  let ex := Z.max (TileX tl) (TileX (OTA.tile A) + OTA.w A - 1) in
  let ey := Z.max (TileY tl) (TileY (OTA.tile A) + OTA.h A - 1) in
  OTA.Add tl A = OTA.mk (TileXY sx sy (MapOf (OTA.tile A))) (ex - sx + 1) (ey - sy + 1) /\
  0 <= sx /\ ex < size_x (MapOf (OTA.tile A)) /\
  0 <= sy /\ ey < size_y (MapOf (OTA.tile A)).
Proof.
  intros (HA & HxA & HyA) Ht sx sy ex ey.
  pose proof (Anchored_bounds A HA) as (HxA0 & HyA0 & HwA & HhA & Hsx & Hsy & HrA & HbA).
  cbv zeta in *. unfold MapSizeX, MapSizeY in *.
  pose proof HA as (HmA & _ & HvA & _).
  destruct (TileOf_coords _ tl HmA Ht) as [Htx Hty].
  destruct Ht as (_ & Hmap & _).
  split; [|subst sx sy ex ey; lia].
  unfold OTA.Add. rewrite HvA. cbn [negb]. rewrite HrA, HbA.
  fold sx sy ex ey. unfold MapOf in *. rewrite Hmap.
  rewrite !to_uint_small by (subst sx sy ex ey; lia).
  rewrite !to_uint16_small by (subst sx sy ex ey; lia). reflexivity.
Qed.

(** X4.  Adding a tile of the map to an area that lies on the map gives
    an area that lies on the map, contains the added tile, contains every
    tile that the area contained before, and is at least as wide and as
    high. *)
Theorem Orthogonal_Add_grows (A : OTA.t) (tl : GenericTileIndex) :
  OTA.OnMap A -> OTA.TileOf (MapOf (OTA.tile A)) tl ->
  OTA.OnMap (OTA.Add tl A) /\
  MapOf (OTA.tile (OTA.Add tl A)) = MapOf (OTA.tile A) /\
  OTA.Contains (OTA.Add tl A) tl = Some true /\
  (forall u, OTA.TileOf (MapOf (OTA.tile A)) u ->
             OTA.Contains A u = Some true -> OTA.Contains (OTA.Add tl A) u = Some true) /\
  OTA.w A <= OTA.w (OTA.Add tl A) /\ OTA.h A <= OTA.h (OTA.Add tl A).
Proof.
  intros HA Ht.
  destruct (Add_OnMap_eq A tl HA Ht) as (Heq & Hsx0 & Hex & Hsy0 & Hey). cbv zeta in *.
  destruct HA as (HA & HxA & HyA).
  pose proof (Anchored_bounds A HA) as (HxA0 & HyA0 & HwA & HhA & Hsx & Hsy & _).
  cbv zeta in *. unfold MapSizeX, MapSizeY in *.
  pose proof HA as (HmA & _).
  destruct (TileOf_coords _ tl HmA Ht) as [Htx Hty].
  set (m := MapOf (OTA.tile A)) in *.
  set (sx := Z.min (TileX tl) (TileX (OTA.tile A))) in *.
  set (sy := Z.min (TileY tl) (TileY (OTA.tile A))) in *.
  set (ex := Z.max (TileX tl) (TileX (OTA.tile A) + OTA.w A - 1)) in *.
  set (ey := Z.max (TileY tl) (TileY (OTA.tile A) + OTA.h A - 1)) in *.
  assert (0 <= sx < size_x m /\ 0 <= sy < size_y m) as [Hsxr Hsyr] by (subst sx sy ex ey; lia).
  destruct (TileXY_valid sx sy m HmA Hsxr Hsyr) as [Hv Hw].
  assert (OTA.Anchored (OTA.Add tl A)) as HA'.
  { rewrite Heq. unfold OTA.Anchored, OTA.WF. cbn [OTA.tile OTA.w OTA.h].
    unfold MapOf. cbn [map TileXY].
    repeat split; try apply Hw; try exact Hv; try apply HmA; subst sx sy ex ey; lia. }
  assert (MapOf (OTA.tile (OTA.Add tl A)) = m) as Hmap' by (rewrite Heq; reflexivity).
  assert (TileX (OTA.tile (OTA.Add tl A)) = sx /\ TileY (OTA.tile (OTA.Add tl A)) = sy /\
          OTA.w (OTA.Add tl A) = ex - sx + 1 /\ OTA.h (OTA.Add tl A) = ey - sy + 1)
    as (Hx' & Hy' & Hw' & Hh').
  { rewrite Heq. cbn [OTA.tile OTA.w OTA.h].
    rewrite TileX_TileXY, TileY_TileXY by assumption. auto. }
  split; [|split; [|split; [|split]]].
  - split; [exact HA'|]. rewrite Hmap', Hx', Hy', Hw', Hh'. unfold MapSizeX, MapSizeY. lia.
  - exact Hmap'.
  - rewrite (Contains_anchored _ tl HA') by (rewrite Hmap'; exact Ht).
    rewrite Hx', Hy', Hw', Hh'. f_equal.
    rewrite !andb_true_iff, !Z.leb_le, !Z.ltb_lt. subst sx sy ex ey. lia.
  - intros u Hu Hin.
    rewrite (Contains_anchored A u HA Hu) in Hin. injection Hin as Hin.
    rewrite (Contains_anchored _ u HA') by (rewrite Hmap'; exact Hu).
    rewrite Hx', Hy', Hw', Hh'. f_equal.
    rewrite !andb_true_iff, !Z.leb_le, !Z.ltb_lt in *. subst sx sy ex ey. lia.
  - rewrite Hw', Hh'. subst sx sy ex ey. lia.
Qed.

Lemma Orthogonal_Add_grows_witness :
  OTA.OnMap (OTA.Add (TileXY 6 0 map8) area_inner) /\
  MapOf (OTA.tile (OTA.Add (TileXY 6 0 map8) area_inner)) = map8 /\
  OTA.Contains (OTA.Add (TileXY 6 0 map8) area_inner) (TileXY 6 0 map8) = Some true /\
  (forall u, OTA.TileOf map8 u ->
             OTA.Contains area_inner u = Some true ->
             OTA.Contains (OTA.Add (TileXY 6 0 map8) area_inner) u = Some true) /\
  OTA.w area_inner <= OTA.w (OTA.Add (TileXY 6 0 map8) area_inner) /\
  OTA.h area_inner <= OTA.h (OTA.Add (TileXY 6 0 map8) area_inner).
Proof.
  apply (Orthogonal_Add_grows area_inner (TileXY 6 0 map8)
           area_inner_OnMap (tile_on_map8 6 0 eq_refl)).
Defined.

(** X5.  Adding a tile that an area on the map already contains leaves
    the area as it is. *)
Theorem Orthogonal_Add_contained (A : OTA.t) (tl : GenericTileIndex) :
  OTA.OnMap A -> OTA.TileOf (MapOf (OTA.tile A)) tl ->
  OTA.Contains A tl = Some true -> OTA.Add tl A = A.
Proof.
  intros HA Ht Hin.
  destruct (Add_OnMap_eq A tl HA Ht) as (Heq & _). cbv zeta in Heq.
  destruct HA as (HA & _).
  rewrite (Contains_anchored A tl HA Ht) in Hin. injection Hin as Hin.
  rewrite !andb_true_iff, !Z.leb_le, !Z.ltb_lt in Hin.
  rewrite Heq.
  destruct HA as (Hm & (Hwt & _) & Hv & _). unfold MapOf in *.
  replace (Z.min (TileX tl) (TileX (OTA.tile A))) with (TileX (OTA.tile A)) by lia.
  replace (Z.min (TileY tl) (TileY (OTA.tile A))) with (TileY (OTA.tile A)) by lia.
  replace (Z.max (TileX tl) (TileX (OTA.tile A) + OTA.w A - 1))
    with (TileX (OTA.tile A) + OTA.w A - 1) by lia.
  replace (Z.max (TileY tl) (TileY (OTA.tile A) + OTA.h A - 1))
    with (TileY (OTA.tile A) + OTA.h A - 1) by lia.
  rewrite (TileXY_of_coords _ Hm Hwt Hv).
  destruct A as [o w h]. cbn [OTA.tile OTA.w OTA.h]. f_equal; ring.
Qed.

Lemma Orthogonal_Add_contained_witness :
  OTA.Add (TileXY 3 4 map8) area_inner = area_inner.
Proof.
  apply (Orthogonal_Add_contained area_inner (TileXY 3 4 map8)
           area_inner_OnMap (tile_on_map8 3 4 eq_refl)).
  reflexivity.
Defined.

(** X6.  The constructor from two corners builds the area that two calls
    of [Add], first with one corner and then with the other, build from an
    area whose origin is no tile, whatever its width and height. *)
Theorem Orthogonal_Construct_as_Add (s e : GenericTileIndex) (w0 h0 : Z) :
  MapWF (MapOf s) -> TileWF s -> TileWF e ->
  IsSameMap s e = true -> IsValidTileIndex s = true -> IsValidTileIndex e = true ->
  OTA.Construct s e =
  Some (OTA.Add e (OTA.Add s (OTA.mk (mkTile INVALID_TILE_INDEX (MapOf s)) w0 h0))).
Proof.
  intros Hm Hws Hwe Hsame Hvs Hve.
  rewrite (Orthogonal_Construct_eq s e Hm Hws Hwe Hsame Hvs Hve).
  pose proof (IsSameMap_eq _ _ Hsame) as Hmap. unfold MapOf in *.
  assert (OTA.Add s (OTA.mk (mkTile INVALID_TILE_INDEX (map s)) w0 h0) = OTA.mk s 1 1) as ->.
  { unfold OTA.Add. cbn [OTA.tile]. now rewrite INVALID_not_valid. }
  assert (OTA.OnMap (OTA.mk s 1 1)) as Hon.
  { pose proof (valid_coords s Hm Hws Hvs) as [Hx Hy].
    unfold OTA.OnMap, OTA.Anchored, OTA.WF, MapOf, MapSizeX, MapSizeY.
    cbn [OTA.tile OTA.w OTA.h]. repeat split; try apply Hws; try apply Hm; try exact Hvs; lia. }
  assert (OTA.TileOf (MapOf (OTA.tile (OTA.mk s 1 1))) e) as Hte
    by (unfold MapOf; cbn [OTA.tile]; repeat split; try apply Hwe; auto).
  destruct (Add_OnMap_eq _ e Hon Hte) as (Heq & _). cbv zeta in Heq.
  rewrite Heq. cbn [OTA.tile OTA.w OTA.h]. unfold MapOf.
  f_equal. f_equal; [f_equal|..]; lia.
Qed.

Lemma Orthogonal_Construct_as_Add_witness :
  OTA.Construct (TileXY 5 3 map8) (TileXY 2 6 map8) =
  Some (OTA.Add (TileXY 2 6 map8) (OTA.Add (TileXY 5 3 map8) (OTA.empty map8))).
Proof.
  apply (Orthogonal_Construct_as_Add (TileXY 5 3 map8) (TileXY 2 6 map8) 0 0); on_sample.
Defined.

(** ** Orthogonal areas: [ClampToMap] *)

(** X7.  On an area with a valid origin, [ClampToMap] keeps the origin,
    never widens, leaves an area that ends at or before the east and south
    edges, changes nothing when called again, and gives every tile of the
    map the same answer from the tile test as before.  On an area whose
    origin is not valid it fails its assertion. *)
Theorem Orthogonal_ClampToMap_fits (A : OTA.t) :
  MapWF (MapOf (OTA.tile A)) -> OTA.WF A ->
  (IsValidTileIndex (OTA.tile A) = false -> OTA.ClampToMap A = None) /\
  (IsValidTileIndex (OTA.tile A) = true ->
   exists A',
     OTA.ClampToMap A = Some A' /\
     OTA.tile A' = OTA.tile A /\
     OTA.w A' = Z.min (OTA.w A) (MapSizeX (MapOf (OTA.tile A)) - TileX (OTA.tile A)) /\
     OTA.h A' = Z.min (OTA.h A) (MapSizeY (MapOf (OTA.tile A)) - TileY (OTA.tile A)) /\
     TileX (OTA.tile A') + OTA.w A' <= MapSizeX (MapOf (OTA.tile A)) /\
     TileY (OTA.tile A') + OTA.h A' <= MapSizeY (MapOf (OTA.tile A)) /\
     OTA.ClampToMap A' = Some A' /\
     (forall tl, OTA.TileOf (MapOf (OTA.tile A)) tl ->
                 OTA.Contains A' tl = OTA.Contains A tl)).
Proof.
  intros Hm (Hwt & Hw & Hh). split.
  - intros Hinv. unfold OTA.ClampToMap. now rewrite Hinv.
  - intros Hv. unfold MapOf in *.
    pose proof (valid_coords _ Hm Hwt Hv) as [Hx Hy]. pose proof Hm as [Hmx Hmy].
    assert (forall B, OTA.tile B = OTA.tile A -> 0 <= OTA.w B < 2 ^ 16 ->
                      0 <= OTA.h B < 2 ^ 16 ->
                      OTA.ClampToMap B =
                      Some (OTA.mk (OTA.tile A)
                              (Z.min (OTA.w B) (size_x (map (OTA.tile A)) - TileX (OTA.tile A)))
                              (Z.min (OTA.h B) (size_y (map (OTA.tile A)) - TileY (OTA.tile A)))))
      as Hclamp.
    { intros B HtB HwB HhB. unfold OTA.ClampToMap, MapOf, MapSizeX, MapSizeY.
      rewrite HtB, Hv. cbn [assert].
      rewrite !to_int_to_uint by lia. rewrite !to_uint16_small by lia. reflexivity. }
    eexists. split; [apply Hclamp; [reflexivity | exact Hw | exact Hh]|].
    cbn [OTA.tile OTA.w OTA.h]. unfold MapSizeX, MapSizeY.
    split; [reflexivity|]. split; [reflexivity|]. split; [reflexivity|].
    split; [lia|]. split; [lia|]. split.
    + rewrite Hclamp; cbn [OTA.tile OTA.w OTA.h]; try reflexivity; try lia.
      f_equal. f_equal; lia.
    + intros tl Ht. destruct (TileOf_coords _ tl Hm Ht) as [Htx Hty].
      pose proof (TileOf_same _ (OTA.tile A) tl eq_refl Ht) as Hsame.
      unfold OTA.Contains. cbn [OTA.tile OTA.w OTA.h].
      destruct (Z.eqb_spec (OTA.w A) 0) as [Hw0 | Hw0].
      { rewrite Hw0. replace (Z.min 0 _) with 0 by lia. reflexivity. }
      destruct (Z.eqb_spec (Z.min (OTA.w A) (size_x (map (OTA.tile A)) - TileX (OTA.tile A))) 0);
        [lia|].
      destruct (Z.eqb_spec (OTA.h A) 0) as [Hh0 | Hh0].
      { rewrite Hh0. replace (Z.min 0 _) with 0 by lia. reflexivity. }
      destruct (Z.eqb_spec (Z.min (OTA.h A) (size_y (map (OTA.tile A)) - TileY (OTA.tile A))) 0);
        [lia|].
      cbn [negb andb assert]. rewrite Hsame. cbn [assert].
      f_equal. apply eq_true_iff_eq.
      rewrite !andb_true_iff, !IsInsideBS_spec by lia. lia.
Qed.

Lemma Orthogonal_ClampToMap_fits_witness :
  OTA.ClampToMap (OTA.mk (mkTile 64 map8) 2 2) = None /\
  exists A',
    OTA.ClampToMap area_over = Some A' /\
    OTA.tile A' = TileXY 5 6 map8 /\ OTA.w A' = 3 /\ OTA.h A' = 2 /\
    TileX (OTA.tile A') + OTA.w A' <= 8 /\ TileY (OTA.tile A') + OTA.h A' <= 8 /\
    OTA.ClampToMap A' = Some A' /\
    (forall tl, OTA.TileOf map8 tl -> OTA.Contains A' tl = OTA.Contains area_over tl).
Proof.
  split.
  - apply (proj1 (Orthogonal_ClampToMap_fits (OTA.mk (mkTile 64 map8) 2 2)
                    map8_WF ltac:(on_sample))).
    reflexivity.
  - apply (proj2 (Orthogonal_ClampToMap_fits area_over map8_WF ltac:(on_sample))).
    reflexivity.
Defined.

(** ** Diagonal areas: the corners *)

(** X8.  The diagonal area built from two corners contains a tile of the
    map exactly when the tile's rotated coordinates [y + x] and [y - x] lie
    between those of the two corners, both ends included; so the area
    built from the corners in the other order contains the same tiles. *)
Theorem Diagonal_Contains_between_corners (s e tl : GenericTileIndex) :
  MapWF (MapOf s) -> TileWF s -> TileWF e ->
  IsSameMap s e = true -> IsValidTileIndex s = true -> IsValidTileIndex e = true ->
  OTA.TileOf (MapOf s) tl ->
  exists A A' r,
    DiagonalTileAreaT.Construct s e = Some A /\
    DiagonalTileAreaT.Construct e s = Some A' /\
    DiagonalTileAreaT.Contains A tl = Some r /\
    DiagonalTileAreaT.Contains A' tl = Some r /\
    (r = true <->
     Z.min (TileY s + TileX s) (TileY e + TileX e) <= TileY tl + TileX tl
       <= Z.max (TileY s + TileX s) (TileY e + TileX e) /\
     Z.min (TileY s - TileX s) (TileY e - TileX e) <= TileY tl - TileX tl
       <= Z.max (TileY s - TileX s) (TileY e - TileX e)).
Proof.
  intros Hm Hws Hwe Hsame Hvs Hve (Hwt & Hmt & Hvt). unfold MapOf in *.
  pose proof (IsSameMap_eq _ _ Hsame) as Hmap.
  assert (IsSameMap e s = true) as Hsame' by (unfold IsSameMap in *; now rewrite Map_eqb_sym).
  assert (MapWF (MapOf e)) as Hme by (unfold MapOf; rewrite <- Hmap; exact Hm).
  destruct (Diagonal_Construct_eq s e Hm Hws Hwe Hsame Hvs Hve) as [Hc _].
  destruct (Diagonal_Construct_eq e s Hme Hwe Hws Hsame' Hve Hvs) as [Hc' _].
  cbv zeta in Hc, Hc'.
  set (A := DiagonalTileAreaT.mk s _ _) in Hc. set (A' := DiagonalTileAreaT.mk e _ _) in Hc'.
  assert (IsSameMap s tl = true) as Hst by (unfold IsSameMap; rewrite Hmt; apply Map_eqb_refl).
  assert (IsSameMap e tl = true) as Het
    by (unfold IsSameMap; rewrite Hmt, <- Hmap; apply Map_eqb_refl).
  destruct (Diagonal_Contains_iff A tl Hm Hws Hwt Hvs Hvt Hst) as (r & Hr & Hiff).
  destruct (Diagonal_Contains_iff A' tl Hme Hwe Hwt Hve Hvt Het) as (r' & Hr' & Hiff').
  rewrite !in_spec_range in Hiff, Hiff'. subst A A'.
  cbn [DiagonalTileAreaT.tile DiagonalTileAreaT.a DiagonalTileAreaT.b] in Hiff, Hiff'.
  assert (r = true <->
          Z.min (TileY s + TileX s) (TileY e + TileX e) <= TileY tl + TileX tl
            <= Z.max (TileY s + TileX s) (TileY e + TileX e) /\
          Z.min (TileY s - TileX s) (TileY e - TileX e) <= TileY tl - TileX tl
            <= Z.max (TileY s - TileX s) (TileY e - TileX e)) as Hbetween.
  { rewrite Hiff.
    destruct (Z.gtb_spec (TileY e + TileX e - (TileY s + TileX s)) 0),
             (Z.gtb_spec (TileY e - TileX e - (TileY s - TileX s)) 0); lia. }
  assert (r' = r) as ->.
  { apply eq_true_iff_eq. rewrite Hbetween, Hiff'.
    destruct (Z.gtb_spec (TileY s + TileX s - (TileY e + TileX e)) 0),
             (Z.gtb_spec (TileY s - TileX s - (TileY e - TileX e)) 0); lia. }
  eexists _, _, r.
  split; [exact Hc|]. split; [exact Hc'|]. split; [exact Hr|]. split; [exact Hr'|].
  exact Hbetween.
Qed.

Lemma Diagonal_Contains_between_corners_witness :
  exists A A' r,
    DiagonalTileAreaT.Construct (TileXY 1 5 map8) (TileXY 4 3 map8) = Some A /\
    DiagonalTileAreaT.Construct (TileXY 4 3 map8) (TileXY 1 5 map8) = Some A' /\
    DiagonalTileAreaT.Contains A (TileXY 3 4 map8) = Some r /\
    DiagonalTileAreaT.Contains A' (TileXY 3 4 map8) = Some r /\
    (r = true <-> Z.min 6 7 <= 7 <= Z.max 6 7 /\ Z.min 4 (-1) <= 1 <= Z.max 4 (-1)).
Proof.
  apply (Diagonal_Contains_between_corners (TileXY 1 5 map8) (TileXY 4 3 map8)
           (TileXY 3 4 map8)); try (apply (tile_on_map8 3 4 eq_refl)); on_sample.
Defined.

(** ** The diagonal iterator: every tile once *)

Lemma Inv_eq (ta : DiagonalTileAreaT.t) (c1 c2 : t) :
  Inv ta c1 -> Inv ta c2 -> a_cur c1 = a_cur c2 -> b_cur c1 = b_cur c2 -> c1 = c2.
Proof.
  intros (Hx1 & Hy1 & Ha1 & Hb1 & _) (Hx2 & Hy2 & Ha2 & Hb2 & _) Ha Hb.
  destruct c1, c2. cbn in *. congruence.
Qed.

Lemma before_irrefl (c : t) : ~ before c c.
Proof. unfold before. lia. Qed.

Lemma before_trans (c1 c2 c3 : t) : before c1 c2 -> before c2 c3 -> before c1 c3.
Proof. unfold before. lia. Qed.

Lemma rem2_even (z : Z) : Z.rem z 2 = 0 -> exists k, z = 2 * k.
Proof. intros H. exists (Z.quot z 2). Z.to_euclidean_division_equations. lia. Qed.

Lemma rem2_abs_even (z : Z) : Z.rem (Z.abs z) 2 = 0 -> exists k, z = 2 * k.
Proof. intros H. exists (Z.quot z 2). Z.to_euclidean_division_equations. lia. Qed.

Lemma rem2_abs_odd (z : Z) : Z.rem (Z.abs z) 2 <> 0 -> exists k, z = 2 * k + 1.
Proof.
  intros H. exists (if z <? 0 then Z.quot z 2 - 1 else Z.quot z 2).
  destruct (Z.ltb_spec z 0); Z.to_euclidean_division_equations; lia.
Qed.

(** Under the invariant, absolute values are decided by the signs of the
    terminal coordinates. *)
Ltac no_abs :=
  repeat match goal with
         | |- context [Z.abs ?z] =>
             first [rewrite (Z.abs_eq z) by lia | rewrite (Z.abs_neq z) by lia]
         | H : context [Z.abs ?z] |- _ =>
             first [rewrite (Z.abs_eq z) in H by lia | rewrite (Z.abs_neq z) in H by lia]
         end.

(** One pass through the loop body goes to the next position of the
    visiting order: it moves forward and jumps over no position that the
    invariant allows. *)
Lemma move_next_position (ta : DiagonalTileAreaT.t) (c T : t) :
  Inv ta c -> b_cur c <> b_max c ->
  Inv ta T -> b_cur T <> b_max T -> before c T ->
  before c (move c) /\
  ((a_cur T = a_cur (move c) /\ b_cur T = b_cur (move c)) \/ before (move c) T).
Proof.
  unfold Inv, before.
  intros (_ & _ & Ham & Hbm & Ha & Hb & Hp) Hne
         (_ & _ & HamT & HbmT & HaT & HbT & HpT) HneT Hbefore.
  specialize (Hp Hne). specialize (HpT HneT).
  apply rem2_even in Hp. destruct Hp as [k Hk].
  apply rem2_even in HpT. destruct HpT as [kT HkT].
  rewrite <- Ham in HamT. rewrite <- Hbm in HbmT. rewrite HamT in HaT. rewrite HbmT in HbT, HneT.
  clear Ham Hbm HamT HbmT.
  unfold move.
  assert ((0 < a_max c /\ 0 <= a_cur c < a_max c /\ 0 <= a_cur T < a_max c) \/
          (a_max c < 0 /\ a_max c < a_cur c <= 0 /\ a_max c < a_cur T <= 0)) as Hsa by lia.
  assert ((0 < b_max c /\ 0 <= b_cur c < b_max c /\ 0 <= b_cur T < b_max c) \/
          (b_max c < 0 /\ b_max c < b_cur c <= 0 /\ b_max c < b_cur T <= 0)) as Hsb by lia.
  clear Ha HaT Hb HbT.
  destruct Hsa as [(Hsa & Ha & HaT) | (Hsa & Ha & HaT)];
    destruct Hsb as [(Hsb & Hb & HbT) | (Hsb & Hb & HbT)];
    no_abs;
    (destruct (Z.eqb_spec (a_max c) 1) as [H1 | H1];
     [|destruct (Z.eqb_spec (a_max c) (-1)) as [H2 | H2]]; cbn [orb]; try lia);
    (destruct (Z.gtb_spec (a_max c) 0); try lia);
    (destruct (Z.gtb_spec (b_max c) 0); try lia);
    cbn [a_cur b_cur];
    try (match goal with
         | |- context [Z.geb ?x ?y] => destruct (Z.geb_spec x y)
         | |- context [Z.leb ?x ?y] => destruct (Z.leb_spec x y)
         end; cbn [a_cur b_cur];
         [match goal with
          | |- context [Z.rem (Z.abs ?z) 2 =? 0] =>
              destruct (Z.eqb_spec (Z.rem (Z.abs z) 2) 0) as [He | He];
              [apply rem2_abs_even in He | apply rem2_abs_odd in He];
              destruct He as [ke Hke]; cbn [negb]
          end|]);
    no_abs; lia.
Qed.

(** The loop goes forward and stops at or before every position whose tile
    is valid. *)
Lemma Advance_loop_next (ta : DiagonalTileAreaT.t) (my_map : Map) (T : t) (fuel : nat) :
  Inv ta T -> b_cur T <> b_max T ->
  IsValidTileIndex (mkTile (convert T my_map) my_map) = true ->
  forall c c' i',
    Inv ta c -> b_cur c <> b_max c ->
    Advance_loop fuel c my_map = Some (c', i') ->
    before c c' /\ (before c T -> T = c' \/ before c' T).
Proof.
  intros HT HneT HvT.
  induction fuel as [|fuel IH]; intros c c' i' HI Hne Hrun; [discriminate|].
  cbn [Advance_loop] in Hrun.
  destruct (move_Inv ta c HI Hne) as [HI' _].
  assert (before c (move c)) as Hfwd.
  { pose proof (move_Inv ta c HI Hne) as [_ Hlt].
    unfold before. unfold Inv in HI, HI'.
    destruct (Z.eq_dec (b_cur (move c)) (b_cur c)) as [Hb | Hb].
    - right. split; [now symmetry|]. unfold passes_left in Hlt.
      destruct HI as (_ & _ & Ham & _), HI' as (_ & _ & Ham' & _).
      rewrite Hb in Hlt. replace (a_max (move c)) with (a_max c) in Hlt by congruence.
      replace (b_max (move c)) with (b_max c) in Hlt
        by (unfold move; repeat match goal with |- context [if ?b then _ else _] =>
                                                  destruct b end; reflexivity).
      lia.
    - left. unfold move in *.
      destruct ((a_max c =? 1) || (a_max c =? -1)); cbn [b_cur] in *.
      + destruct HI as (_ & _ & _ & _ & _ & Hbr & _). destruct (b_max c >? 0); lia.
      + destruct (if a_max c >? 0 then _ else _); cbn [b_cur] in *; [|contradiction].
        destruct HI as (_ & _ & _ & _ & _ & Hbr & _). destruct (Z.gtb_spec (b_max c) 0); lia. }
  assert (before c T -> T = move c \/ before (move c) T) as Hnext.
  { intros Hb. destruct (move_next_position ta c T HI Hne HT HneT Hb) as [_ [[Ha Hbb] | Hb']].
    - left. apply (Inv_eq ta); assumption.
    - now right. }
  destruct (IsValidTileIndex (mkTile (convert (move c) my_map) my_map)) eqn:Hv;
    cbn [negb andb] in Hrun.
  - injection Hrun as <- <-. auto.
  - destruct (Z.eqb_spec (b_max (move c)) (b_cur (move c))) as [He | He];
      cbn [negb] in Hrun.
    + injection Hrun as <- <-. auto.
    + destruct (IH (move c) c' i' HI' (not_eq_sym He) Hrun) as [Hfwd' Hnext'].
      split; [exact (before_trans _ _ _ Hfwd Hfwd')|].
      intros Hb. destruct (Hnext Hb) as [-> | Hb']; [|auto].
      rewrite Hv in HvT. discriminate.
Qed.

(** A call of [Advance] goes forward and stops at or before every position
    whose tile is valid. *)
Lemma Advance_next (ta : DiagonalTileAreaT.t) (T : t) (fuel : nat)
    (c c' : t) (i i' : RawTileIndex) :
  let my_map := MapOf (DiagonalTileAreaT.tile ta) in
  Inv ta T -> b_cur T <> b_max T ->
  IsValidTileIndex (mkTile (convert T my_map) my_map) = true ->
  Inv ta c -> Inv_index my_map c i ->
  Advance fuel i my_map c = Some (c', i') ->
  before c c' /\ (before c T -> T = c' \/ before c' T).
Proof.
  intros my_map HT HneT HvT HI [Hdone _] Hadv. unfold Advance in Hadv.
  destruct (Z.eqb_spec i INVALID_TILE_INDEX) as [Hi | Hi]; cbn [negb assert] in Hadv;
    [discriminate|].
  assert (b_cur c <> b_max c) as Hne by (intros Hb; apply Hi, Hdone, Hb).
  destruct (Advance_loop fuel c my_map) as [[c1 i1]|] eqn:Hloop; [|discriminate].
  injection Hadv as <- _.
  exact (Advance_loop_next ta my_map T fuel HT HneT HvT c c1 i1 HI Hne Hloop).
Qed.

(** Two positions that convert to the same valid tile are the same. *)
Lemma convert_inj (ta : DiagonalTileAreaT.t) (T1 T2 : t) :
  let my_map := MapOf (DiagonalTileAreaT.tile ta) in
  MapWF my_map -> DiagonalTileAreaT.WF ta ->
  Inv ta T1 -> b_cur T1 <> b_max T1 ->
  Inv ta T2 -> b_cur T2 <> b_max T2 ->
  IsValidTileIndex (mkTile (convert T1 my_map) my_map) = true ->
  convert T1 my_map = convert T2 my_map -> T1 = T2.
Proof.
  intros my_map Hm Hwf H1 Hne1 H2 Hne2 Hv1 Heq.
  assert (IsValidTileIndex (mkTile (convert T2 my_map) my_map) = true) as Hv2
    by (rewrite <- Heq; exact Hv1).
  destruct (convert_valid ta T1 Hm Hwf H1 Hne1 Hv1) as (Hx1 & Hy1 & He1).
  destruct (convert_valid ta T2 Hm Hwf H2 Hne2 Hv2) as (Hx2 & Hy2 & He2).
  fold my_map in He1, He2. rewrite Heq, He2 in He1.
  pose proof (f_equal TileX He1) as HX. pose proof (f_equal TileY He1) as HY.
  rewrite !TileX_TileXY in HX by assumption. rewrite !TileY_TileXY in HY by assumption.
  apply (Inv_eq ta); try assumption;
    destruct H1 as (Hbx1 & Hby1 & _ & _ & _ & _ & Hp1);
    destruct H2 as (Hbx2 & Hby2 & _ & _ & _ & _ & Hp2);
    specialize (Hp1 Hne1); specialize (Hp2 Hne2);
    apply rem2_even in Hp1; destruct Hp1 as [k1 Hk1];
    apply rem2_even in Hp2; destruct Hp2 as [k2 Hk2];
    rewrite Hbx1, Hby1, Hbx2, Hby2 in *;
    replace (b_cur T1 + a_cur T1) with (2 * (k1 + b_cur T1)) in HY by lia;
    replace (b_cur T2 + a_cur T2) with (2 * (k2 + b_cur T2)) in HY by lia;
    rewrite Hk1, Hk2 in HX;
    rewrite !(Z.mul_comm 2), !Z.quot_mul in HX, HY by lia; lia.
Qed.

(** The controller standing on a tile of the area satisfies the invariant
    and converts to that tile. *)
Lemma standing_on_Inv (ta : DiagonalTileAreaT.t) (tl : GenericTileIndex) :
  let my_map := MapOf (DiagonalTileAreaT.tile ta) in
  MapWF my_map -> DiagonalTileAreaT.WF ta -> OTA.TileOf my_map tl ->
  DiagonalTileAreaT.Contains ta tl = Some true ->
  Inv ta (standing_on ta tl) /\
  b_cur (standing_on ta tl) <> b_max (standing_on ta tl) /\
  convert (standing_on ta tl) my_map = index tl.
Proof.
  intros my_map Hm (Hwo & Hvo & Ha0 & Hb0 & Har & Hbr) Ht Hin.
  destruct (TileOf_coords _ tl Hm Ht) as [Htx Hty].
  pose proof (valid_coords _ Hm Hwo Hvo) as [Hox Hoy].
  pose proof (TileOf_same _ (DiagonalTileAreaT.tile ta) tl eq_refl Ht) as Hsame.
  destruct Ht as (Hwt & Hmt & Hvt).
  destruct (Diagonal_Contains_iff ta tl Hm Hwo Hwt Hvo Hvt Hsame) as (r & Hr & Hiff).
  rewrite Hr in Hin. injection Hin as ->.
  destruct (proj1 Hiff eq_refl) as [HA HB]. rewrite in_spec_range in HA, HB.
  set (o := DiagonalTileAreaT.tile ta) in *.
  assert (TileY tl + TileX tl - (TileY o + TileX o)
          - (TileY tl - TileX tl - (TileY o - TileX o)) = (TileX tl - TileX o) * 2) as Hd by ring.
  assert (TileY tl - TileX tl - (TileY o - TileX o)
          + (TileY tl + TileX tl - (TileY o + TileX o)) = (TileY tl - TileY o) * 2) as Hs by ring.
  split; [|split].
  - unfold Inv, standing_on. fold o. cbn [base_x base_y a_cur b_cur a_max b_max].
    repeat split; try reflexivity; try lia.
    intros _. rewrite Hd. apply Z.rem_mul. lia.
  - unfold standing_on. fold o. cbn [b_cur b_max]. lia.
  - unfold convert, standing_on. fold o. cbn [base_x base_y a_cur b_cur].
    rewrite Hd, Hs, !Z.quot_mul by lia.
    replace (TileX o + (TileX tl - TileX o)) with (TileX tl) by ring.
    replace (TileY o + (TileY tl - TileY o)) with (TileY tl) by ring.
    pose proof Hm as [Hmx Hmy]. fold my_map in Htx, Hty.
    rewrite !to_uint_small by lia. unfold MapSizeX, MapSizeY.
    destruct (Z.geb_spec (TileX tl) (size_x my_map)); [lia|].
    destruct (Z.geb_spec (TileY tl) (size_y my_map)); [lia|]. cbn [orb].
    rewrite <- Hmt. rewrite TileXY_of_coords; [reflexivity | rewrite Hmt; exact Hm | | ]; assumption.
Qed.

(** A run that reaches the done sentinel collects the tile of every
    position that lies at or after its start and converts to a valid
    tile. *)
Lemma run_visits (ta : DiagonalTileAreaT.t) (T : t) (fuel n : nat) :
  let my_map := MapOf (DiagonalTileAreaT.tile ta) in
  MapWF my_map ->
  Inv ta T -> b_cur T <> b_max T ->
  IsValidTileIndex (mkTile (convert T my_map) my_map) = true ->
  forall c i l c',
    Inv ta c -> Inv_index my_map c i ->
    run n fuel my_map c i = Some (l, c', INVALID_TILE_INDEX) ->
    T = c \/ before c T ->
    In (convert T my_map) l.
Proof.
  intros my_map Hm HT HneT HvT.
  assert (forall c i, Inv ta c -> Inv_index my_map c i -> T = c \/ before c T ->
                      i <> INVALID_TILE_INDEX) as Hlive.
  { intros c i HI [Hdone _] Hpos Hi. apply Hdone in Hi.
    destruct Hpos as [-> | Hb]; [contradiction|].
    destruct HT as (_ & _ & _ & HbmT & _ & HbT & _), HI as (_ & _ & _ & Hbm & _).
    unfold before in Hb. rewrite HbmT in *. rewrite Hbm in *. lia. }
  induction n as [|n IH]; intros c i l c' HI Hidx Hrun Hpos; cbn [run] in Hrun.
  - injection Hrun as _ _ Hi. now elim (Hlive c i HI Hidx Hpos).
  - destruct (Z.eqb_spec i INVALID_TILE_INDEX) as [Hi | Hi];
      [now elim (Hlive c i HI Hidx Hpos)|].
    destruct (Advance fuel i my_map c) as [[c1 i1]|] eqn:Hadv; [|discriminate].
    destruct (run n fuel my_map c1 i1) as [[[l1 c2] i2]|] eqn:Hrun1; [|discriminate].
    injection Hrun as <- <- ->.
    destruct Hpos as [-> | Hb].
    + left. exact (proj1 (proj2 Hidx Hi)).
    + right.
      destruct (Advance_Inv ta fuel c c1 i i1 Hm HI Hidx Hadv) as (HI1 & Hidx1 & _).
      destruct (Advance_next ta T fuel c c1 i i1 HT HneT HvT HI Hidx Hadv) as [_ Hnext].
      exact (IH c1 i1 l1 c2 HI1 Hidx1 Hrun1 (Hnext Hb)).
Qed.

(** Whatever [run] returns, the indices it collected are distinct valid
    tiles, each the conversion of a position at or after the start. *)
Lemma run_elements (ta : DiagonalTileAreaT.t) (fuel n : nat) :
  let my_map := MapOf (DiagonalTileAreaT.tile ta) in
  MapWF my_map -> DiagonalTileAreaT.WF ta ->
  forall c i l c' i',
    Inv ta c -> Inv_index my_map c i ->
    run n fuel my_map c i = Some (l, c', i') ->
    NoDup l /\
    forall j, In j l ->
      exists T, Inv ta T /\ b_cur T <> b_max T /\ j = convert T my_map /\
                IsValidTileIndex (mkTile j my_map) = true /\ (T = c \/ before c T).
Proof.
  intros my_map Hm Hwf.
  induction n as [|n IH]; intros c i l c' i' HI Hidx Hrun; cbn [run] in Hrun.
  - injection Hrun as <- _ _. split; [constructor | intros j []].
  - destruct (Z.eqb_spec i INVALID_TILE_INDEX) as [Hi | Hi].
    + injection Hrun as <- _ _. split; [constructor | intros j []].
    + destruct (Advance fuel i my_map c) as [[c1 i1]|] eqn:Hadv; [|discriminate].
      destruct (run n fuel my_map c1 i1) as [[[l1 c2] i2]|] eqn:Hrun1; [|discriminate].
      injection Hrun as <- _ _.
      destruct (Advance_Inv ta fuel c c1 i i1 Hm HI Hidx Hadv) as (HI1 & Hidx1 & _).
      destruct (IH c1 i1 l1 c2 i2 HI1 Hidx1 Hrun1) as [Hnd Hel].
      assert (b_cur c <> b_max c) as Hne by (intros Hb; apply Hi, (proj1 Hidx), Hb).
      destruct (proj2 Hidx Hi) as [Hconv Hv].
      assert (before c c1) as Hfwd.
      { unfold Advance in Hadv.
        destruct (Z.eqb_spec i INVALID_TILE_INDEX); [contradiction|]. cbn [negb assert] in Hadv.
        destruct (Advance_loop fuel c my_map) as [[c1' i1']|] eqn:Hloop; [|discriminate].
        injection Hadv as <- _.
        rewrite Hconv in Hv.
        exact (proj1 (Advance_loop_next ta my_map c fuel HI Hne Hv c c1' i1' HI Hne Hloop)). }
      split.
      * constructor; [|exact Hnd]. intros Hin.
        destruct (Hel i Hin) as (T & HT & HneT & HcT & HvT & Hpos).
        assert (T = c) as ->.
        { apply (convert_inj ta T c Hm Hwf HT HneT HI Hne); fold my_map;
            [rewrite <- HcT; exact HvT | now rewrite <- HcT, <- Hconv]. }
        destruct Hpos as [-> | Hb].
        -- exact (before_irrefl _ Hfwd).
        -- exact (before_irrefl _ (before_trans _ _ _ Hfwd Hb)).
      * intros j [<- | Hin].
        -- exists c. auto 6.
        -- destruct (Hel j Hin) as (T & HT & HneT & HcT & HvT & Hpos).
           exists T. repeat (split; [assumption|]). right.
           destruct Hpos as [-> | Hb]; [exact Hfwd | exact (before_trans _ _ _ Hfwd Hb)].
Qed.

(** X9.  Iterating a diagonal area to the done sentinel collects exactly
    the tiles of the map that the area contains: an index is collected if
    and only if it is a tile index of the map and [Contains] accepts it. *)
Theorem Diagonal_iterator_enumerates_area (ta : DiagonalTileAreaT.t) (n fuel : nat) :
  let my_map := MapOf (DiagonalTileAreaT.tile ta) in
  MapWF my_map -> DiagonalTileAreaT.WF ta ->
  passes_left (fst (Init ta)) <= Z.of_nat n ->
  passes_left (fst (Init ta)) <= Z.of_nat fuel ->
  exists l c',
    run n fuel my_map (fst (Init ta)) (snd (Init ta)) = Some (l, c', INVALID_TILE_INDEX) /\
    forall j, In j l <->
              (0 <= j < MapSize my_map /\
               DiagonalTileAreaT.Contains ta (mkTile j my_map) = Some true).
Proof.
  intros my_map Hm Hwf Hn Hfuel.
  destruct (Init_Inv ta (fst (Init ta)) (snd (Init ta)) Hm Hwf) as [HI Hidx];
    [now destruct (Init ta)|].
  destruct (run_done ta fuel n Hm Hwf _ _ HI Hidx Hn Hfuel) as (l & c' & Hrun & _ & _).
  exists l, c'. split; [exact Hrun|].
  destruct (run_elements ta fuel n Hm Hwf _ _ l c' _ HI Hidx Hrun) as [_ Hel].
  pose proof (MapSize_bound _ Hm) as Hsz.
  intros j. split.
  - intros Hin. destruct (Hel j Hin) as (T & HT & HneT & -> & HvT & _).
    destruct (convert_valid ta T Hm Hwf HT HneT HvT) as (Hx & Hy & Heq).
    destruct (TileXY_index _ _ my_map Hm Hx Hy) as [Hidx' Hr].
    fold my_map in Heq. apply (f_equal index) in Heq. cbn [index] in Heq.
    fold my_map. split; [rewrite Heq, Hidx'; exact Hr|].
    exact (convert_Contains ta T Hm Hwf HT HneT HvT).
  - intros [Hj Hin].
    assert (OTA.TileOf my_map (mkTile j my_map)) as Ht.
    { unfold OTA.TileOf, TileWF, IsValidTileIndex. cbn [index map].
      repeat split; lia. }
    destruct (standing_on_Inv ta _ Hm Hwf Ht Hin) as (HT & HneT & Hconv).
    cbn [index] in Hconv. rewrite <- Hconv.
    apply (run_visits ta _ fuel n Hm HT HneT) with (c := fst (Init ta)) (i := snd (Init ta))
                                                    (c' := c'); try assumption.
    + rewrite Hconv. apply Ht.
    + unfold Init, standing_on, before. cbn [fst a_cur b_cur].
      destruct HT as (_ & _ & _ & _ & Ha & Hb & _).
      unfold standing_on in Ha, Hb. cbn [a_cur b_cur a_max b_max] in Ha, Hb.
      set (at_ := TileY (mkTile j my_map) + TileX (mkTile j my_map)
                  - (TileY (DiagonalTileAreaT.tile ta) + TileX (DiagonalTileAreaT.tile ta))) in *.
      set (bt_ := TileY (mkTile j my_map) - TileX (mkTile j my_map)
                  - (TileY (DiagonalTileAreaT.tile ta) - TileX (DiagonalTileAreaT.tile ta))) in *.
      destruct (Z.eq_dec bt_ 0) as [Hb0 | Hb0]; [|right; left; lia].
      destruct (Z.eq_dec at_ 0) as [Ha0 | Ha0]; [|right; right; lia].
      left. rewrite Ha0, Hb0. reflexivity.
Qed.

(** X10.  Whatever stretch of the iteration [run] covers, the indices it
    collects are pairwise distinct: the iterator produces no tile twice. *)
Theorem Diagonal_iterator_no_duplicates (ta : DiagonalTileAreaT.t) (n fuel : nat)
    (l : list RawTileIndex) (c' : t) (i' : RawTileIndex) :
  let my_map := MapOf (DiagonalTileAreaT.tile ta) in
  MapWF my_map -> DiagonalTileAreaT.WF ta ->
  run n fuel my_map (fst (Init ta)) (snd (Init ta)) = Some (l, c', i') ->
  NoDup l.
Proof.
  intros my_map Hm Hwf Hrun.
  destruct (Init_Inv ta (fst (Init ta)) (snd (Init ta)) Hm Hwf) as [HI Hidx];
    [now destruct (Init ta)|].
  exact (proj1 (run_elements ta fuel n Hm Hwf _ _ l c' i' HI Hidx Hrun)).
Qed.

Lemma Diagonal_iterator_enumerates_area_witness :
  exists l c',
    run 20 20 map8 (fst (Init diag_area)) (snd (Init diag_area))
    = Some (l, c', INVALID_TILE_INDEX) /\
    forall j, In j l <->
              (0 <= j < MapSize map8 /\
               DiagonalTileAreaT.Contains diag_area (mkTile j map8) = Some true).
Proof.
  apply (Diagonal_iterator_enumerates_area diag_area 20 20 map8_WF diag_area_WF);
    vm_compute; discriminate.
Defined.

Lemma Diagonal_iterator_no_duplicates_witness : NoDup [41; 42; 34; 35; 27; 28].
Proof.
  apply (Diagonal_iterator_no_duplicates diag_area 10 10 _ (mk 1 5 0 (-6) 2 (-6))
           INVALID_TILE_INDEX map8_WF diag_area_WF).
  vm_compute. reflexivity.
Defined.

(** ** The transformation iterator: the whole traversal *)

Lemma div_mod_succ (k w : Z) :
  0 <= k -> 0 < w ->
  (k mod w + 1 < w -> (k + 1) / w = k / w /\ (k + 1) mod w = k mod w + 1) /\
  (k mod w + 1 = w -> (k + 1) / w = k / w + 1 /\ (k + 1) mod w = 0).
Proof.
  intros Hk Hw. pose proof (Z.div_mod k w ltac:(lia)) as Hdm.
  pose proof (Z.mod_pos_bound k w Hw) as Hr.
  split; intros H.
  - assert ((k + 1) / w = k / w) as Hq
      by (symmetry; apply (Z.div_unique_pos _ _ _ (k mod w + 1)); lia).
    split; [exact Hq|]. rewrite Z.mod_eq, Hq by lia. lia.
  - assert ((k + 1) / w = k / w + 1) as Hq
      by (symmetry; apply (Z.div_unique_pos _ _ _ 0); lia).
    split; [exact Hq|]. rewrite Z.mod_eq, Hq by lia. lia.
Qed.

Lemma to_uint_sub_l (u v : Z) : to_uint (to_uint u - v) = to_uint (u - v).
Proof. unfold to_uint. apply Zminus_mod_idemp_l. Qed.

(** X11.  From a controller at the start of an area of [w] columns and
    [h] rows that lies on the source map, the call number [k] of [Advance]
    (for [k] below [w * h]) leaves the source index on the tile at column
    [k mod w] and row [k / w] of the area, and the destination index at the
    start plus [k mod w] transformed south-west deltas and [k / w]
    transformed south-east deltas; call number [w * h] sets both indices
    to the done sentinel. *)
Theorem Transformation_iterate_grid
    (DirTransformation : Type)
    (TransformDiagDir : TTIC.DiagDirection -> DirTransformation -> TTIC.DiagDirection)
    (TileIndexDiffCByDiagDir : TTIC.DiagDirection -> TTIC.TileIndexDiffC)
    (T : DirTransformation) (src_map dst_map : Map) (w h x0 y0 dst0 : Z) :
  MapWF src_map -> 1 <= w -> 1 <= h ->
  0 <= x0 -> x0 + w <= size_x src_map -> 0 <= y0 -> y0 + h <= size_y src_map ->
  0 <= dst0 < 2 ^ 32 ->
  let start := (TTIC.mk w w h T, index (TileXY x0 y0 src_map), dst0) in
  let dSW := TTIC.ToTileIndexDiff
               (TileIndexDiffCByDiagDir (TransformDiagDir TTIC.DIAGDIR_SW T)) dst_map in
  let dSE := TTIC.ToTileIndexDiff
               (TileIndexDiffCByDiagDir (TransformDiagDir TTIC.DIAGDIR_SE T)) dst_map in
  (forall k : nat,
      Z.of_nat k < w * h ->
      let col := Z.of_nat k mod w in
      let row := Z.of_nat k / w in
      TTIC.iterate TransformDiagDir TileIndexDiffCByDiagDir k src_map dst_map start
      = Some (TTIC.mk w (w - col) (h - row) T,
              index (TileXY (x0 + col) (y0 + row) src_map),
              to_uint (dst0 + col * dSW + row * dSE))) /\
  (exists c',
      TTIC.iterate TransformDiagDir TileIndexDiffCByDiagDir (Z.to_nat (w * h))
        src_map dst_map start
      = Some (c', INVALID_TILE_INDEX, INVALID_TILE_INDEX)).
Proof.
  intros Hm Hw Hh Hx0 Hx1 Hy0 Hy1 Hd start dSW dSE.
  pose proof (MapSize_bound _ Hm) as Hsz.
  assert (forall k : nat,
             Z.of_nat k < w * h ->
             TTIC.iterate TransformDiagDir TileIndexDiffCByDiagDir k src_map dst_map start
             = Some (TTIC.mk w (w - Z.of_nat k mod w) (h - Z.of_nat k / w) T,
                     index (TileXY (x0 + Z.of_nat k mod w) (y0 + Z.of_nat k / w) src_map),
                     to_uint (dst0 + Z.of_nat k mod w * dSW + Z.of_nat k / w * dSE))) as Hgrid.
  { induction k as [|k IH]; intros Hk.
    - cbn [TTIC.iterate]. change (Z.of_nat 0) with 0.
      rewrite Z.mod_0_l, Z.div_0_l by lia. subst start.
      replace (dst0 + 0 * dSW + 0 * dSE) with dst0 by ring.
      rewrite !Z.add_0_r, !Z.sub_0_r, to_uint_small by lia.
      reflexivity.
    - cbn [TTIC.iterate]. rewrite IH by lia. clear IH.
      rewrite Nat2Z.inj_succ, <- Z.add_1_r in *.
      set (n := Z.of_nat k) in *.
      assert (0 <= n) as Hn by (subst n; lia).
      pose proof (Z.mod_pos_bound n w ltac:(lia)) as Hcol.
      assert (0 <= n / w < h) as Hrow.
      { split; [apply Z.div_pos; lia|]. apply Z.div_lt_upper_bound; lia. }
      destruct (div_mod_succ n w Hn ltac:(lia)) as [Hsame Hnext].
      destruct (TileXY_index (x0 + n mod w) (y0 + n / w) src_map Hm) as [Hidx Hir];
        [lia | lia |].
      unfold TTIC.Advance. cbn [TTIC.x TTIC.y TTIC.w TTIC.transformation].
      destruct (Z.eqb_spec (index (TileXY (x0 + n mod w) (y0 + n / w) src_map))
                           INVALID_TILE_INDEX) as [Hinv | _];
        [unfold INVALID_TILE_INDEX in Hinv; lia|].
      cbn [negb assert]. unfold TTIC.delta. cbn [TTIC.transformation]. fold dSW dSE.
      destruct (Z.gtb_spec (w - n mod w - 1) 0) as [Hmore | Hlast].
      + destruct Hsame as [Hq Hr]; [lia|]. rewrite Hq, Hr.
        destruct (TileXY_index (x0 + (n mod w + 1)) (y0 + n / w) src_map Hm) as [Hidx' _];
          [lia | lia |].
        rewrite Hidx, Hidx', to_uint_add_l. rewrite (to_uint_small (_ + 1)) by lia.
        replace (w - (n mod w + 1)) with (w - n mod w - 1) by ring.
        replace ((y0 + n / w) * size_x src_map + (x0 + (n mod w + 1)))
          with ((y0 + n / w) * size_x src_map + (x0 + n mod w) + 1) by ring.
        replace (dst0 + (n mod w + 1) * dSW + n / w * dSE)
          with (dst0 + n mod w * dSW + n / w * dSE + dSW) by ring.
        reflexivity.
      + destruct Hnext as [Hq Hr]; [lia|]. rewrite Hq, Hr.
        assert (n / w + 1 < h) as Hrow'.
        { pose proof (Z.div_mod n w ltac:(lia)) as Hdm.
          assert (w * (n / w + 1) < w * h) by lia. nia. }
        destruct (Z.gtb_spec (h - n / w - 1) 0) as [_ | ?]; [|lia].
        destruct (TileXY_index (x0 + 0) (y0 + (n / w + 1)) src_map Hm) as [Hidx' Hir'];
          [lia | lia |].
        assert (n mod w = w - 1) as Hc by lia.
        rewrite Hidx, Hidx', to_uint_sub_l, to_uint_add_l, Hc.
        unfold TTIC.TileDiffXY, MapSizeX.
        replace ((y0 + n / w) * size_x src_map + (x0 + (w - 1)) + (1 * size_x src_map + 1 - w))
          with ((y0 + (n / w + 1)) * size_x src_map + (x0 + 0)) by ring.
        rewrite to_uint_small by lia.
        replace (w - 0) with w by ring.
        replace (h - (n / w + 1)) with (h - n / w - 1) by ring.
        replace (dst0 + 0 * dSW + (n / w + 1) * dSE)
          with (dst0 + (w - 1) * dSW + n / w * dSE - dSW * (w - 1) + dSE) by ring.
        reflexivity. }
  split; [exact Hgrid|].
  assert (Z.to_nat (w * h) = S (Z.to_nat (w * h - 1))) as -> by nia.
  cbn [TTIC.iterate]. rewrite Hgrid by nia. rewrite Z2Nat.id by nia.
  assert ((w * h - 1) / w = h - 1 /\ (w * h - 1) mod w = w - 1) as [Hq Hr].
  { assert ((w * h - 1) / w = h - 1) as Hq
      by (symmetry; apply (Z.div_unique_pos _ _ _ (w - 1)); lia).
    split; [exact Hq|]. rewrite Z.mod_eq, Hq by lia. lia. }
  rewrite Hq, Hr.
  destruct (TileXY_index (x0 + (w - 1)) (y0 + (h - 1)) src_map Hm) as [Hidx Hir];
    [lia | lia |].
  unfold TTIC.Advance. cbn [TTIC.x TTIC.y TTIC.w TTIC.transformation].
  destruct (Z.eqb_spec (index (TileXY (x0 + (w - 1)) (y0 + (h - 1)) src_map))
                       INVALID_TILE_INDEX) as [Hinv | _];
    [unfold INVALID_TILE_INDEX in Hinv; lia|].
  cbn [negb assert].
  destruct (Z.gtb_spec (w - (w - 1) - 1) 0); [lia|].
  destruct (Z.gtb_spec (h - (h - 1) - 1) 0); [lia|]. eauto.
Qed.

Lemma Transformation_iterate_grid_witness :
  TTIC.iterate identity_TransformDiagDir sample_TileIndexDiffCByDiagDir 4 map8 map16
    (TTIC.mk 3 3 2 tt, index (TileXY 1 1 map8), 34)
  = Some (TTIC.mk 3 (3 - 4 mod 3) (2 - 4 / 3) tt,
          index (TileXY (1 + 4 mod 3) (1 + 4 / 3) map8),
          to_uint (34 + 4 mod 3 * 1 + 4 / 3 * 16)) /\
  (exists c',
      TTIC.iterate identity_TransformDiagDir sample_TileIndexDiffCByDiagDir 6 map8 map16
        (TTIC.mk 3 3 2 tt, index (TileXY 1 1 map8), 34)
      = Some (c', INVALID_TILE_INDEX, INVALID_TILE_INDEX)).
Proof.
  split.
  - apply (proj1 (Transformation_iterate_grid unit identity_TransformDiagDir
                    sample_TileIndexDiffCByDiagDir tt map8 map16 3 2 1 1 34
                    map8_WF ltac:(on_sample) ltac:(on_sample) ltac:(on_sample)
                    ltac:(on_sample) ltac:(on_sample) ltac:(on_sample) ltac:(on_sample)) 4%nat).
    reflexivity.
  - apply (proj2 (Transformation_iterate_grid unit identity_TransformDiagDir
                    sample_TileIndexDiffCByDiagDir tt map8 map16 3 2 1 1 34
                    map8_WF ltac:(on_sample) ltac:(on_sample) ltac:(on_sample)
                    ltac:(on_sample) ltac:(on_sample) ltac:(on_sample) ltac:(on_sample))).
Defined.

(** ** Clipboard stations *)

Lemma write_length {A : Type} (l : list A) (i : nat) (v : A) :
  length (CS.write l i v) = length l.
Proof.
  revert i. induction l as [|x l IH]; intros [|i]; cbn; try reflexivity. now rewrite IH.
Qed.

Lemma nth_error_write_same {A : Type} (l : list A) (i : nat) (v : A) :
  (i < length l)%nat -> nth_error (CS.write l i v) i = Some v.
Proof.
  revert i. induction l as [|x l IH]; intros [|i] H; cbn in *; try lia; try reflexivity.
  apply IH. lia.
Qed.

Lemma nth_error_write_other {A : Type} (l : list A) (i j : nat) (v : A) :
  i <> j -> nth_error (CS.write l i v) j = nth_error l j.
Proof.
  revert i j. induction l as [|x l IH]; intros [|i] [|j] H; cbn; try reflexivity; try lia.
  apply IH. lia.
Qed.

Lemma write_same {A : Type} (l : list A) (i : nat) (v : A) :
  nth_error l i = Some v -> CS.write l i v = l.
Proof.
  revert i. induction l as [|x l IH]; intros [|i] H; cbn in *; try discriminate.
  - now injection H as ->.
  - f_equal. now apply IH.
Qed.

(** The link that [FindStation] returns holds the first station with the
    id, if there is one. *)
Lemma FindStation_find (l : CS.ClipboardStationList) (sid : Z) :
  nth_error l (CS.FindStation l sid) = find (fun st => CS.id st =? sid) l /\
  (CS.FindStation l sid <= length l)%nat.
Proof.
  induction l as [|st l [IH1 IH2]]; cbn; [split; [reflexivity | lia]|].
  destruct (CS.id st =? sid); cbn; [split; [reflexivity | lia]|].
  split; [exact IH1 | lia].
Qed.

Lemma find_id (l : CS.ClipboardStationList) (sid : Z) (st : CS.ClipboardStation) :
  find (fun st => CS.id st =? sid) l = Some st -> CS.id st = sid /\ In st l.
Proof.
  intros H. destruct (find_some _ _ H) as [Hin Hid]. split; [now apply Z.eqb_eq | exact Hin].
Qed.

Lemma find_absent (l : CS.ClipboardStationList) (sid : Z) :
  find (fun st => CS.id st =? sid) l = None <-> ~ In sid (List.map CS.id l).
Proof.
  induction l as [|st l IH]; cbn; [tauto|].
  destruct (Z.eqb_spec (CS.id st) sid) as [He | He].
  - split; [discriminate | intros H; elim H; now left].
  - rewrite IH. tauto.
Qed.

Lemma find_app_absent (l : CS.ClipboardStationList) (st : CS.ClipboardStation) (sid : Z) :
  find (fun st => CS.id st =? sid) (l ++ [st])
  = match find (fun st => CS.id st =? sid) l with
    | Some s => Some s
    | None => if CS.id st =? sid then Some st else None
    end.
Proof.
  induction l as [|x l IH]; cbn; [reflexivity|].
  destruct (CS.id x =? sid); [reflexivity | exact IH].
Qed.

Section StationFacts.

Variable INVALID_STATION : Z.
Variable AT_INVALID : Z.

(** [AddStation] in closed form. *)
Lemma AddStation_eq (l : CS.ClipboardStationList) (sid : Z) :
  CS.AddStation INVALID_STATION AT_INVALID l sid =
  match find (fun st => CS.id st =? sid) l with
  | Some _ => (l, CS.FindStation l sid)
  | None => (l ++ [CS.mkStation sid (CS.mkAirport INVALID_TILE_INDEX 0 0 AT_INVALID 0) 0 []],
             length l)
  end.
Proof.
  unfold CS.AddStation. destruct (FindStation_find l sid) as [Hf Hle]. rewrite Hf.
  destruct (find _ l) eqn:Hfind; [reflexivity|].
  apply nth_error_None in Hf.
  assert (CS.FindStation l sid = length l) as -> by lia.
  now rewrite firstn_all.
Qed.

(** X12.  [AddStation] returns the position of a station with the asked
    id.  When the list has a station with this id, the list is left as it
    is; otherwise one fresh station with this id, no airport and no specs
    is put on the back.  A lookup of the id then finds the returned
    station, lookups of other ids are not affected, a list without
    duplicate ids stays so, and adding the same id again changes
    nothing. *)
Theorem AddStation_lookup (l : CS.ClipboardStationList) (sid : Z) :
  let l' := fst (CS.AddStation INVALID_STATION AT_INVALID l sid) in
  let pos := snd (CS.AddStation INVALID_STATION AT_INVALID l sid) in
  (exists st, nth_error l' pos = Some st /\ CS.id st = sid /\
              find (fun s => CS.id s =? sid) l' = Some st) /\
  (In sid (List.map CS.id l) -> l' = l) /\
  (~ In sid (List.map CS.id l) ->
   l' = l ++ [CS.mkStation sid (CS.mkAirport INVALID_TILE_INDEX 0 0 AT_INVALID 0) 0 []]) /\
  (forall sid', sid' <> sid ->
                find (fun s => CS.id s =? sid') l' = find (fun s => CS.id s =? sid') l) /\
  (NoDup (List.map CS.id l) -> NoDup (List.map CS.id l')) /\
  CS.AddStation INVALID_STATION AT_INVALID l' sid = (l', pos).
Proof.
  intros l' pos. subst l' pos. rewrite AddStation_eq.
  destruct (find (fun st => CS.id st =? sid) l) as [st|] eqn:Hfind; cbn [fst snd].
  - destruct (FindStation_find l sid) as [Hf _]. rewrite Hfind in Hf.
    destruct (find_id l sid st Hfind) as [Hid _].
    split; [exists st; auto|]. split; [auto|]. split.
    { intros Habs. apply find_absent in Habs. congruence. }
    split; [auto|]. split; [auto|].
    rewrite AddStation_eq, Hfind. reflexivity.
  - pose proof (proj1 (find_absent l sid) Hfind) as Habs.
    set (st := CS.mkStation sid _ _ _).
    assert (find (fun s => CS.id s =? sid) (l ++ [st]) = Some st) as Hnew
      by (rewrite find_app_absent, Hfind; cbn; now rewrite Z.eqb_refl).
    split.
    { exists st. split; [|split; [reflexivity | exact Hnew]].
      rewrite nth_error_app2 by lia. now rewrite Nat.sub_diag. }
    split; [intros Hin; contradiction|]. split; [reflexivity|]. split.
    { intros sid' Hne. rewrite find_app_absent.
      destruct (find (fun s => CS.id s =? sid') l); [reflexivity|]. cbn.
      destruct (Z.eqb_spec sid sid'); [congruence | reflexivity]. }
    split.
    { intros Hnd. rewrite map_app. cbn.
      apply NoDup_app; [exact Hnd | constructor; [intros [] | constructor] |].
      intros x Hx [<- | []]. contradiction. }
    rewrite AddStation_eq, Hnew. f_equal.
    destruct (FindStation_find (l ++ [st]) sid) as [Hf Hle]. rewrite Hnew in Hf.
    destruct (Nat.lt_ge_cases (CS.FindStation (l ++ [st]) sid) (length l)) as [Hlt | Hge].
    + rewrite nth_error_app1 in Hf by exact Hlt.
      destruct (FindStation_find l sid) as [_ _].
      apply nth_error_In in Hf. elim Habs. apply in_map_iff. exists st. auto.
    + rewrite length_app in Hle. cbn in Hle.
      destruct (Nat.eq_dec (CS.FindStation (l ++ [st]) sid) (length l)) as [He | He];
        [exact He|].
      assert (nth_error (l ++ [st]) (CS.FindStation (l ++ [st]) sid) = None) as Hnone
        by (apply nth_error_None; rewrite length_app; cbn; lia).
      congruence.
Qed.

End StationFacts.

Lemma AddStation_lookup_witness :
  let l := [CS.mkStation 7 (CS.mkAirport 3 2 2 1 0) 0 []] in
  (exists st, nth_error (fst (CS.AddStation 65535 255 l 9)) (snd (CS.AddStation 65535 255 l 9))
              = Some st /\ CS.id st = 9 /\
              find (fun s => CS.id s =? 9) (fst (CS.AddStation 65535 255 l 9)) = Some st) /\
  (In 9 (List.map CS.id l) -> fst (CS.AddStation 65535 255 l 9) = l) /\
  (~ In 9 (List.map CS.id l) ->
   fst (CS.AddStation 65535 255 l 9)
   = l ++ [CS.mkStation 9 (CS.mkAirport INVALID_TILE_INDEX 0 0 255 0) 0 []]) /\
  (forall sid', sid' <> 9 ->
                find (fun s => CS.id s =? sid') (fst (CS.AddStation 65535 255 l 9))
                = find (fun s => CS.id s =? sid') l) /\
  (NoDup (List.map CS.id l) -> NoDup (List.map CS.id (fst (CS.AddStation 65535 255 l 9)))) /\
  CS.AddStation 65535 255 (fst (CS.AddStation 65535 255 l 9)) 9
  = (fst (CS.AddStation 65535 255 l 9), snd (CS.AddStation 65535 255 l 9)).
Proof.
  exact (AddStation_lookup 65535 255 [CS.mkStation 7 (CS.mkAirport 3 2 2 1 0) 0 []] 9).
Defined.

(** X13.  [BuildDone] on a clipboard buffer stores the builder's list for
    that buffer and leaves the builder with the empty list; afterwards
    [ClipboardStation::Get] on that buffer looks the id up in the stored
    list (the first station with the id, or [NULL]), and on every other
    buffer it answers as before.  On a pointer that is not a clipboard
    buffer both fail their assertion. *)
Theorem BuildDone_then_Get
    (clipboard_buffers sizeof_Map : Z) (lists : CS.StationLists)
    (stations : CS.ClipboardStationList) (sid i j : Z) :
  0 < sizeof_Map ->
  (0 <= i < Clipboard.NUM_CLIPBOARD_BUFFERS ->
   0 <= j < Clipboard.NUM_CLIPBOARD_BUFFERS ->
   exists lists',
     CS.BuildDone clipboard_buffers sizeof_Map lists stations
       (Clipboard.element clipboard_buffers sizeof_Map i) = Some (lists', []) /\
     CS.Get clipboard_buffers sizeof_Map lists' sid
       (Clipboard.element clipboard_buffers sizeof_Map i)
     = Some (find (fun st => CS.id st =? sid) stations) /\
     (j <> i ->
      CS.Get clipboard_buffers sizeof_Map lists' sid
        (Clipboard.element clipboard_buffers sizeof_Map j)
      = CS.Get clipboard_buffers sizeof_Map lists sid
          (Clipboard.element clipboard_buffers sizeof_Map j))) /\
  (forall b,
      Clipboard.IsClipboardBuffer clipboard_buffers sizeof_Map b = false ->
      CS.BuildDone clipboard_buffers sizeof_Map lists stations b = None /\
      CS.Get clipboard_buffers sizeof_Map lists sid b = None).
Proof.
  intros Hs. split.
  - intros Hi Hj.
    destruct (element_is_buffer clipboard_buffers sizeof_Map i Hs Hi) as (_ & Hidx_i & _).
    destruct (element_is_buffer clipboard_buffers sizeof_Map j Hs Hj) as (_ & Hidx_j & _).
    unfold CS.BuildDone, CS.Get, CS.GetClipboardStationList, CS.SetClipboardStationList.
    rewrite Hidx_i, Hidx_j.
    unfold Clipboard.NUM_CLIPBOARD_BUFFERS in *.
    destruct (Z.ltb_spec i 5) as [_ | ?]; [|lia].
    destruct (Z.ltb_spec j 5) as [_ | ?]; [|lia]. cbn [assert].
    eexists. split; [reflexivity|]. cbn beta. rewrite Z.eqb_refl.
    split; [reflexivity|]. intros Hne.
    destruct (Z.eqb_spec j i); [contradiction | reflexivity].
  - intros b Hb.
    unfold CS.BuildDone, CS.Get, CS.GetClipboardStationList, CS.SetClipboardStationList,
      Clipboard.GetClipboardBufferIndex.
    rewrite Hb. cbn [assert]. split; reflexivity.
Qed.

Lemma BuildDone_then_Get_witness :
  (exists lists',
     CS.BuildDone 4096 40 (fun _ => []) [CS.mkStation 7 (CS.mkAirport 3 2 2 1 0) 0 []]
       (Clipboard.element 4096 40 2) = Some (lists', []) /\
     CS.Get 4096 40 lists' 7 (Clipboard.element 4096 40 2)
     = Some (find (fun st => CS.id st =? 7) [CS.mkStation 7 (CS.mkAirport 3 2 2 1 0) 0 []]) /\
     (4 <> 2 ->
      CS.Get 4096 40 lists' 7 (Clipboard.element 4096 40 4)
      = CS.Get 4096 40 (fun _ => []) 7 (Clipboard.element 4096 40 4))) /\
  (CS.BuildDone 4096 40 (fun _ => []) [CS.mkStation 7 (CS.mkAirport 3 2 2 1 0) 0 []] 5000 = None /\
   CS.Get 4096 40 (fun _ => []) 7 5000 = None).
Proof.
  split.
  - apply (proj1 (BuildDone_then_Get 4096 40 (fun _ => [])
                    [CS.mkStation 7 (CS.mkAirport 3 2 2 1 0) 0 []] 7 2 4 eq_refl));
      on_sample.
  - apply (proj2 (BuildDone_then_Get 4096 40 (fun _ => [])
                    [CS.mkStation 7 (CS.mkAirport 3 2 2 1 0) 0 []] 7 2 4 eq_refl)).
    reflexivity.
Defined.

Lemma spec_eqb_eq (s1 s2 : CS.StationSpecItem) : CS.spec_eqb s1 s2 = true <-> s1 = s2.
Proof.
  unfold CS.spec_eqb. destruct s1, s2; cbn. rewrite andb_true_iff, !Z.eqb_eq.
  split; [intros [-> ->]; reflexivity | intros H; injection H; auto].
Qed.

Lemma write_app_at {A : Type} (pre rest : list A) (x v : A) :
  CS.write (pre ++ x :: rest) (length pre) v = pre ++ v :: rest.
Proof. induction pre as [|y pre IH]; cbn; [reflexivity | now rewrite IH]. Qed.

Section SpecFacts.

Variable STAT_CLASS_DFLT : Z.
Variable STAT_CLASS_WAYP : Z.
Variable uninitialised : CS.StationSpecItem.

(** The loop fills the cells that [ReallocT] added, up to the last one. *)
Lemma fill_placeholders_new_cells (count : nat) :
  forall (pre : list CS.StationSpecItem) (r : nat),
    CS.fill_placeholders STAT_CLASS_DFLT (pre ++ repeat uninitialised (count + r))
                         (length pre) count
    = pre ++ repeat (CS.mkSpec STAT_CLASS_DFLT 0) count ++ repeat uninitialised r.
Proof.
  induction count as [|count IH]; intros pre r; cbn [CS.fill_placeholders]; [reflexivity|].
  cbn [Nat.add repeat]. rewrite write_app_at.
  replace (pre ++ CS.mkSpec STAT_CLASS_DFLT 0 :: repeat uninitialised (count + r))
    with ((pre ++ [CS.mkSpec STAT_CLASS_DFLT 0]) ++ repeat uninitialised (count + r))
    by (now rewrite <- app_assoc).
  replace (S (length pre)) with (length (pre ++ [CS.mkSpec STAT_CLASS_DFLT 0]))
    by (rewrite length_app; cbn; lia).
  rewrite IH, <- app_assoc. reflexivity.
Qed.

(** [AddSpecToStation] in closed form, on a record whose spec count is
    the size of its spec array. *)
Lemma AddSpecToStation_eq (st : CS.ClipboardStation) (station_class station_type specindex : Z) :
  CS.specs_in_step st -> 0 <= specindex < 255 ->
  CS.AddSpecToStation STAT_CLASS_DFLT STAT_CLASS_WAYP uninitialised st
    station_class station_type specindex
  = if negb (specindex =? 0) ||
       ((station_type =? 0) &&
        ((station_class =? STAT_CLASS_DFLT) || (station_class =? STAT_CLASS_WAYP)))
    then
      if specindex >=? CS.num_specs st then
        Some (CS.mkStation (CS.id st) (CS.airport st) (specindex + 1)
                (CS.speclist st
                 ++ repeat (CS.mkSpec STAT_CLASS_DFLT 0) (Z.to_nat (specindex - CS.num_specs st))
                 ++ [CS.mkSpec station_class station_type]))
      else
        match nth_error (CS.speclist st) (Z.to_nat specindex) with
        | None => None
        | Some cur =>
            if CS.spec_eqb cur (CS.mkSpec station_class station_type) ||
               CS.spec_eqb cur (CS.mkSpec STAT_CLASS_DFLT 0)
            then Some (CS.mkStation (CS.id st) (CS.airport st) (CS.num_specs st)
                         (CS.write (CS.speclist st) (Z.to_nat specindex)
                                   (CS.mkSpec station_class station_type)))
            else None
        end
    else None.
Proof.
  unfold CS.specs_in_step. intros Hstep Hidx. unfold CS.AddSpecToStation.
  destruct (negb (specindex =? 0) || _); cbn [assert]; [|reflexivity].
  destruct (Z.geb_spec specindex (CS.num_specs st)) as [Hge | Hlt].
  - f_equal. f_equal.
    + unfold CS.to_byte. apply Z.mod_small. lia.
    + set (l := CS.speclist st) in *. set (n := length l) in *.
      unfold CS.ReallocT.
      rewrite firstn_all2 by (fold n; lia). fold n.
      replace (Z.to_nat (specindex + 1) - n)%nat
        with (Z.to_nat (specindex - CS.num_specs st) + 1)%nat by lia.
      replace (Z.to_nat (CS.num_specs st)) with (length l) by (fold n; lia).
      rewrite fill_placeholders_new_cells. cbn [repeat].
      replace (Z.to_nat specindex)
        with (length (l ++ repeat (CS.mkSpec STAT_CLASS_DFLT 0)
                                  (Z.to_nat (specindex - CS.num_specs st))))
        by (rewrite length_app, repeat_length; fold n; lia).
      rewrite app_assoc, write_app_at, <- app_assoc. reflexivity.
  - destruct (nth_error _ _); [|reflexivity].
    destruct (CS.spec_eqb _ _ || _); reflexivity.
Qed.

(** X14.  [AddSpecToStation] on a station whose spec count is the size of
    its spec array.  For an index at or past the count the array grows to
    end at the index, the cells in between hold the default placeholder,
    and the count becomes the index plus one.  For an index below the
    count the call goes through only if the cell holds the placeholder or
    the same spec already, and aborts otherwise.  Whenever the call goes
    through, the cell at the index holds the given spec, every other cell
    that existed keeps its content, count and array stay in step, and the
    same call again changes nothing.  A call with index 0 and a spec
    other than a default station or waypoint of type 0 aborts. *)
Theorem AddSpecToStation_result
    (st : CS.ClipboardStation) (station_class station_type specindex : Z) :
  CS.specs_in_step st -> 0 <= specindex < 255 ->
  let add := CS.AddSpecToStation STAT_CLASS_DFLT STAT_CLASS_WAYP uninitialised in
  let new := CS.mkSpec station_class station_type in
  let placeholder := CS.mkSpec STAT_CLASS_DFLT 0 in
  (forall st',
      add st station_class station_type specindex = Some st' ->
      CS.specs_in_step st' /\
      CS.id st' = CS.id st /\ CS.airport st' = CS.airport st /\
      CS.num_specs st' = Z.max (CS.num_specs st) (specindex + 1) /\
      nth_error (CS.speclist st') (Z.to_nat specindex) = Some new /\
      (forall i, (i < length (CS.speclist st))%nat -> i <> Z.to_nat specindex ->
                 nth_error (CS.speclist st') i = nth_error (CS.speclist st) i) /\
      (forall i, (length (CS.speclist st) <= i < Z.to_nat specindex)%nat ->
                 nth_error (CS.speclist st') i = Some placeholder) /\
      add st' station_class station_type specindex = Some st') /\
  (specindex = 0 ->
   ~ (station_type = 0 /\
      (station_class = STAT_CLASS_DFLT \/ station_class = STAT_CLASS_WAYP)) ->
   add st station_class station_type specindex = None) /\
  (forall cur,
      nth_error (CS.speclist st) (Z.to_nat specindex) = Some cur ->
      cur <> new -> cur <> placeholder ->
      add st station_class station_type specindex = None) /\
  (specindex <> 0 -> CS.num_specs st <= specindex ->
   exists st', add st station_class station_type specindex = Some st').
Proof.
  intros Hstep Hidx add new placeholder. subst add.
  pose proof Hstep as Hn. unfold CS.specs_in_step in Hn.
  split; [|split; [|split]].
  - intros st' Hadd.
    rewrite (AddSpecToStation_eq st _ _ _ Hstep Hidx) in Hadd.
    destruct (negb (specindex =? 0) || _) eqn:Hassert; [|discriminate].
    destruct (Z.geb_spec specindex (CS.num_specs st)) as [Hge | Hlt].
    + injection Hadd as <-.
      assert (CS.specs_in_step
                (CS.mkStation (CS.id st) (CS.airport st) (specindex + 1)
                   (CS.speclist st
                    ++ repeat placeholder (Z.to_nat (specindex - CS.num_specs st))
                    ++ [new]))) as Hstep'.
      { unfold CS.specs_in_step. cbn [CS.num_specs CS.speclist].
        rewrite !length_app, repeat_length. cbn [length]. lia. }
      split; [exact Hstep'|]. cbn [CS.id CS.airport CS.num_specs CS.speclist].
      split; [reflexivity|]. split; [reflexivity|]. split; [lia|].
      assert (Z.to_nat specindex
              = (length (CS.speclist st)
                 + length (repeat placeholder (Z.to_nat (specindex - CS.num_specs st))))%nat)
        as Hpos by (rewrite repeat_length; lia).
      assert (nth_error (CS.speclist st
                         ++ repeat placeholder (Z.to_nat (specindex - CS.num_specs st))
                         ++ [new]) (Z.to_nat specindex) = Some new) as Hcell.
      { rewrite nth_error_app2 by lia. rewrite nth_error_app2 by lia.
        replace (Z.to_nat specindex - length (CS.speclist st)
                 - length (repeat placeholder (Z.to_nat (specindex - CS.num_specs st))))%nat
          with O by lia. reflexivity. }
      split; [exact Hcell|]. split; [|split].
      * intros i Hi _. now rewrite nth_error_app1 by exact Hi.
      * intros i Hi. rewrite nth_error_app2 by lia.
        rewrite nth_error_app1 by (rewrite repeat_length; lia).
        apply nth_error_repeat. lia.
      * rewrite (AddSpecToStation_eq _ _ _ _ Hstep' Hidx), Hassert.
        cbn [CS.id CS.airport CS.num_specs CS.speclist].
        destruct (Z.geb_spec specindex (specindex + 1)); [lia|].
        rewrite Hcell.
        replace (CS.spec_eqb new (CS.mkSpec station_class station_type)) with true
          by (symmetry; now apply spec_eqb_eq).
        cbn [orb]. rewrite write_same by exact Hcell. reflexivity.
    + destruct (nth_error (CS.speclist st) (Z.to_nat specindex)) as [cur|] eqn:Hcur;
        [|discriminate].
      destruct (CS.spec_eqb cur _ || _) eqn:Hok; [|discriminate].
      injection Hadd as <-.
      assert (Z.to_nat specindex < length (CS.speclist st))%nat as Hlen by lia.
      assert (CS.specs_in_step
                (CS.mkStation (CS.id st) (CS.airport st) (CS.num_specs st)
                   (CS.write (CS.speclist st) (Z.to_nat specindex) new))) as Hstep'.
      { unfold CS.specs_in_step. cbn [CS.num_specs CS.speclist]. now rewrite write_length. }
      split; [exact Hstep'|]. cbn [CS.id CS.airport CS.num_specs CS.speclist].
      split; [reflexivity|]. split; [reflexivity|]. split; [lia|].
      pose proof (nth_error_write_same (CS.speclist st) _ new Hlen) as Hcell.
      split; [exact Hcell|]. split; [|split].
      * intros i _ Hi. apply nth_error_write_other. auto.
      * intros i Hi. lia.
      * rewrite (AddSpecToStation_eq _ _ _ _ Hstep' Hidx), Hassert.
        cbn [CS.id CS.airport CS.num_specs CS.speclist].
        destruct (Z.geb_spec specindex (CS.num_specs st)); [lia|].
        rewrite Hcell.
        replace (CS.spec_eqb new (CS.mkSpec station_class station_type)) with true
          by (symmetry; now apply spec_eqb_eq).
        cbn [orb]. rewrite write_same by exact Hcell. reflexivity.
  - intros H0 Hbad. rewrite (AddSpecToStation_eq st _ _ _ Hstep Hidx). subst specindex.
    cbn [Z.eqb negb orb].
    destruct (Z.eqb_spec station_type 0) as [Ht | Ht]; cbn [andb]; [|reflexivity].
    destruct (Z.eqb_spec station_class STAT_CLASS_DFLT); [elim Hbad; auto|].
    destruct (Z.eqb_spec station_class STAT_CLASS_WAYP); [elim Hbad; auto|]. reflexivity.
  - intros cur Hcur Hnew Hph. rewrite (AddSpecToStation_eq st _ _ _ Hstep Hidx).
    destruct (negb (specindex =? 0) || _); [|reflexivity].
    assert (Z.to_nat specindex < length (CS.speclist st))%nat as Hlen
      by (apply nth_error_Some; congruence).
    destruct (Z.geb_spec specindex (CS.num_specs st)); [lia|]. rewrite Hcur.
    destruct (CS.spec_eqb cur (CS.mkSpec station_class station_type)) eqn:H1;
      [apply spec_eqb_eq in H1; contradiction|].
    destruct (CS.spec_eqb cur (CS.mkSpec STAT_CLASS_DFLT 0)) eqn:H2;
      [apply spec_eqb_eq in H2; contradiction|]. reflexivity.
  - intros H0 Hge. rewrite (AddSpecToStation_eq st _ _ _ Hstep Hidx).
    destruct (Z.eqb_spec specindex 0); [contradiction|]. cbn [negb orb].
    destruct (Z.geb_spec specindex (CS.num_specs st)); [eauto | lia].
Qed.

End SpecFacts.

Lemma AddSpecToStation_result_witness :
  let st := CS.mkStation 7 (CS.mkAirport 3 2 2 1 0) 1 [CS.mkSpec 0 0] in
  let add := CS.AddSpecToStation 0 1 (CS.mkSpec 99 99) in
  (forall st',
      add st 5 2 3 = Some st' ->
      CS.specs_in_step st' /\
      CS.id st' = 7 /\ CS.airport st' = CS.mkAirport 3 2 2 1 0 /\
      CS.num_specs st' = Z.max 1 (3 + 1) /\
      nth_error (CS.speclist st') 3 = Some (CS.mkSpec 5 2) /\
      (forall i, (i < 1)%nat -> i <> 3%nat ->
                 nth_error (CS.speclist st') i = nth_error [CS.mkSpec 0 0] i) /\
      (forall i, (1 <= i < 3)%nat -> nth_error (CS.speclist st') i = Some (CS.mkSpec 0 0)) /\
      add st' 5 2 3 = Some st') /\
  (exists st', add st 5 2 3 = Some st').
Proof.
  intros st add.
  pose proof (AddSpecToStation_result 0 1 (CS.mkSpec 99 99) st 5 2 3 eq_refl
                ltac:(on_sample)) as (H1 & _ & _ & H4).
  split; [exact H1|]. apply H4; on_sample.
Defined.

(** Replacing the first station with an id by a station with the same id
    changes the lookup of that id only. *)
Lemma find_write_first (l : CS.ClipboardStationList) (sid : Z) (st st' : CS.ClipboardStation) :
  nth_error l (CS.FindStation l sid) = Some st -> CS.id st' = sid ->
  find (fun s => CS.id s =? sid) (CS.write l (CS.FindStation l sid) st') = Some st' /\
  (forall sid', sid' <> sid ->
                find (fun s => CS.id s =? sid') (CS.write l (CS.FindStation l sid) st')
                = find (fun s => CS.id s =? sid') l) /\
  (forall sid', CS.FindStation (CS.write l (CS.FindStation l sid) st') sid'
                = CS.FindStation l sid').
Proof.
  intros Hnth Hid. induction l as [|x l IH]; [discriminate|].
  cbn [CS.FindStation] in *.
  destruct (Z.eqb_spec (CS.id x) sid) as [Hx | Hx].
  - cbn [CS.write find CS.FindStation]. rewrite Hid, Z.eqb_refl.
    split; [reflexivity|]. split.
    + intros sid' Hne. destruct (Z.eqb_spec sid sid'); [congruence|].
      destruct (Z.eqb_spec (CS.id x) sid'); [congruence | reflexivity].
    + intros sid'. now rewrite Hx.
  - cbn [nth_error] in Hnth. cbn [CS.write find CS.FindStation].
    destruct (Z.eqb_spec (CS.id x) sid); [contradiction|].
    destruct (IH Hnth) as (H1 & H2 & H3). split; [exact H1|]. split.
    + intros sid' Hne. destruct (CS.id x =? sid'); [reflexivity | now apply H2].
    + intros sid'. destruct (CS.id x =? sid'); [reflexivity | now rewrite H3].
Qed.

Lemma Forall_write {A : Type} (P : A -> Prop) (l : list A) (i : nat) (v : A) :
  Forall P l -> P v -> Forall P (CS.write l i v).
Proof.
  intros Hl Hv. revert i. induction Hl as [|x l Hx Hl IH]; intros [|i]; cbn;
    constructor; auto.
Qed.

Section PartFacts.

Variable INVALID_STATION : Z.
Variable AT_INVALID : Z.
Variable STAT_CLASS_DFLT : Z.
Variable STAT_CLASS_WAYP : Z.
Variable DIR_E : Z.
Variable DIR_W : Z.
Variable AirportSpec_Get : Z -> CS.AirportSpec.
Variable uninitialised : CS.StationSpecItem.

(** After [AddStation] the returned position is the link of the id and
    holds the station that a lookup finds. *)
Lemma AddStation_position (l : CS.ClipboardStationList) (sid : Z) :
  let l' := fst (CS.AddStation INVALID_STATION AT_INVALID l sid) in
  let pos := snd (CS.AddStation INVALID_STATION AT_INVALID l sid) in
  pos = CS.FindStation l' sid /\
  nth_error l' pos = find (fun s => CS.id s =? sid) l' /\
  (find (fun s => CS.id s =? sid) l = None ->
   find (fun s => CS.id s =? sid) l'
   = Some (CS.mkStation sid (CS.mkAirport INVALID_TILE_INDEX 0 0 AT_INVALID 0) 0 [])) /\
  (forall st, find (fun s => CS.id s =? sid) l = Some st ->
              find (fun s => CS.id s =? sid) l' = Some st).
Proof.
  intros l' pos.
  destruct (AddStation_lookup INVALID_STATION AT_INVALID l sid)
    as ((st & Hnth & Hid & Hfind) & Hin & Hout & _ & _ & Hidem).
  fold l' pos in Hnth, Hfind, Hin, Hout, Hidem.
  assert (pos = CS.FindStation l' sid) as Hpos.
  { rewrite AddStation_eq, Hfind in Hidem. now injection Hidem. }
  split; [exact Hpos|]. split; [congruence|]. split.
  - intros Hnone. rewrite Hout in * by (now apply find_absent).
    rewrite find_app_absent, Hnone. cbn. now rewrite Z.eqb_refl.
  - intros st0 Hsome. rewrite Hin; [exact Hsome|].
    destruct (find_id l sid st0 Hsome) as [Hid0 Hin0]. apply in_map_iff. eauto.
Qed.

(** X15.  [AddRailPart] that goes through leaves a list in which the
    lookup of the id finds a station that holds the given spec at the
    given index; lookups of other ids answer as before, every station's
    spec count stays in step with its array, and the same call again
    changes nothing. *)
Theorem AddRailPart_lookup
    (l l' : CS.ClipboardStationList) (sid station_class station_type specindex : Z) :
  Forall CS.specs_in_step l -> 0 <= specindex < 255 ->
  let rail := CS.AddRailPart INVALID_STATION AT_INVALID STAT_CLASS_DFLT STAT_CLASS_WAYP
                             uninitialised in
  rail l sid station_class station_type specindex = Some l' ->
  (exists st',
      find (fun s => CS.id s =? sid) l' = Some st' /\ CS.id st' = sid /\
      nth_error (CS.speclist st') (Z.to_nat specindex)
      = Some (CS.mkSpec station_class station_type)) /\
  (forall sid', sid' <> sid ->
                find (fun s => CS.id s =? sid') l' = find (fun s => CS.id s =? sid') l) /\
  Forall CS.specs_in_step l' /\
  rail l' sid station_class station_type specindex = Some l'.
Proof.
  intros Hall Hidx rail Hrail. subst rail. unfold CS.AddRailPart in Hrail.
  destruct (AddStation_lookup INVALID_STATION AT_INVALID l sid)
    as ((st & Hnth & Hid & Hfind) & Hin & Hout & Hother & _ & Hidem).
  destruct (AddStation_position l sid) as (Hpos & _).
  destruct (CS.AddStation INVALID_STATION AT_INVALID l sid) as [l1 pos] eqn:Hadd.
  cbn [fst snd] in *. rewrite Hnth in Hrail.
  destruct (CS.AddSpecToStation _ _ _ st _ _ _) as [st'|] eqn:Hspec; [|discriminate].
  injection Hrail as <-.
  assert (Forall CS.specs_in_step l1) as Hall1.
  { destruct (in_dec Z.eq_dec sid (List.map CS.id l)) as [Hi | Hi].
    - now rewrite Hin.
    - rewrite Hout by exact Hi. apply Forall_app. split; [exact Hall|].
      constructor; [reflexivity | constructor]. }
  assert (CS.specs_in_step st) as Hst
    by (apply (proj1 (Forall_forall _ _) Hall1), (nth_error_In _ _ Hnth)).
  destruct (AddSpecToStation_result STAT_CLASS_DFLT STAT_CLASS_WAYP uninitialised
              st station_class station_type specindex Hst Hidx) as (Hres & _).
  destruct (Hres st' Hspec) as (Hst' & Hid' & _ & _ & Hcell & _ & _ & Hagain).
  rewrite Hpos in *.
  destruct (find_write_first l1 sid st st' Hnth) as (Hf1 & Hf2 & Hf3); [congruence|].
  split; [exists st'; repeat split; [exact Hf1 | congruence | exact Hcell]|].
  split; [intros sid' Hne; rewrite Hf2 by exact Hne; now apply Hother|].
  split; [now apply Forall_write|].
  unfold CS.AddRailPart. rewrite AddStation_eq, Hf1, Hf3.
  assert (CS.FindStation l1 sid < length l1)%nat as Hlt
    by (apply nth_error_Some; congruence).
  rewrite nth_error_write_same by exact Hlt. rewrite Hagain.
  rewrite write_same; [reflexivity|]. now apply nth_error_write_same.
Qed.


(** X16.  [AddAirportPart] aborts exactly when the list already has a
    station with this id whose airport type is set: a station takes one
    airport.  When it goes through, the lookup of the id finds a station
    with the given airport tile, type and layout, whose width and height
    are the spec's sizes, exchanged when the layout's rotation is east or
    west; its specs are those it had, lookups of other ids answer as
    before, and, the type being set, a second airport for the same id
    aborts. *)
Theorem AddAirportPart_single
    (l : CS.ClipboardStationList) (sid : Z) (tile : RawTileIndex) (type layout : Z) :
  let air := CS.AddAirportPart INVALID_STATION AT_INVALID DIR_E DIR_W AirportSpec_Get in
  let spec := AirportSpec_Get type in
  let sideways := (CS.rotation spec layout =? DIR_E) || (CS.rotation spec layout =? DIR_W) in
  (air l sid tile type layout = None <->
   exists st, find (fun s => CS.id s =? sid) l = Some st /\
              CS.airport_type (CS.airport st) <> AT_INVALID) /\
  (forall l',
      air l sid tile type layout = Some l' ->
      (exists st',
          find (fun s => CS.id s =? sid) l' = Some st' /\ CS.id st' = sid /\
          CS.airport st'
          = CS.mkAirport tile
              (if sideways then CS.spec_size_y spec else CS.spec_size_x spec)
              (if sideways then CS.spec_size_x spec else CS.spec_size_y spec)
              type layout /\
          (forall st, find (fun s => CS.id s =? sid) l = Some st ->
                      CS.speclist st' = CS.speclist st /\ CS.num_specs st' = CS.num_specs st)) /\
      (forall sid', sid' <> sid ->
                    find (fun s => CS.id s =? sid') l' = find (fun s => CS.id s =? sid') l) /\
      (type <> AT_INVALID ->
       forall tile2 type2 layout2, air l' sid tile2 type2 layout2 = None)).
Proof.
  intros air spec sideways.
  assert (forall l0 tile0 type0 layout0,
             air l0 sid tile0 type0 layout0 =
             match find (fun s => CS.id s =? sid)
                        (fst (CS.AddStation INVALID_STATION AT_INVALID l0 sid)) with
             | None => None
             | Some st =>
                 if CS.airport_type (CS.airport st) =? AT_INVALID then
                   let sp := AirportSpec_Get type0 in
                   let sw := (CS.rotation sp layout0 =? DIR_E) || (CS.rotation sp layout0 =? DIR_W) in
                   Some (CS.write (fst (CS.AddStation INVALID_STATION AT_INVALID l0 sid))
                           (CS.FindStation (fst (CS.AddStation INVALID_STATION AT_INVALID l0 sid)) sid)
                           (CS.mkStation (CS.id st)
                              (CS.mkAirport tile0
                                 (if sw then CS.spec_size_y sp else CS.spec_size_x sp)
                                 (if sw then CS.spec_size_x sp else CS.spec_size_y sp)
                                 type0 layout0)
                              (CS.num_specs st) (CS.speclist st)))
                 else None
             end) as Hair.
  { intros l0 tile0 type0 layout0. subst air. unfold CS.AddAirportPart.
    destruct (AddStation_position l0 sid) as (Hpos & Hnth & _).
    destruct (CS.AddStation INVALID_STATION AT_INVALID l0 sid) as [l1 pos].
    cbn [fst snd] in *. rewrite Hnth, <- Hpos.
    destruct (find _ l1) as [st|]; [|reflexivity].
    destruct (CS.airport_type (CS.airport st) =? AT_INVALID); cbn [assert]; [|reflexivity].
    cbv zeta.
    destruct (CS.rotation (AirportSpec_Get type0) layout0 =? DIR_E),
             (CS.rotation (AirportSpec_Get type0) layout0 =? DIR_W); reflexivity. }
  destruct (AddStation_lookup INVALID_STATION AT_INVALID l sid)
    as ((st & Hnth & Hid & Hfind) & _ & _ & Hother & _ & _).
  destruct (AddStation_position l sid) as (Hpos & _ & Hnew & Hold).
  set (l1 := fst (CS.AddStation INVALID_STATION AT_INVALID l sid)) in *.
  cbv zeta in Hpos, Hnth. rewrite Hpos in Hnth.
  split.
  - rewrite Hair. fold l1. rewrite Hfind. split.
    + destruct (Z.eqb_spec (CS.airport_type (CS.airport st)) AT_INVALID) as [He | He];
        [discriminate|]. intros _.
      destruct (find (fun s => CS.id s =? sid) l) as [st0|] eqn:Hl.
      * exists st0. split; [reflexivity|]. rewrite (Hold st0 eq_refl) in Hfind. congruence.
      * rewrite (Hnew eq_refl) in Hfind. injection Hfind as <-. now elim He.
    + intros (st0 & Hl & Hty). rewrite (Hold st0 Hl) in Hfind. injection Hfind as <-.
      destruct (Z.eqb_spec (CS.airport_type (CS.airport st0)) AT_INVALID);
        [contradiction | reflexivity].
  - intros l' Hl'. rewrite Hair in Hl'. fold l1 in Hl'. rewrite Hfind in Hl'.
    destruct (Z.eqb_spec (CS.airport_type (CS.airport st)) AT_INVALID) as [He | He];
      [|discriminate].
    cbv zeta in Hl'. fold spec sideways in Hl'. injection Hl' as <-.
    set (st' := CS.mkStation (CS.id st) _ _ _).
    destruct (find_write_first l1 sid st st' Hnth Hid) as (Hf1 & Hf2 & Hf3).
    split; [|split].
    + exists st'. split; [exact Hf1|]. split; [exact Hid|]. split; [reflexivity|].
      intros st0 Hl. rewrite (Hold st0 Hl) in Hfind. injection Hfind as <-. auto.
    + intros sid' Hne. rewrite Hf2 by exact Hne. now apply Hother.
    + intros Hty tile2 type2 layout2. rewrite Hair.
      assert (fst (CS.AddStation INVALID_STATION AT_INVALID
                     (CS.write l1 (CS.FindStation l1 sid) st') sid)
              = CS.write l1 (CS.FindStation l1 sid) st') as ->
        by (rewrite AddStation_eq, Hf1; reflexivity).
      rewrite Hf1. subst st'. cbn [CS.airport CS.airport_type].
      destruct (Z.eqb_spec type AT_INVALID); [contradiction | reflexivity].
Qed.

End PartFacts.

Lemma AddRailPart_lookup_witness :
  let rail := CS.AddRailPart 65535 255 0 1 (CS.mkSpec 99 99) in
  let l' := [sample_station;
             CS.mkStation 9 (CS.mkAirport INVALID_TILE_INDEX 0 0 255 0) 3
               [CS.mkSpec 0 0; CS.mkSpec 0 0; CS.mkSpec 5 2]] in
  (exists st',
      find (fun s => CS.id s =? 9) l' = Some st' /\ CS.id st' = 9 /\
      nth_error (CS.speclist st') 2 = Some (CS.mkSpec 5 2)) /\
  (forall sid', sid' <> 9 ->
                find (fun s => CS.id s =? sid') l'
                = find (fun s => CS.id s =? sid') [sample_station]) /\
  Forall CS.specs_in_step l' /\
  rail l' 9 5 2 2 = Some l'.
Proof.
  apply (AddRailPart_lookup 65535 255 0 1 (CS.mkSpec 99 99) [sample_station] _ 9 5 2 2).
  - constructor; [reflexivity | constructor].
  - on_sample.
  - reflexivity.
Defined.

Lemma AddAirportPart_single_witness :
  let air := CS.AddAirportPart 65535 255 2 6 sample_AirportSpec_Get in
  air [sample_station] 7 12 3 4 = None /\
  (exists st',
      find (fun s => CS.id s =? 9)
           [sample_station; CS.mkStation 9 (CS.mkAirport 12 1 5 3 6) 0 []] = Some st' /\
      CS.id st' = 9 /\
      CS.airport st' = CS.mkAirport 12 1 5 3 6 /\
      (forall st, find (fun s => CS.id s =? 9) [sample_station] = Some st ->
                  CS.speclist st' = CS.speclist st /\ CS.num_specs st' = CS.num_specs st)) /\
  (3 <> 255 ->
   forall tile2 type2 layout2,
     air [sample_station; CS.mkStation 9 (CS.mkAirport 12 1 5 3 6) 0 []] 9 tile2 type2 layout2
     = None).
Proof.
  intros air. split; [|split].
  - apply (proj1 (AddAirportPart_single 65535 255 2 6 sample_AirportSpec_Get
                    [sample_station] 7 12 3 4)).
    exists sample_station. split; [reflexivity | discriminate].
  - apply (proj2 (AddAirportPart_single 65535 255 2 6 sample_AirportSpec_Get
                    [sample_station] 9 12 3 6) _ eq_refl).
  - apply (proj2 (AddAirportPart_single 65535 255 2 6 sample_AirportSpec_Get
                    [sample_station] 9 12 3 6) _ eq_refl).
Defined.


(** ** Tile storage *)

Lemma all_below_spec (n : nat) (p : Z -> bool) :
  TM.all_below n p = true -> forall z, 0 <= z < Z.of_nat n -> p z = true.
Proof.
  induction n as [|n IH]; cbn [TM.all_below]; intros H z Hz; [lia|].
  apply andb_true_iff in H. destruct H as [Hn Hrest].
  destruct (Z.eq_dec z (Z.of_nat n)) as [-> | Hne]; [exact Hn|].
  apply IH; [exact Hrest | lia].
Qed.

(** The bits 4 to 7 of a byte: writing them and reading them back, and the
    bits 0 and 1 next to them. *)
Lemma type_bits (x d : Z) :
  0 <= x < 256 -> 0 <= d < 16 ->
  TM.GB (TM.SB x 4 4 d) 4 4 = d /\
  TM.GB (TM.SB x 4 4 d) 0 2 = TM.GB x 0 2 /\
  0 <= TM.SB x 4 4 d < 256.
Proof.
  intros Hx Hd.
  assert (TM.all_below 256 (fun x => TM.all_below 16 (fun d =>
            (TM.GB (TM.SB x 4 4 d) 4 4 =? d) &&
            (TM.GB (TM.SB x 4 4 d) 0 2 =? TM.GB x 0 2) &&
            (0 <=? TM.SB x 4 4 d) && (TM.SB x 4 4 d <? 256))) = true) as Hall
    by (vm_compute; reflexivity).
  pose proof (all_below_spec _ _ (all_below_spec _ _ Hall x Hx) d Hd) as H.
  cbv beta in H. rewrite !andb_true_iff, !Z.eqb_eq, Z.leb_le, Z.ltb_lt in H. tauto.
Qed.

Lemma zone_bits (x d : Z) :
  0 <= x < 256 -> 0 <= d < 4 ->
  TM.GB (TM.SB x 0 2 d) 0 2 = d /\
  TM.GB (TM.SB x 0 2 d) 4 4 = TM.GB x 4 4 /\
  0 <= TM.SB x 0 2 d < 256.
Proof.
  intros Hx Hd.
  assert (TM.all_below 256 (fun x => TM.all_below 4 (fun d =>
            (TM.GB (TM.SB x 0 2 d) 0 2 =? d) &&
            (TM.GB (TM.SB x 0 2 d) 4 4 =? TM.GB x 4 4) &&
            (0 <=? TM.SB x 0 2 d) && (TM.SB x 0 2 d <? 256))) = true) as Hall
    by (vm_compute; reflexivity).
  pose proof (all_below_spec _ _ (all_below_spec _ _ Hall x Hx) d Hd) as H.
  cbv beta in H. rewrite !andb_true_iff, !Z.eqb_eq, Z.leb_le, Z.ltb_lt in H. tauto.
Qed.

Lemma owner_bits (x d : Z) :
  0 <= x < 256 -> 0 <= d < 32 ->
  TM.GB (TM.SB x 0 5 d) 0 5 = d /\
  TM.GB (TM.SB x 0 5 d) 5 3 = TM.GB x 5 3 /\
  0 <= TM.SB x 0 5 d < 256.
Proof.
  intros Hx Hd.
  assert (TM.all_below 256 (fun x => TM.all_below 32 (fun d =>
            (TM.GB (TM.SB x 0 5 d) 0 5 =? d) &&
            (TM.GB (TM.SB x 0 5 d) 5 3 =? TM.GB x 5 3) &&
            (0 <=? TM.SB x 0 5 d) && (TM.SB x 0 5 d <? 256))) = true) as Hall
    by (vm_compute; reflexivity).
  pose proof (all_below_spec _ _ (all_below_spec _ _ Hall x Hx) d Hd) as H.
  cbv beta in H. rewrite !andb_true_iff, !Z.eqb_eq, Z.leb_le, Z.ltb_lt in H. tauto.
Qed.

(** X17.  The tile hash is the same for all tiles of one block of 16 by
    16 tiles, and its two-bit form is the hash modulo 4. *)
Theorem TileHash_block (x y x' y' : Z) :
  x / 16 = x' / 16 -> y / 16 = y' / 16 ->
  TM.TileHash x y = TM.TileHash x' y' /\
  TM.TileHash2Bit x y = TM.TileHash x y mod 4 /\
  0 <= TM.TileHash2Bit x y < 4.
Proof.
  intros Hxx Hyy.
  assert (forall z, Z.shiftr z 4 = z / 16 /\ Z.shiftr z 6 = z / 16 / 4) as Hsh.
  { intros z. rewrite !Z.shiftr_div_pow2 by lia. split; [reflexivity|].
    rewrite Z.div_div by lia. reflexivity. }
  assert (TM.TileHash2Bit x y = TM.TileHash x y mod 4) as H2.
  { unfold TM.TileHash2Bit, TM.GB. rewrite Z.shiftr_0_r.
    change (2 ^ 2 - 1) with (Z.ones 2). rewrite Z.land_ones by lia. reflexivity. }
  split.
  - unfold TM.TileHash.
    destruct (Hsh x) as [-> ->], (Hsh y) as [-> ->], (Hsh x') as [-> ->], (Hsh y') as [-> ->].
    now rewrite Hxx, Hyy.
  - split; [exact H2|]. rewrite H2. apply Z.mod_pos_bound. lia.
Qed.

Lemma TileHash_block_witness :
  TM.TileHash 35 70 = TM.TileHash 47 64 /\
  TM.TileHash2Bit 35 70 = TM.TileHash 35 70 mod 4 /\
  0 <= TM.TileHash2Bit 35 70 < 4.
Proof. apply (TileHash_block 35 70 47 64); reflexivity. Defined.

Lemma GetTile_store_same (mem : TM.TileMem) (tile : GenericTileIndex) (v : TM.Tile) :
  TM.GetTile (TM.store mem tile v) tile = v.
Proof.
  unfold TM.GetTile, TM.store. now rewrite Map_eqb_refl, Z.eqb_refl.
Qed.

Lemma GetTile_store_other (mem : TM.TileMem) (tile t' : GenericTileIndex) (v : TM.Tile) :
  t' <> tile -> TM.GetTile (TM.store mem tile v) t' = TM.GetTile mem t'.
Proof.
  intros Hne. unfold TM.GetTile, TM.store.
  destruct (Map_eqb (MapOf t') (MapOf tile)) eqn:Hm; [|reflexivity].
  destruct (Z.eqb_spec (IndexOf t') (IndexOf tile)) as [Hi | Hi]; [|reflexivity].
  apply Map_eqb_eq in Hm. elim Hne. destruct t', tile.
  unfold MapOf, IndexOf in *. cbn in *. congruence.
Qed.

Lemma GenericTileIndex_eq_dec (t1 t2 : GenericTileIndex) : {t1 = t2} + {t1 <> t2}.
Proof.
  destruct t1 as [i1 m1], t2 as [i2 m2].
  destruct (Z.eq_dec i1 i2) as [-> | Hi]; [|right; congruence].
  destruct (Map_eqb m1 m2) eqn:Hm.
  - left. apply Map_eqb_eq in Hm. now subst.
  - right. intros H. injection H as ->. now rewrite Map_eqb_refl in Hm.
Qed.

Section TypeFacts.

Variable MP_VOID : Z.
Variable MP_HOUSE : Z.
Variable MP_INDUSTRY : Z.
Variable TROPICZONE_NORMAL : Z.
Variable freeform_edges : bool.
Variable IsMainMapTile : GenericTileIndex -> bool.
Variable main_map : Map.

(** X18.  A call of [SetTileType] with a type below 16 that goes through
    leaves a storage in which [GetTileType] of the tile returns that type,
    the tile is of type [MP_VOID] exactly when it is not an inner tile, the
    tropic zone of every tile is as before, height and [m1] of the tile
    and all of every other tile are untouched.  On a valid tile index the
    call aborts exactly when the type is [MP_VOID] on an inner tile or
    another type on a tile that is not inner. *)
Theorem SetTileType_GetTileType (mem : TM.TileMem) (tile : GenericTileIndex) (ty : Z) :
  0 <= ty < 16 -> TM.bytes (TM.GetTile mem tile) ->
  IsValidTileIndex tile = true ->
  let inner := TM.IsInnerTile freeform_edges IsMainMapTile tile in
  let set := TM.SetTileType MP_VOID freeform_edges IsMainMapTile mem tile ty in
  (set = None <-> inner = Some (ty =? MP_VOID)) /\
  (forall mem',
      set = Some mem' ->
      TM.GetTileType mem' tile = Some ty /\
      TM.IsTileType mem' tile MP_VOID = option_map negb inner /\
      (forall i, TM.GetTropicZone main_map mem' i = TM.GetTropicZone main_map mem i) /\
      TM.height (TM.GetTile mem' tile) = TM.height (TM.GetTile mem tile) /\
      TM.m1 (TM.GetTile mem' tile) = TM.m1 (TM.GetTile mem tile) /\
      TM.bytes (TM.GetTile mem' tile) /\
      (forall t', t' <> tile -> TM.GetTile mem' t' = TM.GetTile mem t')).
Proof.
  intros Hty (Hb1 & Hb2 & Hb3) Hv inner set. subst set. unfold TM.SetTileType.
  rewrite Hv. cbn [assert].
  assert (exists b, inner = Some b) as [b Hb]
    by (subst inner; unfold TM.IsInnerTile; rewrite Hv; cbn [assert]; eauto).
  fold inner. rewrite Hb.
  destruct (type_bits (TM.type (TM.GetTile mem tile)) ty Hb1 Hty) as (Hget & Hzone & Hrange).
  split.
  - destruct b, (ty =? MP_VOID); cbn; split; congruence.
  - intros mem' Hset.
    destruct (Bool.eqb b (negb (ty =? MP_VOID))) eqn:Heq; cbn [assert] in Hset; [|discriminate].
    injection Hset as <-. apply eqb_prop in Heq.
    split; [|split; [|split; [|split; [|split; [|split]]]]].
    + unfold TM.GetTileType. rewrite Hv. cbn [assert].
      rewrite GetTile_store_same. cbn [TM.type]. now rewrite Hget.
    + unfold TM.IsTileType, TM.GetTileType. rewrite Hv. cbn [assert].
      rewrite GetTile_store_same. cbn [TM.type option_map]. rewrite Hget, Heq.
      now rewrite negb_involutive.
    + intros i. unfold TM.GetTropicZone.
      destruct (i <? MapSize main_map); cbn [assert]; [|reflexivity]. f_equal.
      destruct (GenericTileIndex_eq_dec (mkTile i main_map) tile) as [-> | Hne].
      * rewrite GetTile_store_same. cbn [TM.type]. exact Hzone.
      * now rewrite GetTile_store_other by exact Hne.
    + now rewrite GetTile_store_same.
    + now rewrite GetTile_store_same.
    + rewrite GetTile_store_same. unfold TM.bytes. cbn [TM.type TM.height TM.m1]. auto.
    + intros t' Hne. now apply GetTile_store_other.
Qed.

End TypeFacts.

Section ZoneFacts.

Variable MP_VOID : Z.
Variable TROPICZONE_NORMAL : Z.
Variable main_map : Map.

(** X19.  On a tile index of the main map and a zone below 4,
    [SetTropicZone] aborts exactly when the tile is of type [MP_VOID] and
    the zone is not [TROPICZONE_NORMAL]; when it goes through,
    [GetTropicZone] of the tile returns the zone, the type of every tile is
    as before, height and [m1] of the tile and all of every other tile are
    untouched. *)
Theorem SetTropicZone_GetTropicZone (mem : TM.TileMem) (i zone : Z) :
  0 <= zone < 4 -> TM.bytes (TM.GetTile mem (mkTile i main_map)) ->
  i < MapSize main_map ->
  let tile := mkTile i main_map in
  let set := TM.SetTropicZone MP_VOID TROPICZONE_NORMAL main_map mem i zone in
  (set = None <->
   TM.GetTileType mem tile = Some MP_VOID /\ zone <> TROPICZONE_NORMAL) /\
  (forall mem',
      set = Some mem' ->
      TM.GetTropicZone main_map mem' i = Some zone /\
      (forall t, TM.GetTileType mem' t = TM.GetTileType mem t) /\
      TM.height (TM.GetTile mem' tile) = TM.height (TM.GetTile mem tile) /\
      TM.m1 (TM.GetTile mem' tile) = TM.m1 (TM.GetTile mem tile) /\
      TM.bytes (TM.GetTile mem' tile) /\
      (forall t', t' <> tile -> TM.GetTile mem' t' = TM.GetTile mem t')).
Proof.
  intros Hz (Hb1 & Hb2 & Hb3) Hi tile set. subst set.
  assert (IsValidTileIndex tile = true) as Hv
    by (unfold IsValidTileIndex; cbn; now apply Z.ltb_lt).
  assert ((i <? MapSize main_map) = true) as Hlt by now apply Z.ltb_lt.
  unfold TM.SetTropicZone, TM.IsTileType, TM.GetTileType. fold tile.
  rewrite Hlt, Hv. cbn [assert].
  destruct (zone_bits (TM.type (TM.GetTile mem tile)) zone Hb1 Hz) as (Hget & Htype & Hrange).
  split.
  - destruct (Z.eqb_spec (TM.GB (TM.type (TM.GetTile mem tile)) 4 4) MP_VOID) as [He | He];
      destruct (Z.eqb_spec zone TROPICZONE_NORMAL) as [Hn | Hn]; cbn; split;
      try discriminate; try tauto; try (intros [H1 H2]; congruence).
    intros _. split; [congruence | exact Hn].
  - intros mem' Hset.
    destruct (negb _ || _); cbn [assert] in Hset; [|discriminate]. injection Hset as <-.
    split; [|split; [|split; [|split; [|split]]]].
    + unfold TM.GetTropicZone. rewrite Hlt. cbn [assert]. fold tile.
      rewrite GetTile_store_same. cbn [TM.type]. now rewrite Hget.
    + intros t. destruct (IsValidTileIndex t); cbn [assert]; [|reflexivity]. f_equal.
      destruct (GenericTileIndex_eq_dec t tile) as [-> | Hne].
      * rewrite GetTile_store_same. cbn [TM.type]. exact Htype.
      * now rewrite GetTile_store_other by exact Hne.
    + now rewrite GetTile_store_same.
    + now rewrite GetTile_store_same.
    + rewrite GetTile_store_same. unfold TM.bytes. cbn [TM.type TM.height TM.m1]. auto.
    + intros t' Hne. now apply GetTile_store_other.
Qed.

End ZoneFacts.

Section OwnerFacts.

Variable MP_VOID : Z.
Variable MP_HOUSE : Z.
Variable MP_INDUSTRY : Z.

(** The assertions of the owner accessors pass on the tiles with a valid
    index whose type is none of void, house and industry. *)
Lemma owner_asserts_eq (mem : TM.TileMem) (tile : GenericTileIndex) :
  TM.owner_asserts MP_VOID MP_HOUSE MP_INDUSTRY mem tile =
  let ty := TM.GB (TM.type (TM.GetTile mem tile)) 4 4 in
  if IsValidTileIndex tile && negb (ty =? MP_VOID) && negb (ty =? MP_HOUSE) &&
     negb (ty =? MP_INDUSTRY)
  then Some tt else None.
Proof.
  unfold TM.owner_asserts, TM.IsValidTile, TM.IsTileType, TM.GetTileType. cbv zeta.
  destruct (IsValidTileIndex tile); cbn [assert andb]; [|reflexivity].
  destruct (_ =? MP_VOID); cbn [assert negb andb]; [reflexivity|].
  destruct (_ =? MP_HOUSE); cbn [assert negb andb]; [reflexivity|].
  destruct (_ =? MP_INDUSTRY); reflexivity.
Qed.

(** X20.  [GetTileOwner] and [SetTileOwner] abort exactly on a tile whose
    index is not valid or whose type is void, house or industry.  A call of
    [SetTileOwner] with an owner below 32 that goes through leaves a
    storage in which [GetTileOwner] of the tile returns that owner, the
    three upper bits of [m1] and the type and height of the tile are as
    before, and every other tile is untouched. *)
Theorem SetTileOwner_GetTileOwner (mem : TM.TileMem) (tile : GenericTileIndex) (owner : Z) :
  0 <= owner < 32 -> TM.bytes (TM.GetTile mem tile) ->
  let get := TM.GetTileOwner MP_VOID MP_HOUSE MP_INDUSTRY in
  let set := TM.SetTileOwner MP_VOID MP_HOUSE MP_INDUSTRY mem tile owner in
  let ty := TM.GB (TM.type (TM.GetTile mem tile)) 4 4 in
  (get mem tile = None <->
   IsValidTileIndex tile = false \/ ty = MP_VOID \/ ty = MP_HOUSE \/ ty = MP_INDUSTRY) /\
  (set = None <-> get mem tile = None) /\
  (forall mem',
      set = Some mem' ->
      get mem' tile = Some owner /\
      TM.IsTileOwner MP_VOID MP_HOUSE MP_INDUSTRY mem' tile owner = Some true /\
      TM.GB (TM.m1 (TM.GetTile mem' tile)) 5 3 = TM.GB (TM.m1 (TM.GetTile mem tile)) 5 3 /\
      TM.type (TM.GetTile mem' tile) = TM.type (TM.GetTile mem tile) /\
      TM.height (TM.GetTile mem' tile) = TM.height (TM.GetTile mem tile) /\
      (forall t', t' <> tile -> TM.GetTile mem' t' = TM.GetTile mem t')).
Proof.
  intros Ho (Hb1 & Hb2 & Hb3) get set ty. subst get set.
  unfold TM.GetTileOwner, TM.SetTileOwner, TM.IsTileOwner, TM.GetTileOwner.
  rewrite !owner_asserts_eq. cbv zeta. fold ty.
  destruct (owner_bits (TM.m1 (TM.GetTile mem tile)) owner Hb3 Ho) as (Hget & Hup & Hrange).
  split; [|split].
  - destruct (IsValidTileIndex tile); cbn [andb].
    + destruct (Z.eqb_spec ty MP_VOID), (Z.eqb_spec ty MP_HOUSE), (Z.eqb_spec ty MP_INDUSTRY);
        cbn; split; try discriminate; try tauto; intros [H | [H | [H | H]]];
        try discriminate; contradiction.
    + split; [auto | reflexivity].
  - destruct (IsValidTileIndex tile && _ && _ && _); split; try discriminate; reflexivity.
  - intros mem' Hset.
    destruct (IsValidTileIndex tile && _ && _ && _) eqn:Hok; [|discriminate].
    injection Hset as <-.
    rewrite owner_asserts_eq. cbv zeta. rewrite GetTile_store_same. cbn [TM.type TM.m1].
    fold ty. rewrite Hok, Hget, Z.eqb_refl.
    split; [reflexivity|]. split; [reflexivity|]. split; [exact Hup|].
    split; [reflexivity|]. split; [reflexivity|].
    intros t' Hne. now apply GetTile_store_other.
Qed.

End OwnerFacts.

Section HeightFacts.

Variable MAX_TILE_HEIGHT : Z.
Variable TILE_HEIGHT : Z.

(** X21.  On a valid tile index [SetTileHeight] aborts exactly when the
    height is above [MAX_TILE_HEIGHT]; when it goes through with a height
    that fits a byte, [TileHeight] of the tile returns that height,
    [TilePixelHeight] returns it times [TILE_HEIGHT], the type and [m1] of
    the tile are as before and every other tile is untouched.  On an index
    that is not valid both abort. *)
Theorem SetTileHeight_TileHeight (mem : TM.TileMem) (tile : GenericTileIndex) (h : Z) :
  0 <= h < 256 -> 0 <= TILE_HEIGHT < 2 ^ 24 ->
  let set := TM.SetTileHeight MAX_TILE_HEIGHT mem tile h in
  (IsValidTileIndex tile = false -> set = None /\ TM.TileHeight mem tile = None) /\
  (IsValidTileIndex tile = true -> (set = None <-> MAX_TILE_HEIGHT < h)) /\
  (forall mem',
      set = Some mem' ->
      TM.TileHeight mem' tile = Some h /\
      TM.TilePixelHeight TILE_HEIGHT mem' tile = Some (h * TILE_HEIGHT) /\
      TM.type (TM.GetTile mem' tile) = TM.type (TM.GetTile mem tile) /\
      TM.m1 (TM.GetTile mem' tile) = TM.m1 (TM.GetTile mem tile) /\
      (forall t', t' <> tile -> TM.GetTile mem' t' = TM.GetTile mem t')).
Proof.
  intros Hh Hth set. subst set. unfold TM.SetTileHeight, TM.TilePixelHeight, TM.TileHeight.
  split; [|split].
  - intros ->. split; reflexivity.
  - intros ->. cbn [assert].
    destruct (Z.leb_spec h MAX_TILE_HEIGHT); cbn [assert]; split; try discriminate; try lia.
    reflexivity.
  - intros mem' Hset.
    destruct (IsValidTileIndex tile); cbn [assert] in *; [|discriminate].
    destruct (h <=? MAX_TILE_HEIGHT); cbn [assert] in Hset; [|discriminate].
    injection Hset as <-. rewrite !GetTile_store_same. cbn [TM.type TM.height TM.m1].
    assert (CS.to_byte h = h) as -> by (unfold CS.to_byte; apply Z.mod_small; lia).
    split; [reflexivity|]. split.
    + f_equal. apply to_uint_small. nia.
    + split; [reflexivity|]. split; [reflexivity|].
      intros t' Hne. now apply GetTile_store_other.
Qed.

End HeightFacts.

Lemma SetTileType_GetTileType_witness :
  let tile := TileXY 2 3 map8 in
  let inner := TM.IsInnerTile true (fun _ => true) tile in
  let set := TM.SetTileType 7 true (fun _ => true) sample_mem tile 5 in
  (set = None <-> inner = Some (5 =? 7)) /\
  (forall mem',
      set = Some mem' ->
      TM.GetTileType mem' tile = Some 5 /\
      TM.IsTileType mem' tile 7 = option_map negb inner /\
      (forall i, TM.GetTropicZone map8 mem' i = TM.GetTropicZone map8 sample_mem i) /\
      TM.height (TM.GetTile mem' tile) = TM.height (TM.GetTile sample_mem tile) /\
      TM.m1 (TM.GetTile mem' tile) = TM.m1 (TM.GetTile sample_mem tile) /\
      TM.bytes (TM.GetTile mem' tile) /\
      (forall t', t' <> tile -> TM.GetTile mem' t' = TM.GetTile sample_mem t')).
Proof.
  apply (SetTileType_GetTileType 7 true (fun _ => true) map8 sample_mem (TileXY 2 3 map8) 5);
    on_sample.
Defined.

Lemma SetTropicZone_GetTropicZone_witness :
  let tile := mkTile 26 map8 in
  let set := TM.SetTropicZone 7 0 map8 sample_mem 26 3 in
  (set = None <-> TM.GetTileType sample_mem tile = Some 7 /\ 3 <> 0) /\
  (forall mem',
      set = Some mem' ->
      TM.GetTropicZone map8 mem' 26 = Some 3 /\
      (forall t, TM.GetTileType mem' t = TM.GetTileType sample_mem t) /\
      TM.height (TM.GetTile mem' tile) = TM.height (TM.GetTile sample_mem tile) /\
      TM.m1 (TM.GetTile mem' tile) = TM.m1 (TM.GetTile sample_mem tile) /\
      TM.bytes (TM.GetTile mem' tile) /\
      (forall t', t' <> tile -> TM.GetTile mem' t' = TM.GetTile sample_mem t')).
Proof.
  apply (SetTropicZone_GetTropicZone 7 0 map8 sample_mem 26 3); on_sample.
Defined.

Lemma SetTileOwner_GetTileOwner_witness :
  let tile := TileXY 2 3 map8 in
  let get := TM.GetTileOwner 7 3 8 in
  let set := TM.SetTileOwner 7 3 8 sample_mem tile 9 in
  let ty := TM.GB (TM.type (TM.GetTile sample_mem tile)) 4 4 in
  (get sample_mem tile = None <->
   IsValidTileIndex tile = false \/ ty = 7 \/ ty = 3 \/ ty = 8) /\
  (set = None <-> get sample_mem tile = None) /\
  (forall mem',
      set = Some mem' ->
      get mem' tile = Some 9 /\
      TM.IsTileOwner 7 3 8 mem' tile 9 = Some true /\
      TM.GB (TM.m1 (TM.GetTile mem' tile)) 5 3
      = TM.GB (TM.m1 (TM.GetTile sample_mem tile)) 5 3 /\
      TM.type (TM.GetTile mem' tile) = TM.type (TM.GetTile sample_mem tile) /\
      TM.height (TM.GetTile mem' tile) = TM.height (TM.GetTile sample_mem tile) /\
      (forall t', t' <> tile -> TM.GetTile mem' t' = TM.GetTile sample_mem t')).
Proof.
  apply (SetTileOwner_GetTileOwner 7 3 8 sample_mem (TileXY 2 3 map8) 9); on_sample.
Defined.

Lemma SetTileHeight_TileHeight_witness :
  let tile := TileXY 2 3 map8 in
  let set := TM.SetTileHeight 15 sample_mem tile 11 in
  (IsValidTileIndex tile = false -> set = None /\ TM.TileHeight sample_mem tile = None) /\
  (IsValidTileIndex tile = true -> (set = None <-> 15 < 11)) /\
  (forall mem',
      set = Some mem' ->
      TM.TileHeight mem' tile = Some 11 /\
      TM.TilePixelHeight 8 mem' tile = Some (11 * 8) /\
      TM.type (TM.GetTile mem' tile) = TM.type (TM.GetTile sample_mem tile) /\
      TM.m1 (TM.GetTile mem' tile) = TM.m1 (TM.GetTile sample_mem tile) /\
      (forall t', t' <> tile -> TM.GetTile mem' t' = TM.GetTile sample_mem t')).
Proof.
  apply (SetTileHeight_TileHeight 15 8 sample_mem (TileXY 2 3 map8) 11); on_sample.
Defined.
